(** * EasyLang: a shallow embedding of the interpreter and its specification

    The development follows the two C sources of the repository:
    - [easylang_version2.0.c] (functions, [return], nested scopes), modelled
      by the top-level definitions below;
    - [easylang.c] (the first revision), modelled in [Module V1] where it
      differs from the second one.

    Conventions of the embedding.
    - A C [double] is a primitive binary64 float ([PrimFloat.float]).
    - A C string is a [string]; [char] is [ascii]; the terminating NUL of the
      source buffer is what [peekc] reads past the last character.
    - [Value] strings are held by value: [malloc], [strdup] and [free] are
      not modelled, so [value_dup] is a copy and [value_free] releases
      nothing that the model can observe.  The C program does not keep to
      this discipline: the parameter loop of a call frees the argument
      string that [var_set] has just stored (line 815), [N_STMT_SET] returns
      the very string it stored, which the statement list then frees (lines
      683 and 697), and [main] ends by freeing the syntax tree and then the
      function table that points into it (lines 945-946).  From such a point
      on the behaviour of the C program is undefined; the embedding, which
      goes on with the value, describes the program up to the first such
      free.  The notions [no_strings] and [string_free] below restrict a
      statement to calls and scopes without strings, where there is no such
      free, and [main] below ends where the evaluation ends, before the
      cleanup.
    - The line counter of the lexer, a C [int], is an unbounded integer
      here; what is stated about its value assumes that it stays within
      [INT_MAX].
    - A NaN carries no sign here, whereas the C library prints the sign of
      a NaN: the text that [format_g] gives for a number is the C library's
      for every number that is not a NaN.
    - [exit(1)] after a diagnostic is the outcome [Exit1] carrying the text
      written to the standard error stream.
    - Loops and recursion that the C code bounds only by its input are given
      a fuel argument; running out of fuel is the outcome [OutOfFuel]
      ([None] in the lexer), and the lexer is proved never to reach it. *)

From Stdlib Require Import ZArith Lia List Bool Ascii String.
From Stdlib Require Import DecimalString.
From Stdlib Require Import PrimFloat FloatOps SpecFloat.
Import ListNotations.
Local Open Scope string_scope.

(** ** Characters used by the sources *)

Definition NUL : ascii := Ascii.zero.
Definition TAB : ascii := "009"%char.
Definition LF : ascii := "010"%char.
Definition CR : ascii := "013"%char.
Definition DQUOTE : ascii := "034"%char.
Definition BACKSLASH : ascii := "092"%char.
Definition nl : string := String LF EmptyString.

(** ** The C library functions the interpreter calls

    These are not code of the repository.  They are modelled after ISO C99
    in the "C" locale, with the correctly rounded conversions of glibc. *)

Module Libc.

Definition isdigit (c : ascii) : bool :=
  let n := nat_of_ascii c in (48 <=? n)%nat && (n <=? 57)%nat.

Definition isupper (c : ascii) : bool :=
  let n := nat_of_ascii c in (65 <=? n)%nat && (n <=? 90)%nat.

Definition islower (c : ascii) : bool :=
  let n := nat_of_ascii c in (97 <=? n)%nat && (n <=? 122)%nat.

Definition isalpha (c : ascii) : bool := isupper c || islower c.

Definition isalnum (c : ascii) : bool := isalpha c || isdigit c.

Definition isspace (c : ascii) : bool :=
  let n := nat_of_ascii c in (n =? 32)%nat || ((9 <=? n)%nat && (n <=? 13)%nat).

Definition isxdigit (c : ascii) : bool :=
  let n := nat_of_ascii c in
  isdigit c || ((65 <=? n)%nat && (n <=? 70)%nat) || ((97 <=? n)%nat && (n <=? 102)%nat).

Definition tolower (c : ascii) : ascii :=
  if isupper c then ascii_of_nat (nat_of_ascii c + 32) else c.

Definition digit_val (c : ascii) : Z := Z.of_nat (nat_of_ascii c) - 48.

Definition xdigit_val (c : ascii) : Z :=
  if isdigit c then digit_val c
  else Z.of_nat (nat_of_ascii (tolower c)) - 87.

(** [%d] of a C [int]. *)
Definition string_of_Z (z : Z) : string := NilZero.string_of_int (Z.to_int z).

(** *** Rounding a rational to the nearest double, ties to even *)

Definition signed_zero (neg : bool) : float := if neg then neg_zero else zero.

Definition round_ratio (neg : bool) (num den : Z) : float :=
  if (num =? 0)%Z then signed_zero neg
  else
    (* scale so that the integer quotient keeps at least 64 bits *)
    let k := (64 + Z.log2 den - Z.log2 num)%Z in
    let n' := if (0 <=? k)%Z then (num * 2 ^ k)%Z else num in
    let d' := if (0 <=? k)%Z then den else (den * 2 ^ (- k))%Z in
    let q := (n' / d')%Z in
    let r := (n' mod d')%Z in
    let loc := if (r =? 0)%Z then loc_Exact else loc_Inexact (2 * r ?= d')%Z in
    SF2Prim (binary_round_aux prec emax neg q (- k) loc).

(** The double nearest to [m * base ^ t].  Exponents far outside the range
    of a double are cut short: the result is an infinity or a zero whatever
    the digits are. *)
Definition scale_round (neg : bool) (m : Z) (ndigits : nat) (base t lim : Z) : float :=
  if (m =? 0)%Z then signed_zero neg
  else if (lim <? t)%Z then (if neg then neg_infinity else infinity)
  else if (t <? - (lim + Z.of_nat ndigits * 4))%Z then signed_zero neg
  else if (0 <=? t)%Z then round_ratio neg (m * base ^ t) 1
  else round_ratio neg m (base ^ (- t)).

(** *** [strtod]: the value and the number of characters converted *)

Fixpoint scan_digits (isd : ascii -> bool) (val : ascii -> Z) (base : Z)
                     (s : string) (acc : Z) (cnt : nat) : Z * nat * string :=
  match s with
  | String c s' =>
      if isd c then scan_digits isd val base s' (base * acc + val c)%Z (S cnt)
      else (acc, cnt, s)
  | EmptyString => (acc, cnt, s)
  end.

Fixpoint skip_space (s : string) (cnt : nat) : nat * string :=
  match s with
  | String c s' => if isspace c then skip_space s' (S cnt) else (cnt, s)
  | EmptyString => (cnt, s)
  end.

Fixpoint lower (s : string) : string :=
  match s with
  | String c s' => String (tolower c) (lower s')
  | EmptyString => EmptyString
  end.

(** An optional exponent part: [mark] is [e] or [p]; a mark that no digit
    follows is not part of the number. *)
Definition scan_exponent (mark : ascii) (s : string) : Z * nat :=
  match s with
  | String c s1 =>
      if Ascii.eqb (tolower c) mark then
        let '(neg, nsign, s2) :=
          match s1 with
          | String "-"%char s2 => (true, 1%nat, s2)
          | String "+"%char s2 => (false, 1%nat, s2)
          | _ => (false, 0%nat, s1)
          end in
        let '(e, nd, _) := scan_digits isdigit digit_val 10 s2 0%Z 0%nat in
        match nd with
        | O => (0%Z, 0%nat)
        | _ => ((if neg then - e else e)%Z, (1 + nsign + nd)%nat)
        end
      else (0%Z, 0%nat)
  | EmptyString => (0%Z, 0%nat)
  end.

(** Digits, an optional point, digits, an optional exponent; [None] when
    there is no digit at all. *)
Definition scan_number (isd : ascii -> bool) (val : ascii -> Z) (base : Z)
                       (mark : ascii) (per_digit lim : Z) (ebase : Z)
                       (neg : bool) (s : string) : option (float * nat) :=
  let '(ip, ni, r1) := scan_digits isd val base s 0%Z 0%nat in
  let '(all, nf, npoint, r2) :=
    match r1 with
    | String "."%char r1' =>
        let '(all, nf, r2) := scan_digits isd val base r1' ip 0%nat in
        (all, nf, 1%nat, r2)
    | _ => (ip, 0%nat, 0%nat, r1)
    end in
  match (ni + nf)%nat with
  | O => None
  | _ =>
      let '(e, ne) := scan_exponent mark r2 in
      Some (scale_round neg all (ni + nf) ebase (e - per_digit * Z.of_nat nf) lim,
            (ni + npoint + nf + ne)%nat)
  end.

Definition scan_decimal : bool -> string -> option (float * nat) :=
  scan_number isdigit digit_val 10 "e"%char 1 400 10.

Definition scan_hex : bool -> string -> option (float * nat) :=
  scan_number isxdigit xdigit_val 16 "p"%char 4 1200 2.

Fixpoint scan_nan_chars (s : string) (cnt : nat) : option nat :=
  match s with
  | String c s' =>
      if Ascii.eqb c ")"%char then Some (S cnt)
      else if isalnum c || Ascii.eqb c "_"%char then scan_nan_chars s' (S cnt)
      else None
  | EmptyString => None
  end.

Definition strtod (s : string) : float * nat :=
  let '(nws, s0) := skip_space s 0%nat in
  let '(neg, nsign, s1) :=
    match s0 with
    | String "-"%char s1 => (true, 1%nat, s1)
    | String "+"%char s1 => (false, 1%nat, s1)
    | _ => (false, 0%nat, s0)
    end in
  let pre := (nws + nsign)%nat in
  if String.eqb (lower (substring 0 8 s1)) "infinity"
  then ((if neg then neg_infinity else infinity), (pre + 8)%nat)
  else if String.eqb (lower (substring 0 3 s1)) "inf"
  then ((if neg then neg_infinity else infinity), (pre + 3)%nat)
  else if String.eqb (lower (substring 0 3 s1)) "nan"
  then match substring 3 1 s1, scan_nan_chars (substring 4 (String.length s1) s1) 1%nat with
       | "(", Some n => (nan, (pre + 3 + n)%nat)
       | _, _ => (nan, (pre + 3)%nat)
       end
  else
    let hex :=
      if String.eqb (lower (substring 0 2 s1)) "0x"
      then scan_hex neg (substring 2 (String.length s1) s1)
      else None in
    match hex with
    | Some (v, n) => (v, (pre + 2 + n)%nat)
    | None =>
        match scan_decimal neg s1 with
        | Some (v, n) => (v, (pre + n)%nat)
        | None => (zero, 0%nat)
        end
    end.

Definition atof (s : string) : float := fst (strtod s).

(** *** [fmod] *)

Definition fmod (x y : float) : float :=
  match Prim2SF x, Prim2SF y with
  | S754_nan, _ | _, S754_nan => nan
  | S754_infinity _, _ => nan
  | _, S754_zero _ => nan
  | _, S754_infinity _ => x
  | S754_zero _, _ => x
  | S754_finite sx mx ex, S754_finite _ my ey =>
      let e := Z.min ex ey in
      let r := ((Zpos mx * 2 ^ (ex - e)) mod (Zpos my * 2 ^ (ey - e)))%Z in
      SF2Prim (binary_normalize prec emax (if sx then - r else r)%Z e sx)
  end.

(** *** [%g]: six significant digits, trailing zeros removed *)

Definition string_of_nonneg (z : Z) : string := NilZero.string_of_uint (N.to_uint (Z.to_N z)).

Fixpoint drop_zeros (s : string) : string :=
  match s with
  | String "0"%char s' => drop_zeros s'
  | _ => s
  end.

Definition string_rev (s : string) : string :=
  string_of_list_ascii (rev (list_ascii_of_string s)).

Definition strip_trailing_zeros (s : string) : string :=
  string_rev (drop_zeros (string_rev s)).

Definition with_fraction (ip frac : string) : string :=
  match strip_trailing_zeros frac with
  | EmptyString => ip
  | f => ip ++ "." ++ f
  end.

Fixpoint zeros (n : nat) : string :=
  match n with
  | O => EmptyString
  | S n' => String "0"%char (zeros n')
  end.

(** [10 ^ x <= num / den], for any sign of [x]. *)
Definition pow10_le (num den x : Z) : bool :=
  if (0 <=? x)%Z then (10 ^ x * den <=? num)%Z else (den <=? num * 10 ^ (- x))%Z.

Fixpoint decimal_exponent (fuel : nat) (num den x : Z) : Z :=
  match fuel with
  | O => x
  | S fuel' => if pow10_le num den x then x else decimal_exponent fuel' num den (x - 1)
  end.

(** The six digits of [num / den], scaled by [10 ^ (5 - x)] and rounded to
    the nearest integer, ties to even. *)
Definition six_digits (num den x : Z) : Z :=
  let n' := if (x <=? 5)%Z then (num * 10 ^ (5 - x))%Z else num in
  let d' := if (x <=? 5)%Z then den else (den * 10 ^ (x - 5))%Z in
  let q := (n' / d')%Z in
  let r := (n' mod d')%Z in
  match (2 * r ?= d')%Z with
  | Lt => q
  | Eq => if Z.even q then q else (q + 1)%Z
  | Gt => (q + 1)%Z
  end.

Definition format_g_finite (m : positive) (e : Z) : string :=
  let num := if (0 <=? e)%Z then (Zpos m * 2 ^ e)%Z else Zpos m in
  let den := if (0 <=? e)%Z then 1%Z else (2 ^ (- e))%Z in
  let x0 := decimal_exponent 700 num den 310 in
  let q0 := six_digits num den x0 in
  let x := if (q0 =? 1000000)%Z then (x0 + 1)%Z else x0 in
  let q := if (q0 =? 1000000)%Z then 100000%Z else q0 in
  let ds := string_of_nonneg q in
  if ((x <? -4) || (6 <=? x))%Z then
    with_fraction (substring 0 1 ds) (substring 1 5 ds)
      ++ "e" ++ (if (x <? 0)%Z then "-" else "+")
      ++ (if (Z.abs x <? 10)%Z then "0" else EmptyString)
      ++ string_of_nonneg (Z.abs x)
  else if (0 <=? x)%Z then
    with_fraction (substring 0 (Z.to_nat (x + 1)) ds) (substring (Z.to_nat (x + 1)) 6 ds)
  else
    with_fraction "0" (zeros (Z.to_nat (- x - 1)) ++ ds).

(** [%g].  A NaN carries no sign in a primitive float; the C library
    prints "-nan" for a NaN whose sign bit is set, so this text is the C
    library's for every number that is not a NaN. *)
Definition format_g (f : float) : string :=
  match Prim2SF f with
  | S754_nan => "nan"
  | S754_infinity s => (if s then "-" else EmptyString) ++ "inf"
  | S754_zero s => (if s then "-" else EmptyString) ++ "0"
  | S754_finite s m e => (if s then "-" else EmptyString) ++ format_g_finite m e
  end.

End Libc.

Import Libc.

(** ** Lexical tokens (both revisions; the first one has no [T_FUNCTION],
    [T_RETURN], [T_LBRACE], [T_RBRACE] and [T_COMMA]) *)

Inductive TokenType : Set :=
  | T_EOF | T_IDENTIFIER | T_NUMBER | T_STRING
  | T_SET | T_PRINT | T_READ | T_IF | T_THEN | T_END | T_WHILE | T_DO | T_TO
  | T_PLUS | T_MINUS | T_MUL | T_DIV | T_MOD
  | T_LPAREN | T_RPAREN
  | T_EQ | T_NEQ | T_GT | T_LT | T_LE | T_GE
  | T_AND
  | T_DOT
  | T_NEWLINE
  | T_FUNCTION | T_RETURN | T_LBRACE | T_RBRACE | T_COMMA
  | T_UNKNOWN.

Scheme Equality for TokenType.

(** The value of the enumerator in [easylang_version2.0.c], as [%d] prints it. *)
Definition token_code (t : TokenType) : Z :=
  match t with
  | T_EOF => 0 | T_IDENTIFIER => 1 | T_NUMBER => 2 | T_STRING => 3
  | T_SET => 4 | T_PRINT => 5 | T_READ => 6 | T_IF => 7 | T_THEN => 8
  | T_END => 9 | T_WHILE => 10 | T_DO => 11 | T_TO => 12
  | T_PLUS => 13 | T_MINUS => 14 | T_MUL => 15 | T_DIV => 16 | T_MOD => 17
  | T_LPAREN => 18 | T_RPAREN => 19
  | T_EQ => 20 | T_NEQ => 21 | T_GT => 22 | T_LT => 23 | T_LE => 24 | T_GE => 25
  | T_AND => 26 | T_DOT => 27 | T_NEWLINE => 28
  | T_FUNCTION => 29 | T_RETURN => 30 | T_LBRACE => 31 | T_RBRACE => 32
  | T_COMMA => 33 | T_UNKNOWN => 34
  end.

Record Token : Set := make_token { type : TokenType; text : option string }.

(** [line] is a C [int]; it is followed here while it stays within
    [INT_MAX]. *)
Record Lexer : Set := { src : string; pos : nat; line : Z }.

Definition INT_MAX : Z := 2147483647.

(** ** Lexer (the functions below are the same text in both revisions) *)

Definition peekc (lx : Lexer) : ascii :=
  match String.get (pos lx) (src lx) with
  | Some c => c
  | None => NUL
  end.

Definition getc_l (lx : Lexer) : ascii * Lexer :=
  let c := peekc lx in
  (c, {| src := src lx;
         pos := if Ascii.eqb c NUL then pos lx else S (pos lx);
         line := if Ascii.eqb c LF then (line lx + 1)%Z else line lx |}).

(** Characters left before the terminating NUL can be read. *)
Definition remaining (lx : Lexer) : nat := String.length (src lx) - pos lx.

Definition substr_alloc (s : string) (a b : nat) : string := substring a (b - a) s.

(** [while (peekc(lx) != '\0' && getc_l(lx) != '\n') {}] *)
Fixpoint skip_comment_loop (fuel : nat) (lx : Lexer) : option Lexer :=
  match fuel with
  | O => None
  | S fuel' =>
      if Ascii.eqb (peekc lx) NUL then Some lx
      else
        let r := getc_l lx in
        if Ascii.eqb (fst r) LF then Some (snd r) else skip_comment_loop fuel' (snd r)
  end.

Definition skip_comment (lx : Lexer) : option Lexer :=
  skip_comment_loop (S (remaining lx)) lx.

Fixpoint lex_string_loop (fuel : nat) (lx : Lexer) : option Lexer :=
  match fuel with
  | O => None
  | S fuel' =>
      let c := peekc lx in
      if negb (Ascii.eqb c NUL) && negb (Ascii.eqb c DQUOTE) then
        if Ascii.eqb c BACKSLASH then
          let lx1 := snd (getc_l lx) in
          let lx2 := if negb (Ascii.eqb (peekc lx1) NUL) then snd (getc_l lx1) else lx1 in
          lex_string_loop fuel' lx2
        else lex_string_loop fuel' (snd (getc_l lx))
      else Some lx
  end.

Definition lex_string (lx : Lexer) : option (Token * Lexer) :=
  let lx0 := snd (getc_l lx) in
  let start := pos lx0 in
  match lex_string_loop (S (remaining lx0)) lx0 with
  | None => None
  | Some lx1 =>
      let end_ := pos lx1 in
      let lx2 := if Ascii.eqb (peekc lx1) DQUOTE then snd (getc_l lx1) else lx1 in
      Some (make_token T_STRING (Some (substr_alloc (src lx) start end_)), lx2)
  end.

Fixpoint ident_loop (fuel : nat) (lx : Lexer) : option Lexer :=
  match fuel with
  | O => None
  | S fuel' =>
      let c := peekc lx in
      if isalnum c || Ascii.eqb c "_" then ident_loop fuel' (snd (getc_l lx))
      else if Ascii.eqb c "." then ident_loop fuel' (snd (getc_l lx))
      else Some lx
  end.

(** The scan that decides between a number and an identifier: [numeric]
    and [dots] are the two C locals. *)
Fixpoint numeric_scan (s : string) (numeric : bool) (dots : nat) : bool :=
  match s with
  | EmptyString => numeric
  | String c s' =>
      if Ascii.eqb c "." then
        numeric_scan s' (if (1 <? S dots)%nat then false else numeric) (S dots)
      else
        numeric_scan s' (if negb (isdigit c) && negb (Ascii.eqb c ".") then false else numeric) dots
  end.

Definition lex_ident_or_number (lx : Lexer) : option (Token * Lexer) :=
  let start := pos lx in
  match ident_loop (S (remaining lx)) lx with
  | None => None
  | Some lx1 =>
      let s := substr_alloc (src lx) start (pos lx1) in
      if numeric_scan s true 0 then Some (make_token T_NUMBER (Some s), lx1)
      else Some (make_token T_IDENTIFIER (Some (lower s)), lx1)
  end.

(** The first loop of [next_token]: blanks and comments are skipped; a line
    break returns its token from inside the loop. *)
Fixpoint skip_blanks (fuel : nat) (lx : Lexer) : option (option Token * Lexer) :=
  match fuel with
  | O => None
  | S fuel' =>
      let c := peekc lx in
      if Ascii.eqb c NUL then Some (None, lx)
      else if Ascii.eqb c " " || Ascii.eqb c TAB then skip_blanks fuel' (snd (getc_l lx))
      else if Ascii.eqb c CR then
        let lx1 := snd (getc_l lx) in
        let lx2 := if Ascii.eqb (peekc lx1) LF then snd (getc_l lx1) else lx1 in
        Some (Some (make_token T_NEWLINE None), lx2)
      else if Ascii.eqb c LF then
        Some (Some (make_token T_NEWLINE None), snd (getc_l lx))
      else if Ascii.eqb c "#" then
        match skip_comment lx with
        | None => None
        | Some lx' => skip_blanks fuel' lx'
        end
      else Some (None, lx)
  end.

Definition keyword (s : string) : option TokenType :=
  if String.eqb s "set" then Some T_SET
  else if String.eqb s "print" then Some T_PRINT
  else if String.eqb s "read" then Some T_READ
  else if String.eqb s "if" then Some T_IF
  else if String.eqb s "then" then Some T_THEN
  else if String.eqb s "end" then Some T_END
  else if String.eqb s "while" then Some T_WHILE
  else if String.eqb s "do" then Some T_DO
  else if String.eqb s "to" then Some T_TO
  else if String.eqb s "and" then Some T_AND
  else if String.eqb s "function" then Some T_FUNCTION
  else if String.eqb s "return" then Some T_RETURN
  else None.

(** One character, or two when [=] follows. *)
Definition lex_relop (lx : Lexer) (two one : TokenType) : option (Token * Lexer) :=
  let lx1 := snd (getc_l lx) in
  if Ascii.eqb (peekc lx1) "=" then Some (make_token two None, snd (getc_l lx1))
  else Some (make_token one None, lx1).

(** [=] or [!]: two characters when [=] follows, else [T_UNKNOWN] after
    [lx->pos--; getc_l(lx);]. *)
Definition lex_eqop (lx : Lexer) (two : TokenType) : option (Token * Lexer) :=
  let lx1 := snd (getc_l lx) in
  if Ascii.eqb (peekc lx1) "=" then Some (make_token two None, snd (getc_l lx1))
  else
    let lx2 := {| src := src lx1; pos := pos lx1 - 1; line := line lx1 |} in
    Some (make_token T_UNKNOWN None, snd (getc_l lx2)).

Definition single (lx : Lexer) (t : TokenType) : option (Token * Lexer) :=
  Some (make_token t None, snd (getc_l lx)).

(** The dispatch of [next_token] in [easylang_version2.0.c], after the
    first loop. *)
Definition next_token_at (lx : Lexer) : option (Token * Lexer) :=
  let c := peekc lx in
  if Ascii.eqb c NUL then Some (make_token T_EOF None, lx)
  else if Ascii.eqb c DQUOTE then lex_string lx
  else if isalpha c || Ascii.eqb c "_" then
    match lex_ident_or_number lx with
    | None => None
    | Some (t, lx') =>
        match type t, text t with
        | T_IDENTIFIER, Some s =>
            match keyword s with
            | Some k => Some (make_token k None, lx')
            | None => Some (t, lx')
            end
        | _, _ => Some (t, lx')
        end
    end
  else if isdigit c || Ascii.eqb c "." then lex_ident_or_number lx
  else if Ascii.eqb c "." then single lx T_DOT
  else if Ascii.eqb c "(" then single lx T_LPAREN
  else if Ascii.eqb c ")" then single lx T_RPAREN
  else if Ascii.eqb c "{" then single lx T_LBRACE
  else if Ascii.eqb c "}" then single lx T_RBRACE
  else if Ascii.eqb c "," then single lx T_COMMA
  else if Ascii.eqb c "+" then single lx T_PLUS
  else if Ascii.eqb c "-" then single lx T_MINUS
  else if Ascii.eqb c "*" then single lx T_MUL
  else if Ascii.eqb c "/" then single lx T_DIV
  else if Ascii.eqb c "%" then single lx T_MOD
  else if Ascii.eqb c "<" then lex_relop lx T_LE T_LT
  else if Ascii.eqb c ">" then lex_relop lx T_GE T_GT
  else if Ascii.eqb c "=" then lex_eqop lx T_EQ
  else if Ascii.eqb c "!" then lex_eqop lx T_NEQ
  else single lx T_UNKNOWN.

Definition next_token (lx : Lexer) : option (Token * Lexer) :=
  match skip_blanks (S (remaining lx)) lx with
  | None => None
  | Some (Some tk, lx') => Some (tk, lx')
  | Some (None, lx') => next_token_at lx'
  end.

Definition lexer_init (s : string) : Lexer := {| src := s; pos := 0; line := 1 |}.

(** The token stream: [next_token] called until it answers [T_EOF]. *)
Fixpoint tokenize (fuel : nat) (lx : Lexer) : option (list Token) :=
  match fuel with
  | O => None
  | S fuel' =>
      match next_token lx with
      | None => None
      | Some (tk, lx') =>
          match type tk with
          | T_EOF => Some [tk]
          | _ =>
              match tokenize fuel' lx' with
              | None => None
              | Some tks => Some (tk :: tks)
              end
          end
      end
  end.


(** ** Abstract syntax

    One C [Node] type serves statements and expressions; the parser only
    ever builds an expression where an expression is read and a statement
    where a statement is read, so the embedding has one type for each.  The
    operator of a binary node is the token type that C stores in
    [n->number]. *)

#[local] Set Warnings "-register-all".

Inductive expr : Type :=
  | N_EXPR_NUMBER (number : float)
  | N_EXPR_STRING (str : string)
  | N_EXPR_VAR (name : string)
  | N_EXPR_BINARY (op : TokenType) (left right : expr)
  | N_EXPR_CALL (name : string) (args : list expr).

Inductive stmt : Type :=
  | N_STMT_LIST (body : list stmt)
  | N_STMT_SET (name : string) (body : expr)
  | N_STMT_PRINT (body : expr)
  | N_STMT_READ (name : string)
  | N_STMT_IF (cond : expr) (body : stmt) (else_body : option stmt)
  | N_STMT_WHILE (cond : expr) (body : stmt)
  | N_STMT_FUNCDEF (name : string) (params : list string) (body : stmt)
  | N_STMT_RETURN (body : option expr).

(** ** Parser of [easylang_version2.0.c] *)

Record Parser : Set := { lx : Lexer; cur : Token }.

Inductive PResult (A : Type) : Type :=
  | POk (a : A) (p : Parser)
  | PExit1 (stderr : string)
  | PUndefined
  | POutOfFuel.

Arguments POk {A} a p.
Arguments PExit1 {A} stderr.
Arguments PUndefined {A}.
Arguments POutOfFuel {A}.

Definition pbind {A B : Type} (m : PResult A) (k : A -> Parser -> PResult B) : PResult B :=
  match m with
  | POk a p => k a p
  | PExit1 e => PExit1 e
  | PUndefined => PUndefined
  | POutOfFuel => POutOfFuel
  end.

Notation "'let*' ( x , p ) := m 'in' k" := (pbind m (fun x p => k))
  (at level 10, x name, p name, m at level 100, k at level 200, only parsing).

Definition peek_token (p : Parser) : Token := cur p.

Definition advance (p : Parser) : PResult unit :=
  match next_token (lx p) with
  | Some (tk, lx') => POk tt {| lx := lx'; cur := tk |}
  | None => POutOfFuel
  end.

Definition is_type (p : Parser) (t : TokenType) : bool :=
  TokenType_beq (type (peek_token p)) t.

Definition line_of (p : Parser) : string := string_of_Z (line (lx p)).

Definition expect (p : Parser) (t : TokenType) (msg : string) : PResult unit :=
  if is_type p t then advance p
  else PExit1 ("Parse error at line " ++ line_of p ++ ": expected " ++ msg
               ++ " but found token " ++ string_of_Z (token_code (type (peek_token p))) ++ nl).

(** [t.type == T_IDENTIFIER && t.text && strcmp(t.text, "else") == 0] *)
Definition is_else (t : Token) : bool :=
  match type t, text t with
  | T_IDENTIFIER, Some s => String.eqb s "else"
  | _, _ => false
  end.

Definition expect_stmt_terminator (p : Parser) : PResult unit :=
  let t := peek_token p in
  match type t with
  | T_DOT | T_NEWLINE => advance p
  | T_SET | T_PRINT | T_READ | T_IF | T_WHILE | T_END | T_EOF | T_FUNCTION
  | T_RETURN | T_RBRACE => POk tt p
  | _ =>
      if is_else t then POk tt p
      else PExit1 ("Parse error at line " ++ line_of p
                   ++ ": expected '.' or newline but found token "
                   ++ string_of_Z (token_code (type t)) ++ " ('"
                   ++ match text t with Some s => s | None => EmptyString end
                   ++ "')" ++ nl)
  end.

(** [strdup(peek_token(p).text)]: a token without text has a null pointer. *)
Definition strdup_text (p : Parser) : PResult string :=
  match text (peek_token p) with
  | Some s => POk s p
  | None => PUndefined
  end.

(** [while (peek_token(p).type == T_NEWLINE) advance(p);] *)
Fixpoint skip_newlines (fuel : nat) (p : Parser) : PResult unit :=
  match fuel with
  | O => POutOfFuel
  | S fuel' =>
      if is_type p T_NEWLINE then let* (_, p) := advance p in skip_newlines fuel' p
      else POk tt p
  end.

(** The parameter names after the first one.  The array has 16 slots and
    the C code does not count them: a write past the last slot is
    [PUndefined]. *)
Fixpoint parse_params_loop (fuel : nat) (params : list string) (p : Parser)
  : PResult (list string) :=
  match fuel with
  | O => POutOfFuel
  | S fuel' =>
      if is_type p T_COMMA then
        let* (_, p) := advance p in
        if negb (is_type p T_IDENTIFIER) then
          PExit1 ("Parse error at line " ++ line_of p ++ ": expected parameter name" ++ nl)
        else
          let* (s, p) := strdup_text p in
          if (16 <=? List.length params)%nat then PUndefined
          else
            let* (_, p) := advance p in
            parse_params_loop fuel' (params ++ [s])%list p
      else POk params p
  end.

Definition binary (op : TokenType) (l r : expr) : expr := N_EXPR_BINARY op l r.

Fixpoint parse_factor (fuel : nat) (p : Parser) {struct fuel} : PResult expr :=
  match fuel with
  | O => POutOfFuel
  | S fuel' =>
      let tk := peek_token p in
      match type tk with
      | T_NUMBER =>
          let* (s, p) := strdup_text p in
          let* (_, p) := advance p in
          POk (N_EXPR_NUMBER (atof s)) p
      | T_STRING =>
          let* (s, p) := strdup_text p in
          let* (_, p) := advance p in
          POk (N_EXPR_STRING s) p
      | T_IDENTIFIER =>
          let* (name, p) := strdup_text p in
          let* (_, p) := advance p in
          if is_type p T_LPAREN then
            let* (_, p) := advance p in
            let* (args, p) :=
              (if negb (is_type p T_RPAREN) then
                 let* (a, p) := parse_expression fuel' p in
                 parse_args_loop fuel' [a] p
               else POk [] p) in
            let* (_, p) := expect p T_RPAREN ")" in
            POk (N_EXPR_CALL name args) p
          else POk (N_EXPR_VAR name) p
      | T_LPAREN =>
          let* (_, p) := advance p in
          let* (n, p) := parse_expression fuel' p in
          let* (_, p) := expect p T_RPAREN ")" in
          POk n p
      | T_MINUS =>
          let* (_, p) := advance p in
          let* (right, p) := parse_factor fuel' p in
          POk (binary T_MINUS (N_EXPR_NUMBER 0) right) p
      | _ => PExit1 ("Parse error at line " ++ line_of p ++ ": unexpected token in factor" ++ nl)
      end
  end

with parse_args_loop (fuel : nat) (args : list expr) (p : Parser) {struct fuel}
  : PResult (list expr) :=
  match fuel with
  | O => POutOfFuel
  | S fuel' =>
      if is_type p T_COMMA then
        let* (_, p) := advance p in
        let* (a, p) := parse_expression fuel' p in
        if (16 <=? List.length args)%nat then PUndefined
        else parse_args_loop fuel' (args ++ [a])%list p
      else POk args p
  end

with parse_term_loop (fuel : nat) (left : expr) (p : Parser) {struct fuel} : PResult expr :=
  match fuel with
  | O => POutOfFuel
  | S fuel' =>
      let tk := peek_token p in
      match type tk with
      | T_MUL | T_DIV | T_MOD =>
          let* (_, p) := advance p in
          let* (right, p) := parse_factor fuel' p in
          parse_term_loop fuel' (binary (type tk) left right) p
      | _ => POk left p
      end
  end

with parse_term (fuel : nat) (p : Parser) {struct fuel} : PResult expr :=
  match fuel with
  | O => POutOfFuel
  | S fuel' =>
      let* (left, p) := parse_factor fuel' p in
      parse_term_loop fuel' left p
  end

with parse_expression_loop (fuel : nat) (left : expr) (p : Parser) {struct fuel}
  : PResult expr :=
  match fuel with
  | O => POutOfFuel
  | S fuel' =>
      let tk := peek_token p in
      match type tk with
      | T_PLUS | T_MINUS =>
          let* (_, p) := advance p in
          let* (right, p) := parse_term fuel' p in
          parse_expression_loop fuel' (binary (type tk) left right) p
      | _ => POk left p
      end
  end

with parse_expression (fuel : nat) (p : Parser) {struct fuel} : PResult expr :=
  match fuel with
  | O => POutOfFuel
  | S fuel' =>
      let* (left, p) := parse_term fuel' p in
      parse_expression_loop fuel' left p
  end.

Fixpoint parse_compare_loop (fuel : nat) (node : expr) (p : Parser) {struct fuel}
  : PResult expr :=
  match fuel with
  | O => POutOfFuel
  | S fuel' =>
      if is_type p T_AND then
        let* (_, p) := advance p in
        let* (right, p) := parse_compare fuel' p in
        parse_compare_loop fuel' (binary T_AND node right) p
      else POk node p
  end

with parse_compare (fuel : nat) (p : Parser) {struct fuel} : PResult expr :=
  match fuel with
  | O => POutOfFuel
  | S fuel' =>
      let* (node, p) := parse_expression fuel' p in
      let tk := peek_token p in
      let* (node, p) :=
        match type tk with
        | T_LT | T_LE | T_GT | T_GE | T_EQ | T_NEQ =>
            let* (_, p) := advance p in
            let* (right, p) := parse_expression fuel' p in
            POk (binary (type tk) node right) p
        | _ => POk node p
        end in
      parse_compare_loop fuel' node p
  end.

(** The test that ends a statement list before a statement is read. *)
Definition ends_statements (t : Token) : bool :=
  match type t with
  | T_EOF | T_END | T_THEN | T_DO | T_RBRACE => true
  | _ => is_else t
  end.

Definition parse_return_stmt (fuel : nat) (p : Parser) : PResult stmt :=
  let* (_, p) := advance p in
  let* (e, p) :=
    match type (peek_token p) with
    | T_DOT | T_NEWLINE | T_RBRACE => POk None p
    | _ => let* (e, p) := parse_expression fuel p in POk (Some e) p
    end in
  let* (_, p) := expect_stmt_terminator p in
  POk (N_STMT_RETURN e) p.

Fixpoint parse_statements_loop (fuel : nat) (acc : list stmt) (p : Parser) {struct fuel}
  : PResult stmt :=
  match fuel with
  | O => POutOfFuel
  | S fuel' =>
      if ends_statements (peek_token p) then POk (N_STMT_LIST acc) p
      else
        let* (_, p) := skip_newlines fuel' p in
        let* (s, p) := parse_statement fuel' p in
        match s with
        | None => POk (N_STMT_LIST acc) p
        | Some s => parse_statements_loop fuel' (acc ++ [s])%list p
        end
  end

with parse_statements (fuel : nat) (p : Parser) {struct fuel} : PResult stmt :=
  match fuel with
  | O => POutOfFuel
  | S fuel' => parse_statements_loop fuel' [] p
  end

with parse_func_def (fuel : nat) (p : Parser) {struct fuel} : PResult stmt :=
  match fuel with
  | O => POutOfFuel
  | S fuel' =>
      let* (_, p) := advance p in
      if negb (is_type p T_IDENTIFIER) then
        PExit1 ("Parse error at line " ++ line_of p
                ++ ": expected identifier after 'function'" ++ nl)
      else
        let* (name, p) := strdup_text p in
        let* (_, p) := advance p in
        let* (_, p) := expect p T_LPAREN "(" in
        let* (params, p) :=
          (if negb (is_type p T_RPAREN) then
             let* (s, p) := strdup_text p in
             let* (_, p) := advance p in
             parse_params_loop fuel' [s] p
           else POk [] p) in
        let* (_, p) := expect p T_RPAREN ")" in
        let* (_, p) := expect p T_LBRACE "{" in
        let* (body, p) := parse_statements fuel' p in
        let* (_, p) := expect p T_RBRACE "}" in
        POk (N_STMT_FUNCDEF name params body) p
  end

with parse_statement (fuel : nat) (p : Parser) {struct fuel} : PResult (option stmt) :=
  match fuel with
  | O => POutOfFuel
  | S fuel' =>
      let* (_, p) := skip_newlines fuel' p in
      let tk := peek_token p in
      match type tk with
      | T_SET =>
          let* (_, p) := advance p in
          if negb (is_type p T_IDENTIFIER) then
            PExit1 ("Parse error at line " ++ line_of p
                    ++ ": expected identifier after 'set'" ++ nl)
          else
            let* (name, p) := strdup_text p in
            let* (_, p) := advance p in
            let* (_, p) := expect p T_TO "to" in
            let* (e, p) := parse_expression fuel' p in
            let* (_, p) := expect_stmt_terminator p in
            POk (Some (N_STMT_SET name e)) p
      | T_PRINT =>
          let* (_, p) := advance p in
          let* (e, p) := parse_expression fuel' p in
          let* (_, p) := expect_stmt_terminator p in
          POk (Some (N_STMT_PRINT e)) p
      | T_READ =>
          let* (_, p) := advance p in
          if negb (is_type p T_IDENTIFIER) then
            PExit1 ("Parse error at line " ++ line_of p
                    ++ ": expected identifier after 'read'" ++ nl)
          else
            let* (name, p) := strdup_text p in
            let* (_, p) := advance p in
            let* (_, p) := expect_stmt_terminator p in
            POk (Some (N_STMT_READ name)) p
      | T_IF =>
          let* (_, p) := advance p in
          let* (cond, p) := parse_compare fuel' p in
          let* (_, p) := expect p T_THEN "then" in
          let* (stmts, p) := parse_statements fuel' p in
          let* (else_body, p) :=
            (if is_else (peek_token p) then
               let* (_, p) := advance p in
               let* (b, p) := parse_statements fuel' p in
               POk (Some b) p
             else POk None p) in
          let* (_, p) := expect p T_END "'end' to close if" in
          let* (_, p) := expect_stmt_terminator p in
          POk (Some (N_STMT_IF cond stmts else_body)) p
      | T_WHILE =>
          let* (_, p) := advance p in
          let* (cond, p) := parse_compare fuel' p in
          let* (_, p) := expect p T_DO "do" in
          let* (stmts, p) := parse_statements fuel' p in
          let* (_, p) := expect p T_END "'end' to close while" in
          let* (_, p) := expect_stmt_terminator p in
          POk (Some (N_STMT_WHILE cond stmts)) p
      | T_FUNCTION =>
          let* (s, p) := parse_func_def fuel' p in
          POk (Some s) p
      | T_RETURN =>
          let* (s, p) := parse_return_stmt fuel' p in
          POk (Some s) p
      | T_DOT =>
          let* (_, p) := advance p in
          POk None p
      | T_EOF => POk None p
      | _ =>
          let* (e, p) := parse_expression fuel' p in
          let* (_, p) := expect_stmt_terminator p in
          POk (Some (N_STMT_PRINT e)) p
      end
  end.

(** ** Values *)

Inductive Value : Type :=
  | VAL_NUM (num : float)
  | VAL_STR (str : string)
  | VAL_NONE.

(** The [num] member: it is [0] in every value that is not a number. *)
Definition num_of (v : Value) : float :=
  match v with
  | VAL_NUM x => x
  | _ => 0%float
  end.

Definition is_str (v : Value) : bool :=
  match v with VAL_STR _ => true | _ => false end.

Definition is_num (v : Value) : bool :=
  match v with VAL_NUM _ => true | _ => false end.

(** [value_dup] copies the string of a value; with strings held by value
    it is the identity.  See the conventions at the head of the file for
    what the embedding does not follow of the lifetime of C strings. *)
Definition value_dup (v : Value) : Value := v.

(** ** Symbol table and functions *)

Record FuncDef : Type := { name : string; params : list string; body : stmt }.

Definition param_count (f : FuncDef) : nat := List.length (params f).

(** The variables of a scope, the most recently created first. *)
Definition Scope : Type := list (string * Value).

(** [scopes] is the chain that starts at [current_scope] and follows
    [parent]; [current_scope] is null when the chain is empty. *)
Record State : Type := {
  scopes : list Scope;
  func_table : list FuncDef;
  stdout : string;
  stdin : string
}.

Definition with_scopes (st : State) (ss : list Scope) : State :=
  {| scopes := ss; func_table := func_table st; stdout := stdout st; stdin := stdin st |}.

(** [global_scope] is the first scope ever pushed, the last of the chain. *)
Definition global_scope (st : State) : Scope := List.last (scopes st) [].

Definition push_scope (st : State) : State := with_scopes st ([] :: scopes st).

Definition pop_scope (st : State) : State :=
  match scopes st with
  | [] => st
  | _ :: parent => with_scopes st parent
  end.

Fixpoint find_var (name : string) (vars : Scope) : option Value :=
  match vars with
  | [] => None
  | (n, v) :: vars' => if String.eqb n name then Some v else find_var name vars'
  end.

Fixpoint find_in_chain (name : string) (ss : list Scope) : option Value :=
  match ss with
  | [] => None
  | s :: parent =>
      match find_var name s with
      | Some v => Some v
      | None => find_in_chain name parent
      end
  end.

Definition var_get (name : string) (st : State) : option Value :=
  match find_in_chain name (scopes st) with
  | Some v => Some v
  | None =>
      (* current_scope && current_scope != global_scope *)
      if (1 <? List.length (scopes st))%nat then find_var name (global_scope st) else None
  end.

Fixpoint overwrite (name : string) (val : Value) (vars : Scope) : Scope :=
  match vars with
  | [] => []
  | (n, v) :: vars' =>
      if String.eqb n name then (n, val) :: vars' else (n, v) :: overwrite name val vars'
  end.

Definition set_in_scope (name : string) (val : Value) (vars : Scope) : Scope :=
  match find_var name vars with
  | Some _ => overwrite name val vars
  | None => (name, val) :: vars
  end.

(** [var_set] writes the current scope only.  Without a current scope the C
    code goes through [global_scope], which then points to no live scope:
    [None]. *)
Definition var_set (name : string) (val : Value) (st : State) : option State :=
  match scopes st with
  | [] => None
  | current :: parent => Some (with_scopes st (set_in_scope name val current :: parent))
  end.

Fixpoint find_func (nm : string) (fs : list FuncDef) : option FuncDef :=
  match fs with
  | [] => None
  | f :: fs' => if String.eqb (name f) nm then Some f else find_func nm fs'
  end.

Definition func_get (nm : string) (st : State) : option FuncDef :=
  find_func nm (func_table st).

(** ** Evaluation *)

Inductive Result (A : Type) : Type :=
  | Ok (a : A) (st : State)
  | Exit1 (stderr : string) (st : State)
  | Undefined (st : State)
  | OutOfFuel.

Arguments Ok {A} a st.
Arguments Exit1 {A} stderr st.
Arguments Undefined {A} st.
Arguments OutOfFuel {A}.

Definition bind {A B : Type} (m : Result A) (k : A -> State -> Result B) : Result B :=
  match m with
  | Ok a st => k a st
  | Exit1 e st => Exit1 e st
  | Undefined st => Undefined st
  | OutOfFuel => OutOfFuel
  end.

Notation "'do*' ( x , st ) := m 'in' k" := (bind m (fun x st => k))
  (at level 10, x name, st name, m at level 100, k at level 200, only parsing).

Definition func_set (nm : string) (ps : list string) (b : stmt) (st : State) : Result unit :=
  match func_get nm st with
  | Some _ => Exit1 ("Error: Function " ++ nm ++ " already defined" ++ nl) st
  | None =>
      Ok tt {| scopes := scopes st;
               func_table := (func_table st ++ [{| name := nm; params := ps; body := b |}])%list;
               stdout := stdout st;
               stdin := stdin st |}
  end.

Definition do_var_set (nm : string) (v : Value) (st : State) : Result unit :=
  match var_set nm v st with
  | Some st' => Ok tt st'
  | None => Undefined st
  end.

Definition print (s : string) (st : State) : State :=
  {| scopes := scopes st; func_table := func_table st;
     stdout := stdout st ++ s; stdin := stdin st |}.

(** [printf("%g\n", v.num)] for a number, [printf("%s\n", v.str)] for a
    string, nothing for [VAL_NONE]. *)
Definition print_value (v : Value) (st : State) : State :=
  match v with
  | VAL_NUM x => print (format_g x ++ nl) st
  | VAL_STR s => print (s ++ nl) st
  | VAL_NONE => st
  end.

(** The early-exit signal of a call frame: the two out-parameters of
    [eval_stmt]. *)
Record Signal : Type := { returned : bool; return_val : Value }.

Definition no_signal : Signal := {| returned := false; return_val := VAL_NONE |}.

Definition bool_num (b : bool) : Value := VAL_NUM (if b then 1 else 0)%float.

(** The operator switch of [N_EXPR_BINARY], both operands being numbers. *)
Definition arith (op : TokenType) (l r : float) (st : State) : Result Value :=
  match op with
  | T_PLUS => Ok (VAL_NUM (l + r)) st
  | T_MINUS => Ok (VAL_NUM (l - r)) st
  | T_MUL => Ok (VAL_NUM (l * r)) st
  | T_DIV =>
      if (r =? 0)%float then Exit1 ("Error: Division by zero" ++ nl) st
      else Ok (VAL_NUM (l / r)) st
  | T_MOD => Ok (VAL_NUM (fmod l r)) st
  | T_EQ => Ok (bool_num (l =? r)%float) st
  | T_NEQ => Ok (bool_num (negb (l =? r)%float)) st
  | T_GT => Ok (bool_num (r <? l)%float) st
  | T_LT => Ok (bool_num (l <? r)%float) st
  | T_LE => Ok (bool_num (l <=? r)%float) st
  | T_GE => Ok (bool_num (r <=? l)%float) st
  | T_AND => Ok (bool_num (negb (l =? 0)%float && negb (r =? 0)%float)) st
  | _ => Ok VAL_NONE st
  end.

(** The text of an operand of a concatenation. *)
Definition operand_text (v : Value) : string :=
  match v with
  | VAL_STR s => s
  | _ => format_g (num_of v)
  end.

Definition eval_binary (op : TokenType) (l r : Value) (st : State) : Result Value :=
  if TokenType_beq op T_PLUS && (is_str l || is_str r) then
    Ok (VAL_STR (operand_text l ++ operand_text r)) st
  else if negb (is_num l) || negb (is_num r) then
    Exit1 ("Error: Numeric operation on non-numeric types" ++ nl) st
  else arith op (num_of l) (num_of r) st.

(** [for (i...) arg_values[i] = eval_expr(n->args[i]);] *)
Fixpoint eval_args (ev : expr -> State -> Result Value) (args : list expr) (st : State)
  : Result (list Value) :=
  match args with
  | [] => Ok [] st
  | a :: args' =>
      do* (v, st) := ev a st in
      do* (vs, st) := eval_args ev args' st in
      Ok (v :: vs) st
  end.

(** [for (i...) { var_set(f->params[i], arg_values[i]);
    value_free(&arg_values[i]); }]: the value stored is the one freed, so
    the binding of a string does not outlive the loop in the C program;
    the embedding is exact for values that are not strings. *)
Fixpoint bind_params (ps : list string) (vs : list Value) (st : State) : Result unit :=
  match ps, vs with
  | p :: ps', v :: vs' =>
      do* (_, st) := do_var_set p v st in
      bind_params ps' vs' st
  | _, _ => Ok tt st
  end.

(** The loop of [N_STMT_LIST]. *)
Fixpoint eval_list (ev : stmt -> Signal -> State -> Result (Value * Signal))
                   (c : list stmt) (last_result : Value) (sg : Signal) (st : State)
  : Result (Value * Signal) :=
  match c with
  | [] => Ok (last_result, sg) st
  | s :: c' =>
      do* (r, st) := ev s sg st in
      if returned (snd r) then Ok (value_dup (return_val (snd r)), snd r) st
      else eval_list ev c' (fst r) (snd r) st
  end.

(** [fgets(buf, 256, stdin)]: at most [n] characters, a line feed ends the
    read and is kept. *)
Fixpoint fgets (n : nat) (s : string) : string * string :=
  match n, s with
  | S n', String c s' =>
      if Ascii.eqb c LF then (String c EmptyString, s')
      else let (l, rest) := fgets n' s' in (String c l, rest)
  | _, _ => (EmptyString, s)
  end.

(** The C string in [buf] after [buf[strcspn(buf, "\n")] = 0]. *)
Fixpoint chomp (s : string) : string :=
  match s with
  | String c s' =>
      if Ascii.eqb c LF || Ascii.eqb c NUL then EmptyString else String c (chomp s')
  | EmptyString => EmptyString
  end.

Definition eval_read (nm : string) (st : State) : Result Value :=
  match stdin st with
  | EmptyString => Exit1 ("Input error" ++ nl) st
  | _ =>
      let (got, rest) := fgets 255 (stdin st) in
      let st := {| scopes := scopes st; func_table := func_table st;
                   stdout := stdout st; stdin := rest |} in
      let buf := chomp got in
      let (val, endptr) := strtod buf in
      if (endptr =? 0)%nat || (endptr <? String.length buf)%nat then
        do* (_, st) := do_var_set nm (VAL_STR buf) st in
        Ok (VAL_STR buf) st
      else
        do* (_, st) := do_var_set nm (VAL_NUM val) st in
        Ok (VAL_NUM val) st
  end.

(** [eval_stmt], [eval_while] (the loop of [N_STMT_WHILE]) and [eval_expr].
    The value of [N_STMT_SET] is the value that was stored: in the C program
    it is the same string as the one now in the scope, which the statement
    list that runs the statement frees (lines 683 and 697), so the
    embedding is exact there for values that are not strings. *)
Fixpoint eval_stmt (fuel : nat) (n : stmt) (sg : Signal) (st : State) {struct fuel}
  : Result (Value * Signal) :=
  match fuel with
  | O => OutOfFuel
  | S fuel' =>
      if returned sg then Ok (value_dup (return_val sg), sg) st
      else
        match n with
        | N_STMT_LIST c => eval_list (eval_stmt fuel') c VAL_NONE sg st
        | N_STMT_SET nm e =>
            do* (v, st) := eval_expr fuel' e st in
            do* (_, st) := do_var_set nm v st in
            Ok (v, sg) st
        | N_STMT_PRINT e =>
            do* (v, st) := eval_expr fuel' e st in
            Ok (VAL_NONE, sg) (print_value v st)
        | N_STMT_READ nm =>
            do* (v, st) := eval_read nm st in
            Ok (v, sg) st
        | N_STMT_IF cond b else_body =>
            do* (condv, st) := eval_expr fuel' cond st in
            match condv with
            | VAL_NUM c =>
                if negb (c =? 0)%float then eval_stmt fuel' b sg st
                else
                  match else_body with
                  | Some eb => eval_stmt fuel' eb sg st
                  | None => Ok (VAL_NONE, sg) st
                  end
            | _ => Exit1 ("Error: Condition must be numeric" ++ nl) st
            end
        | N_STMT_WHILE cond b => eval_while fuel' cond b VAL_NONE sg st
        | N_STMT_FUNCDEF nm ps b =>
            do* (_, st) := func_set nm ps b st in
            Ok (VAL_NONE, sg) st
        | N_STMT_RETURN e =>
            do* (ret_val, st) :=
              match e with
              | Some e => eval_expr fuel' e st
              | None => Ok (VAL_NUM 0) st
              end in
            Ok (value_dup ret_val, {| returned := true; return_val := value_dup ret_val |}) st
        end
  end

with eval_while (fuel : nat) (cond : expr) (b : stmt) (res : Value) (sg : Signal)
                (st : State) {struct fuel} : Result (Value * Signal) :=
  match fuel with
  | O => OutOfFuel
  | S fuel' =>
      do* (condv, st) := eval_expr fuel' cond st in
      if negb (is_num condv) || (num_of condv =? 0)%float || returned sg then Ok (res, sg) st
      else
        do* (r, st) := eval_stmt fuel' b sg st in
        if returned (snd r) then Ok (value_dup (return_val (snd r)), snd r) st
        else eval_while fuel' cond b (fst r) (snd r) st
  end

with eval_expr (fuel : nat) (n : expr) (st : State) {struct fuel} : Result Value :=
  match fuel with
  | O => OutOfFuel
  | S fuel' =>
      match n with
      | N_EXPR_NUMBER x => Ok (VAL_NUM x) st
      | N_EXPR_STRING s => Ok (VAL_STR s) st
      | N_EXPR_VAR nm =>
          match var_get nm st with
          | None => Exit1 ("Error: Undefined variable " ++ nm ++ nl) st
          | Some v => Ok (value_dup v) st
          end
      | N_EXPR_CALL nm args =>
          match func_get nm st with
          | None => Exit1 ("Error: Undefined function " ++ nm ++ nl) st
          | Some f =>
              if negb (param_count f =? List.length args)%nat then
                Exit1 ("Error: Function " ++ nm ++ " expects "
                       ++ string_of_Z (Z.of_nat (param_count f)) ++ " args, got "
                       ++ string_of_Z (Z.of_nat (List.length args)) ++ nl) st
              else
                do* (arg_values, st) := eval_args (eval_expr fuel') args st in
                let st := push_scope st in
                do* (_, st) := bind_params (params f) arg_values st in
                do* (r, st) := eval_stmt fuel' (body f) no_signal st in
                let st := pop_scope st in
                if returned (snd r) then Ok (value_dup (return_val (snd r))) st
                else Ok (fst r) st
          end
      | N_EXPR_BINARY op l r =>
          do* (lv, st) := eval_expr fuel' l st in
          do* (rv, st) := eval_expr fuel' r st in
          eval_binary op lv rv st
      end
  end.

(** ** [main]: the source text and the standard input to the exit status
    and the two output streams

    [main] here ends where the evaluation ends.  The cleanup that follows
    in the C program (lines 943-948) is not part of it; it is harmless when
    the program has defined no function and set no string. *)

Inductive Run : Type :=
  | Finished (exit_code : Z) (out err : string)
  | RunUndefined
  | RunOutOfFuel.

Definition initial_state (input : string) : State :=
  push_scope {| scopes := []; func_table := []; stdout := EmptyString; stdin := input |}.

Definition parse_program (fuel : nat) (source : string) : PResult stmt :=
  let* (_, p) := advance {| lx := lexer_init source; cur := make_token T_EOF None |} in
  parse_statements fuel p.

Definition main (fuel : nat) (source input : string) : Run :=
  match parse_program fuel source with
  | POk ast _ =>
      match eval_stmt fuel ast no_signal (initial_state input) with
      | Ok _ st => Finished 0 (stdout st) EmptyString
      | Exit1 e st => Finished 1 (stdout st) e
      | Undefined _ => RunUndefined
      | OutOfFuel => RunOutOfFuel
      end
  | PExit1 e => Finished 1 EmptyString e
  | PUndefined => RunUndefined
  | POutOfFuel => RunOutOfFuel
  end.

(** ** The first revision, [easylang.c]

    Its lexer helpers are the ones above; its [next_token] has fewer
    keywords and punctuation tokens.  Its evaluator has one flat variable
    list and no run-time checks; a value that is not a number has [0] in its
    [num] member, which is what [num_of] reads. *)

Module V1.

Definition keyword (s : string) : option TokenType :=
  if String.eqb s "set" then Some T_SET
  else if String.eqb s "print" then Some T_PRINT
  else if String.eqb s "read" then Some T_READ
  else if String.eqb s "if" then Some T_IF
  else if String.eqb s "then" then Some T_THEN
  else if String.eqb s "end" then Some T_END
  else if String.eqb s "while" then Some T_WHILE
  else if String.eqb s "do" then Some T_DO
  else if String.eqb s "to" then Some T_TO
  else if String.eqb s "and" then Some T_AND
  else None.

Definition next_token_at (lx : Lexer) : option (Token * Lexer) :=
  let c := peekc lx in
  if Ascii.eqb c NUL then Some (make_token T_EOF None, lx)
  else if Ascii.eqb c DQUOTE then lex_string lx
  else if isalpha c || Ascii.eqb c "_" then
    match lex_ident_or_number lx with
    | None => None
    | Some (t, lx') =>
        match type t, text t with
        | T_IDENTIFIER, Some s =>
            match keyword s with
            | Some k => Some (make_token k None, lx')
            | None => Some (t, lx')
            end
        | _, _ => Some (t, lx')
        end
    end
  else if isdigit c || Ascii.eqb c "." then lex_ident_or_number lx
  else if Ascii.eqb c "." then single lx T_DOT
  else if Ascii.eqb c "(" then single lx T_LPAREN
  else if Ascii.eqb c ")" then single lx T_RPAREN
  else if Ascii.eqb c "+" then single lx T_PLUS
  else if Ascii.eqb c "-" then single lx T_MINUS
  else if Ascii.eqb c "*" then single lx T_MUL
  else if Ascii.eqb c "/" then single lx T_DIV
  else if Ascii.eqb c "%" then single lx T_MOD
  else if Ascii.eqb c "<" then lex_relop lx T_LE T_LT
  else if Ascii.eqb c ">" then lex_relop lx T_GE T_GT
  else if Ascii.eqb c "=" then lex_eqop lx T_EQ
  else if Ascii.eqb c "!" then lex_eqop lx T_NEQ
  else single lx T_UNKNOWN.

Definition next_token (lx : Lexer) : option (Token * Lexer) :=
  match skip_blanks (S (remaining lx)) lx with
  | None => None
  | Some (Some tk, lx') => Some (tk, lx')
  | Some (None, lx') => next_token_at lx'
  end.

Fixpoint var_get (name : string) (vars : list (string * Value)) : option Value :=
  match vars with
  | [] => None
  | (n, v) :: vars' => if String.eqb n name then Some v else var_get name vars'
  end.

(** The operator switch of [N_EXPR_BINARY]. *)
Definition eval_binary (op : TokenType) (l r : Value) : Value :=
  match op with
  | T_PLUS =>
      if is_str l || is_str r then VAL_STR (operand_text l ++ operand_text r)
      else VAL_NUM (num_of l + num_of r)
  | T_MINUS => VAL_NUM (num_of l - num_of r)
  | T_MUL => VAL_NUM (num_of l * num_of r)
  | T_DIV => VAL_NUM (num_of l / num_of r)
  | T_MOD => VAL_NUM (fmod (num_of l) (num_of r))
  | T_EQ => bool_num (num_of l =? num_of r)%float
  | T_NEQ => bool_num (negb (num_of l =? num_of r)%float)
  | T_GT => bool_num (num_of r <? num_of l)%float
  | T_LT => bool_num (num_of l <? num_of r)%float
  | T_LE => bool_num (num_of l <=? num_of r)%float
  | T_GE => bool_num (num_of r <=? num_of l)%float
  | T_AND => bool_num (negb (num_of l =? 0)%float && negb (num_of r =? 0)%float)
  | _ => VAL_NONE
  end.

Fixpoint eval_expr (vars : list (string * Value)) (n : expr) : Value :=
  match n with
  | N_EXPR_NUMBER x => VAL_NUM x
  | N_EXPR_STRING s => VAL_STR s
  | N_EXPR_VAR nm =>
      match var_get nm vars with
      | Some v => v
      | None => VAL_NONE
      end
  | N_EXPR_BINARY op l r => eval_binary op (eval_expr vars l) (eval_expr vars r)
  | N_EXPR_CALL _ _ => VAL_NONE
  end.

End V1.

(** * Notions used to state the properties *)

(** A lexer step: same source text, nothing given back. *)
Definition steps_to (lx lx' : Lexer) : Prop :=
  src lx' = src lx /\ (pos lx <= pos lx')%nat /\ (remaining lx' <= remaining lx)%nat.

(** What every call of [next_token] delivers: a token that is not [T_DOT],
    read from the same text, and at least one character consumed unless the
    token is [T_EOF]. *)
Definition token_step (lx : Lexer) (r : option (Token * Lexer)) : Prop :=
  exists tk lx',
    r = Some (tk, lx') /\ steps_to lx lx' /\ type tk <> T_DOT /\
    (type tk <> T_EOF -> (remaining lx' < remaining lx)%nat).

Definition next_char (lx : Lexer) : Lexer :=
  {| src := src lx; pos := S (pos lx); line := line lx |}.

Definition crlf_text : string := String CR (String LF "x").

(** The scope that the parameter loop of a call builds from [acc]. *)
Fixpoint bind_scope (ps : list string) (vs : list Value) (acc : Scope) : Scope :=
  match ps, vs with
  | p :: ps', v :: vs' => bind_scope ps' vs' (set_in_scope p v acc)
  | _, _ => acc
  end.


(** The arguments [args], evaluated one after the other from [st], each in
    a state whose scope chain is [chain], give [vs] and end in [st']. *)
Inductive evaluated_in (ev : expr -> State -> Result Value) (chain : list Scope)
  : list expr -> State -> list Value -> State -> Prop :=
  | evaluated_nil (st : State) :
      scopes st = chain -> evaluated_in ev chain [] st [] st
  | evaluated_cons (a : expr) (args : list expr) (st : State) (v : Value) (st1 : State)
                   (vs : list Value) (st' : State) :
      scopes st = chain ->
      ev a st = Ok v st1 ->
      evaluated_in ev chain args st1 vs st' ->
      evaluated_in ev chain (a :: args) st (v :: vs) st'.

(** The current scope may change, its parents do not. *)
Definition same_parents (st st' : State) : Prop :=
  List.length (scopes st') = List.length (scopes st) /\ tl (scopes st') = tl (scopes st).


Definition state_of (ss : list Scope) (fs : list FuncDef) : State :=
  {| scopes := ss; func_table := fs; stdout := EmptyString; stdin := EmptyString |}.

(** Scenario S5: [function f(n) { return n + 1 }] called as [f(n)] where the
    caller's [n] is 4. *)
Definition f_S5 : FuncDef :=
  {| name := "f"; params := ["n"];
     body := N_STMT_LIST
               [N_STMT_RETURN (Some (N_EXPR_BINARY T_PLUS (N_EXPR_VAR "n") (N_EXPR_NUMBER 1)))] |}.





(** [function h(p) { set z to p + 1  print z  set a to 0 }]: the callee
    binds [p], [z] and a local [a] of its own, and prints. *)
Definition h_locals : FuncDef :=
  {| name := "h"; params := ["p"];
     body := N_STMT_LIST
               [N_STMT_SET "z" (N_EXPR_BINARY T_PLUS (N_EXPR_VAR "p") (N_EXPR_NUMBER 1));
                N_STMT_PRINT (N_EXPR_VAR "z");
                N_STMT_SET "a" (N_EXPR_NUMBER 0)] |}.

Definition st_caller : State := state_of [[("a", VAL_NUM 2)]] [h_locals].

Definition st_after_h : State := print ("3" ++ nl) st_caller.

Definition scenario_S1 : string := "set a to 2 + 3 * 4." ++ nl ++ "print a.".

Definition scenario_S1_one_line : string := "set a to 2 + 3 * 4. print a.".

Definition scenario_S1_without_dots : string := "set a to 2 + 3 * 4" ++ nl ++ "print a".

(** From the glossary of the specification: a decimal text is a round-trip
    representation of a number when parsing it again yields that number. *)
Definition round_trips (s : string) (n : float) : Prop := atof s = n.

Definition st_empty : State := state_of [[]] [].











(** ** Notions for the further properties *)

(** The state in which an evaluation ended, whether it ended normally, with
    [exit(1)] or in a [var_set] without a scope. *)
Definition final_state {A : Type} (r : Result A) : option State :=
  match r with
  | Ok _ st | Exit1 _ st | Undefined st => Some st
  | OutOfFuel => None
  end.

(** [st'] has the output of [st] and more, the functions of [st] and more,
    and what is left of the input of [st]. *)
Definition grows (st st' : State) : Prop :=
  (exists out, stdout st' = stdout st ++ out) /\
  (exists fs, func_table st' = (func_table st ++ fs)%list) /\
  (exists used, stdin st = used ++ stdin st').

(** No two entries of the function table have the same name. *)
Definition unique_functions (st : State) : Prop :=
  NoDup (List.map name (func_table st)).

(** No scope of the chain holds two variables of the same name. *)
Definition unique_variables (st : State) : Prop :=
  Forall (fun sc : Scope => NoDup (List.map fst sc)) (scopes st).

(** An expression in which no function is called. *)
Fixpoint call_free (n : expr) : bool :=
  match n with
  | N_EXPR_CALL _ _ => false
  | N_EXPR_BINARY _ l r => call_free l && call_free r
  | _ => true
  end.

(** The height of an expression, a call counting as a leaf. *)
Fixpoint height (n : expr) : nat :=
  match n with
  | N_EXPR_BINARY _ l r => S (Nat.max (height l) (height r))
  | _ => 1
  end.

Definition st_two_scopes : State :=
  state_of [[("x", VAL_NUM 1)]; [("x", VAL_NUM 7); ("g", VAL_STR "global")]] [].

(** Every state in which [r], started in [st], can end is related to [st]
    by [R]. *)
Definition ends_in (R : State -> State -> Prop) {A : Type} (r : Result A) (st : State)
  : Prop :=
  forall st', final_state r = Some st' -> R st st'.

(** [st'] keeps the names of [st] distinct, if they are. *)
Definition well_named (st : State) : Prop :=
  unique_functions st /\ unique_variables st.

Definition stays_well_named (st st' : State) : Prop :=
  well_named st -> well_named st'.

(** An evaluation that did not reach [var_set] without a current scope
    (the only source of [Undefined] in [do_var_set]). *)
Definition writes_in_scope {A : Type} (r : Result A) : Prop :=
  match r with
  | Undefined _ => False
  | _ => True
  end.

(** [print 1] followed by the definition of a function [f]. *)
Definition print_then_define : stmt :=
  N_STMT_LIST [N_STMT_PRINT (N_EXPR_NUMBER 1);
               N_STMT_FUNCDEF "f" [] (N_STMT_LIST [])].

(** A function whose body returns from inside an [if]. *)
Definition early_return : stmt :=
  N_STMT_LIST [N_STMT_IF (N_EXPR_NUMBER 1)
                 (N_STMT_LIST [N_STMT_RETURN (Some (N_EXPR_NUMBER 3))]) None;
               N_STMT_PRINT (N_EXPR_STRING "not reached")].

(** The operators whose result is a truth value. *)
Definition is_test (op : TokenType) : bool :=
  match op with
  | T_EQ | T_NEQ | T_GT | T_LT | T_LE | T_GE | T_AND => true
  | _ => false
  end.

(** The operators of the switch of [N_EXPR_BINARY]. *)
Definition is_operator (op : TokenType) : bool :=
  match op with
  | T_PLUS | T_MINUS | T_MUL | T_DIV | T_MOD => true
  | _ => is_test op
  end.

Fixpoint has_lf (s : string) : bool :=
  match s with
  | EmptyString => false
  | String c s' => Ascii.eqb c LF || has_lf s'
  end.

(** [x * 2 + 1 < 10], an expression without a call. *)
Definition no_call_expr : expr :=
  N_EXPR_BINARY T_LT
    (N_EXPR_BINARY T_PLUS (N_EXPR_BINARY T_MUL (N_EXPR_VAR "x") (N_EXPR_NUMBER 2))
                   (N_EXPR_NUMBER 1))
    (N_EXPR_NUMBER 10).

(** A state with one scope and two lines of input. *)
Definition st_input : State :=
  {| scopes := [[]]; func_table := []; stdout := EmptyString;
     stdin := "41" ++ nl ++ "rest" |}.

(** ** Notions for the lexer *)

Fixpoint count_dots (s : string) : nat :=
  match s with
  | EmptyString => 0
  | String c s' => (if Ascii.eqb c "." then 1 else 0) + count_dots s'
  end.

Fixpoint digits_and_dots (s : string) : bool :=
  match s with
  | EmptyString => true
  | String c s' => (isdigit c || Ascii.eqb c ".") && digits_and_dots s'
  end.

(** The source text between the positions of two lexers. *)
Definition consumed (lx lx' : Lexer) : string :=
  substring (pos lx) (pos lx' - pos lx) (src lx).

(** What the text member of a token holds, by the type of the token. *)
Definition well_formed_token (tk : Token) : Prop :=
  match type tk with
  | T_IDENTIFIER => exists s, text tk = Some s /\ lower s = s /\ keyword s = None
  | T_NUMBER =>
      exists s, text tk = Some s /\ digits_and_dots s = true /\ (count_dots s <= 1)%nat
  | T_STRING => exists s, text tk = Some s
  | _ => text tk = None
  end.

Fixpoint count_lf (s : string) : Z :=
  match s with
  | EmptyString => 0
  | String c s' => (if Ascii.eqb c LF then 1 else 0) + count_lf s'
  end.

(** [lx'] reads the same text as [lx], further on, and its line counter has
    advanced by the number of line feeds in between. *)
Definition counts_lines (lx lx' : Lexer) : Prop :=
  src lx' = src lx /\ (pos lx <= pos lx')%nat /\
  line lx' = (line lx + count_lf (consumed lx lx'))%Z.

(** The lexer after [n] calls of [next_token]. *)
Fixpoint lex_many (n : nat) (lx : Lexer) : option Lexer :=
  match n with
  | O => Some lx
  | S n' =>
      match next_token lx with
      | Some (_, lx') => lex_many n' lx'
      | None => None
      end
  end.

(** A lexer that has read [before] and has [rest] still to read. *)
Definition lexer_at (before rest : string) (l : Z) : Lexer :=
  {| src := before ++ rest; pos := String.length before; line := l |}.

(** A text without NUL, double quote and backslash. *)
Fixpoint plain (s : string) : bool :=
  match s with
  | EmptyString => true
  | String c s' =>
      negb (Ascii.eqb c NUL) && negb (Ascii.eqb c DQUOTE) && negb (Ascii.eqb c BACKSLASH)
      && plain s'
  end.

(** A text without NUL and line feed. *)
Fixpoint one_line (s : string) : bool :=
  match s with
  | EmptyString => true
  | String c s' => negb (Ascii.eqb c NUL) && negb (Ascii.eqb c LF) && one_line s'
  end.

(** The variables of a scope chain as the one flat list of the first
    revision, innermost scope first. *)
Definition flat_vars (st : State) : list (string * Value) := List.concat (scopes st).

(** ** Notions for the parser *)

(** What the parser has still to read: the characters the lexer has not
    read, and the lookahead token unless it is [T_EOF]. *)
Definition tokens_left (p : Parser) : nat :=
  remaining (lx p) + (if TokenType_beq (type (cur p)) T_EOF then 0 else 1).

(** The parser function came back, and where it gave a result, the parser
    it left has less to read than [Q] says. *)
Definition below {A : Type} (Q : A -> nat) (r : PResult A) : Prop :=
  match r with
  | POutOfFuel => False
  | POk a p' => (tokens_left p' < Q a)%nat
  | _ => True
  end.

(** A syntax tree as the parser builds it: every operator of a binary node
    is one of the switch of [eval_expr], no call has more than 16 arguments
    and no function more than 16 parameters, and the bodies of [if], [while]
    and functions are statement lists. *)
Fixpoint wf_expr (e : expr) : bool :=
  match e with
  | N_EXPR_BINARY op l r => is_operator op && wf_expr l && wf_expr r
  | N_EXPR_CALL _ args => (List.length args <=? 16)%nat && forallb wf_expr args
  | _ => true
  end.

Definition is_list (s : stmt) : bool :=
  match s with
  | N_STMT_LIST _ => true
  | _ => false
  end.

Fixpoint wf_stmt (s : stmt) : bool :=
  match s with
  | N_STMT_LIST c => forallb wf_stmt c
  | N_STMT_SET _ e => wf_expr e
  | N_STMT_PRINT e => wf_expr e
  | N_STMT_READ _ => true
  | N_STMT_IF c b e =>
      wf_expr c && is_list b && wf_stmt b
      && match e with
         | Some eb => is_list eb && wf_stmt eb
         | None => true
         end
  | N_STMT_WHILE c b => wf_expr c && is_list b && wf_stmt b
  | N_STMT_FUNCDEF _ ps b => (List.length ps <=? 16)%nat && is_list b && wf_stmt b
  | N_STMT_RETURN e =>
      match e with
      | Some e => wf_expr e
      | None => true
      end
  end.

(** Where the parser function gave a result, the result has property [P]. *)
Definition yields {A : Type} (P : A -> Prop) (r : PResult A) : Prop :=
  match r with
  | POk a _ => P a
  | _ => True
  end.

(** A string literal: the text between double quotes. *)
Definition quoted (s : string) : string := String DQUOTE (s ++ String DQUOTE EmptyString).

(** The characters that [lex_ident_or_number] consumes. *)
Definition ident_char (c : ascii) : bool :=
  isalnum c || Ascii.eqb c "_" || Ascii.eqb c ".".

Fixpoint word (w : string) : bool :=
  match w with
  | EmptyString => true
  | String c w' => ident_char c && word w'
  end.

(** A text at which a word ends: the end of the source or a character that
    is not part of a word. *)
Definition stops (rest : string) : bool :=
  match rest with
  | EmptyString => true
  | String c _ => negb (ident_char c)
  end.

(** The token of a word, given the keyword table. *)
Definition token_of_word (kw : string -> option TokenType) (w : string) : Token :=
  if digits_and_dots w && (count_dots w <=? 1)%nat then make_token T_NUMBER (Some w)
  else
    match kw (lower w) with
    | Some k => make_token k None
    | None => make_token T_IDENTIFIER (Some (lower w))
    end.

(** ** Notions for the diagnostics *)

Fixpoint starts_with (pre s : string) : bool :=
  match pre, s with
  | EmptyString, _ => true
  | String a pre', String b s' => Ascii.eqb a b && starts_with pre' s'
  | String _ _, EmptyString => false
  end.

(** The diagnostics of the parser and of the evaluator. *)
Definition parse_diagnostic (e : string) : bool := starts_with "Parse error at line " e.

Definition run_diagnostic (e : string) : bool :=
  starts_with "Error: " e || String.eqb e ("Input error" ++ nl).

(** Where the parser function stopped the program, its message has
    property [P]. *)
Definition fails_with {A : Type} (P : string -> bool) (r : PResult A) : Prop :=
  match r with
  | PExit1 e => P e = true
  | _ => True
  end.

(** Where the evaluation stopped the program, its message has property
    [P]. *)
Definition exits_with {A : Type} (P : string -> bool) (r : Result A) : Prop :=
  match r with
  | Exit1 e _ => P e = true
  | _ => True
  end.

(** An output that consists of complete lines. *)
Definition complete_lines (out : string) : Prop :=
  out = EmptyString \/ exists body, out = body ++ nl.

Definition keeps_lines (st st' : State) : Prop :=
  complete_lines (stdout st) -> complete_lines (stdout st').

(** The token types that the second revision added. *)
Definition is_new_token (t : TokenType) : bool :=
  match t with
  | T_FUNCTION | T_RETURN | T_LBRACE | T_RBRACE | T_COMMA => true
  | _ => false
  end.

(** ** Notions for what the embedding follows exactly *)



(** [skips_blanks lx0 lx]: [lx] is [lx0] after a run of spaces and tabs. *)
Inductive skips_blanks : Lexer -> Lexer -> Prop :=
  | skips_none (lx : Lexer) : skips_blanks lx lx
  | skips_one (lx0 lx : Lexer) :
      Ascii.eqb (peekc lx0) " " || Ascii.eqb (peekc lx0) TAB = true ->
      skips_blanks (snd (getc_l lx0)) lx ->
      skips_blanks lx0 lx.

(** [while x < 3 do set x to x + 1 end] *)
Definition count_to_three : stmt :=
  N_STMT_WHILE (N_EXPR_BINARY T_LT (N_EXPR_VAR "x") (N_EXPR_NUMBER 3))
    (N_STMT_LIST
       [N_STMT_SET "x" (N_EXPR_BINARY T_PLUS (N_EXPR_VAR "x") (N_EXPR_NUMBER 1))]).

Definition st_counted : State :=
  state_of [[("x", VAL_NUM 3)]; [("x", VAL_NUM 7); ("g", VAL_STR "global")]] [].

(** A space, then CR LF, then [x]. *)
Definition blank_crlf_text : string := String " " crlf_text.

(** * Properties *)

Arguments peekc : simpl never.
Arguments getc_l : simpl never.
Arguments remaining : simpl never.

Create HintDb lexer.

(** ** Lexer: reading characters *)

Lemma get_some_lt (s : string) (n : nat) (c : ascii) :
  String.get n s = Some c -> (n < String.length s)%nat.
Proof.
  revert n; induction s as [|a s IH]; intros n H; simpl in *.
  - destruct n; discriminate.
  - destruct n as [|n]; [lia|]. apply IH in H. lia.
Qed.

Lemma peekc_not_nul_lt (lx : Lexer) :
  peekc lx <> NUL -> (pos lx < String.length (src lx))%nat.
Proof.
  unfold peekc. destruct (String.get (pos lx) (src lx)) eqn:E.
  - intros _. eapply get_some_lt; eauto.
  - intros H; contradiction.
Qed.

Lemma getc_l_src (lx : Lexer) : src (snd (getc_l lx)) = src lx.
Proof. reflexivity. Qed.

Lemma getc_l_nul (lx : Lexer) : peekc lx = NUL -> snd (getc_l lx) = lx.
Proof.
  intros H. unfold getc_l. rewrite H. destruct lx; reflexivity.
Qed.

Lemma getc_l_pos (lx : Lexer) :
  peekc lx <> NUL -> pos (snd (getc_l lx)) = S (pos lx).
Proof.
  intros H. unfold getc_l; simpl.
  destruct (Ascii.eqb (peekc lx) NUL) eqn:E; [|reflexivity].
  apply Ascii.eqb_eq in E. contradiction.
Qed.

Lemma getc_l_remaining (lx : Lexer) :
  peekc lx <> NUL -> S (remaining (snd (getc_l lx))) = remaining lx.
Proof.
  intros H. unfold remaining. rewrite getc_l_src, getc_l_pos by assumption.
  apply peekc_not_nul_lt in H. lia.
Qed.

Lemma getc_l_remaining_le (lx : Lexer) :
  (remaining (snd (getc_l lx)) <= remaining lx)%nat.
Proof.
  destruct (Ascii.eqb (peekc lx) NUL) eqn:E.
  - apply Ascii.eqb_eq in E. rewrite getc_l_nul by assumption. lia.
  - apply Ascii.eqb_neq in E. apply getc_l_remaining in E. lia.
Qed.

Lemma getc_l_pos_le (lx : Lexer) : (pos lx <= pos (snd (getc_l lx)))%nat.
Proof.
  destruct (Ascii.eqb (peekc lx) NUL) eqn:E.
  - apply Ascii.eqb_eq in E. rewrite getc_l_nul by assumption. lia.
  - apply Ascii.eqb_neq in E. rewrite getc_l_pos by assumption. lia.
Qed.

Lemma steps_to_refl (lx : Lexer) : steps_to lx lx.
Proof. split; [reflexivity | lia]. Qed.

Lemma steps_to_trans (a b c : Lexer) : steps_to a b -> steps_to b c -> steps_to a c.
Proof. unfold steps_to; intros [H1 H2] [H3 H4]; split; [congruence | lia]. Qed.

Lemma steps_to_getc (lx : Lexer) : steps_to lx (snd (getc_l lx)).
Proof.
  split; [apply getc_l_src|]. split; [apply getc_l_pos_le | apply getc_l_remaining_le].
Qed.

#[local] Hint Resolve steps_to_refl steps_to_getc : lexer.

(** ** Lexer: every loop ends within its bound *)

Lemma skip_comment_loop_total (fuel : nat) :
  forall lx, (remaining lx < fuel)%nat ->
  exists lx', skip_comment_loop fuel lx = Some lx' /\ steps_to lx lx' /\
              (peekc lx <> NUL -> (remaining lx' < remaining lx)%nat).
Proof.
  induction fuel as [|fuel IH]; intros lx Hlt; [lia|]. cbn [skip_comment_loop].
  destruct (Ascii.eqb (peekc lx) NUL) eqn:E.
  - apply Ascii.eqb_eq in E. exists lx. split; [reflexivity|]. split; [apply steps_to_refl|].
    intros H; contradiction.
  - apply Ascii.eqb_neq in E. pose proof (getc_l_remaining lx E) as Hr.
    destruct (Ascii.eqb (fst (getc_l lx)) LF).
    + eexists; split; [reflexivity|]. split; [apply steps_to_getc|]. intros _; lia.
    + destruct (IH (snd (getc_l lx))) as (lx' & H1 & H2 & _); [lia|].
      exists lx'. split; [exact H1|]. split.
      * eapply steps_to_trans; [apply steps_to_getc | exact H2].
      * intros _. destruct H2 as [_ H2]. lia.
Qed.

Lemma skip_comment_total (lx : Lexer) :
  exists lx', skip_comment lx = Some lx' /\ steps_to lx lx' /\
              (peekc lx <> NUL -> (remaining lx' < remaining lx)%nat).
Proof. apply skip_comment_loop_total. lia. Qed.

Lemma lex_string_loop_total (fuel : nat) :
  forall lx, (remaining lx < fuel)%nat ->
  exists lx', lex_string_loop fuel lx = Some lx' /\ steps_to lx lx'.
Proof.
  induction fuel as [|fuel IH]; intros lx Hlt; [lia|]. cbn [lex_string_loop].
  destruct (Ascii.eqb (peekc lx) NUL) eqn:E; cbn [negb andb].
  - exists lx; split; [reflexivity | apply steps_to_refl].
  - apply Ascii.eqb_neq in E. pose proof (getc_l_remaining lx E) as Hr.
    destruct (Ascii.eqb (peekc lx) DQUOTE); cbn [negb andb].
    + exists lx; split; [reflexivity | apply steps_to_refl].
    + destruct (Ascii.eqb (peekc lx) BACKSLASH).
      * set (lx1 := snd (getc_l lx)) in *.
        set (lx2 := if negb (Ascii.eqb (peekc lx1) NUL) then snd (getc_l lx1) else lx1).
        assert (H12 : steps_to lx1 lx2).
        { unfold lx2. destruct (negb (Ascii.eqb (peekc lx1) NUL)); auto with lexer. }
        destruct (IH lx2) as (lx' & H1 & H2); [destruct H12; lia|].
        exists lx'. split; [exact H1|].
        eapply steps_to_trans; [apply steps_to_getc|].
        eapply steps_to_trans; [exact H12 | exact H2].
      * destruct (IH (snd (getc_l lx))) as (lx' & H1 & H2); [lia|].
        exists lx'. split; [exact H1|].
        eapply steps_to_trans; [apply steps_to_getc | exact H2].
Qed.

Lemma lex_string_total (lx : Lexer) :
  peekc lx <> NUL ->
  exists tk lx', lex_string lx = Some (tk, lx') /\ type tk = T_STRING /\
                 steps_to lx lx' /\ (remaining lx' < remaining lx)%nat.
Proof.
  intros Hc. unfold lex_string.
  pose proof (getc_l_remaining lx Hc) as Hr.
  destruct (lex_string_loop_total (S (remaining (snd (getc_l lx)))) (snd (getc_l lx)))
    as (lx1 & H1 & H2); [lia|].
  rewrite H1.
  set (lx2 := if Ascii.eqb (peekc lx1) DQUOTE then snd (getc_l lx1) else lx1).
  assert (H12 : steps_to lx1 lx2).
  { unfold lx2. destruct (Ascii.eqb (peekc lx1) DQUOTE); auto with lexer. }
  eexists; exists lx2. split; [reflexivity|]. split; [reflexivity|].
  assert (Hs : steps_to lx lx2).
  { eapply steps_to_trans; [apply steps_to_getc|].
    eapply steps_to_trans; [exact H2 | exact H12]. }
  split; [exact Hs|]. destruct H2, H12. lia.
Qed.

Lemma ident_loop_total (fuel : nat) :
  forall lx, (remaining lx < fuel)%nat ->
  exists lx', ident_loop fuel lx = Some lx' /\ steps_to lx lx' /\
              (peekc lx <> NUL ->
               isalnum (peekc lx) || Ascii.eqb (peekc lx) "_" || Ascii.eqb (peekc lx) "." = true ->
               (remaining lx' < remaining lx)%nat).
Proof.
  induction fuel as [|fuel IH]; intros lx Hlt; [lia|]. cbn [ident_loop].
  assert (Hgo : peekc lx <> NUL ->
                exists lx', ident_loop fuel (snd (getc_l lx)) = Some lx' /\
                            steps_to lx lx' /\ (remaining lx' < remaining lx)%nat).
  { intros E. pose proof (getc_l_remaining lx E) as Hr.
    destruct (IH (snd (getc_l lx))) as (lx' & H1 & H2 & _); [lia|].
    exists lx'. split; [exact H1|]. split.
    - eapply steps_to_trans; [apply steps_to_getc | exact H2].
    - destruct H2; lia. }
  destruct (Ascii.eqb (peekc lx) NUL) eqn:E.
  - apply Ascii.eqb_eq in E. rewrite E.
    exists lx. split; [reflexivity|]. split; [apply steps_to_refl|].
    intros H; contradiction.
  - apply Ascii.eqb_neq in E. destruct (Hgo E) as (lx' & H1 & H2 & H3).
    destruct (isalnum (peekc lx) || Ascii.eqb (peekc lx) "_") eqn:Ea.
    + exists lx'. auto.
    + destruct (Ascii.eqb (peekc lx) ".") eqn:Ed.
      * exists lx'. auto.
      * exists lx. split; [reflexivity|]. split; [apply steps_to_refl|].
        intros _ H. discriminate H.
Qed.

Lemma lex_ident_or_number_total (lx : Lexer) :
  exists tk lx', lex_ident_or_number lx = Some (tk, lx') /\
                 (type tk = T_NUMBER \/ type tk = T_IDENTIFIER) /\
                 text tk <> None /\
                 steps_to lx lx' /\
                 (peekc lx <> NUL ->
                  isalnum (peekc lx) || Ascii.eqb (peekc lx) "_" || Ascii.eqb (peekc lx) "." = true ->
                  (remaining lx' < remaining lx)%nat).
Proof.
  unfold lex_ident_or_number.
  destruct (ident_loop_total (S (remaining lx)) lx) as (lx1 & H1 & H2 & H3); [lia|].
  rewrite H1.
  destruct (numeric_scan _ true 0); eexists; exists lx1;
    (split; [reflexivity|]); simpl; repeat split; auto; try discriminate; apply H2.
Qed.

(** ** Lexer: one call of [next_token] *)

Lemma token_step_weaken (lx0 lx : Lexer) (r : option (Token * Lexer)) :
  steps_to lx0 lx -> token_step lx r -> token_step lx0 r.
Proof.
  intros H0 (tk & lx' & Hr & Hs & Hd & Hp).
  exists tk, lx'. split; [exact Hr|]. split; [eapply steps_to_trans; eauto|].
  split; [exact Hd|]. intros H. specialize (Hp H). destruct H0. lia.
Qed.

Lemma single_step (lx : Lexer) (t : TokenType) :
  peekc lx <> NUL -> t <> T_DOT -> token_step lx (single lx t).
Proof.
  intros Hc Ht. pose proof (getc_l_remaining lx Hc).
  eexists; eexists. split; [reflexivity|]. split; [apply steps_to_getc|].
  split; [exact Ht|]. intros _. lia.
Qed.

Lemma lex_relop_step (lx : Lexer) (two one : TokenType) :
  peekc lx <> NUL -> two <> T_DOT -> one <> T_DOT -> token_step lx (lex_relop lx two one).
Proof.
  intros Hc H2 H1. pose proof (getc_l_remaining lx Hc). unfold lex_relop.
  pose proof (getc_l_remaining_le (snd (getc_l lx))).
  destruct (Ascii.eqb (peekc (snd (getc_l lx))) "=");
    eexists; eexists; (split; [reflexivity|]); cbn [type].
  - split; [eapply steps_to_trans; apply steps_to_getc|]. split; [exact H2|]. intros _; lia.
  - split; [apply steps_to_getc|]. split; [exact H1|]. intros _; lia.
Qed.

Lemma unget_getc (lx : Lexer) :
  peekc lx <> NUL -> peekc lx <> LF ->
  {| src := src (snd (getc_l lx)); pos := pos (snd (getc_l lx)) - 1;
     line := line (snd (getc_l lx)) |} = lx.
Proof.
  intros Hc Hl. rewrite getc_l_pos by assumption. unfold getc_l; simpl.
  destruct (Ascii.eqb (peekc lx) LF) eqn:E.
  - apply Ascii.eqb_eq in E. contradiction.
  - rewrite Nat.sub_0_r. destruct lx; reflexivity.
Qed.

Lemma lex_eqop_step (lx : Lexer) (two : TokenType) :
  peekc lx <> NUL -> peekc lx <> LF -> two <> T_DOT -> token_step lx (lex_eqop lx two).
Proof.
  intros Hc Hl H2. pose proof (getc_l_remaining lx Hc). unfold lex_eqop.
  pose proof (getc_l_remaining_le (snd (getc_l lx))).
  destruct (Ascii.eqb (peekc (snd (getc_l lx))) "=");
    eexists; eexists; (split; [reflexivity|]); cbn [type].
  - split; [eapply steps_to_trans; apply steps_to_getc|]. split; [exact H2|]. intros _; lia.
  - rewrite unget_getc by assumption.
    split; [apply steps_to_getc|]. split; [discriminate|]. intros _; lia.
Qed.

Lemma keyword_not_dot (s : string) (k : TokenType) :
  keyword s = Some k -> k <> T_DOT /\ k <> T_EOF.
Proof.
  unfold keyword.
  repeat match goal with
         | |- context [if ?b then _ else _] => destruct b
         end; intros H; inversion H; split; discriminate.
Qed.

Lemma V1_keyword_not_dot (s : string) (k : TokenType) :
  V1.keyword s = Some k -> k <> T_DOT /\ k <> T_EOF.
Proof.
  unfold V1.keyword.
  repeat match goal with
         | |- context [if ?b then _ else _] => destruct b
         end; intros H; inversion H; split; discriminate.
Qed.

(** The identifier branch, for either keyword table. *)
Lemma ident_branch_step (kw : string -> option TokenType) (lx : Lexer) :
  (forall s k, kw s = Some k -> k <> T_DOT /\ k <> T_EOF) ->
  peekc lx <> NUL ->
  isalnum (peekc lx) || Ascii.eqb (peekc lx) "_" || Ascii.eqb (peekc lx) "." = true ->
  token_step lx
    match lex_ident_or_number lx with
    | None => None
    | Some (t, lx') =>
        match type t, text t with
        | T_IDENTIFIER, Some s =>
            match kw s with
            | Some k => Some (make_token k None, lx')
            | None => Some (t, lx')
            end
        | _, _ => Some (t, lx')
        end
    end.
Proof.
  intros Hkw Hc Hid.
  destruct (lex_ident_or_number_total lx) as (tk & lx' & H1 & H2 & H3 & H4 & H5).
  rewrite H1. specialize (H5 Hc Hid).
  assert (Hplain : token_step lx (Some (tk, lx'))).
  { exists tk, lx'. split; [reflexivity|]. split; [exact H4|].
    split; [destruct H2 as [E|E]; rewrite E; discriminate|]. intros _; exact H5. }
  destruct H2 as [E|E]; rewrite E; [exact Hplain|].
  destruct (text tk) as [s|]; [|exact Hplain].
  destruct (kw s) as [k|] eqn:Ek; [|exact Hplain].
  destruct (Hkw s k Ek) as [Hd He].
  eexists; eexists. split; [reflexivity|]. split; [exact H4|].
  split; [exact Hd|]. intros _; exact H5.
Qed.

Lemma number_branch_step (lx : Lexer) :
  peekc lx <> NUL ->
  isdigit (peekc lx) || Ascii.eqb (peekc lx) "." = true ->
  token_step lx (lex_ident_or_number lx).
Proof.
  intros Hc Hid.
  destruct (lex_ident_or_number_total lx) as (tk & lx' & H1 & H2 & H3 & H4 & H5).
  exists tk, lx'. split; [exact H1|]. split; [exact H4|].
  split; [destruct H2 as [E|E]; rewrite E; discriminate|].
  intros _. apply H5; [exact Hc|].
  unfold isalnum. apply orb_true_iff in Hid. destruct Hid as [Hd|Hd]; rewrite Hd.
  - rewrite orb_true_r. reflexivity.
  - rewrite orb_true_r. reflexivity.
Qed.

Lemma alpha_is_ident_char (c : ascii) :
  isalpha c || Ascii.eqb c "_" = true ->
  isalnum c || Ascii.eqb c "_" || Ascii.eqb c "." = true.
Proof.
  intros H. unfold isalnum. apply orb_true_iff in H. destruct H as [H|H]; rewrite H.
  - reflexivity.
  - rewrite orb_true_r. reflexivity.
Qed.

Ltac lexer_branches Hc :=
  repeat match goal with
         | |- token_step ?lx (if Ascii.eqb (peekc ?lx) ?c then _ else _) =>
             let E := fresh "E" in
             destruct (Ascii.eqb (peekc lx) c) eqn:E;
             [ first [ apply single_step; [exact Hc | discriminate]
                     | apply lex_relop_step; [exact Hc | discriminate | discriminate]
                     | apply lex_eqop_step;
                       [ exact Hc
                       | apply Ascii.eqb_eq in E; rewrite E; discriminate
                       | discriminate ] ]
             | ]
         end.

Lemma next_token_at_step (lx : Lexer) : token_step lx (next_token_at lx).
Proof.
  unfold next_token_at.
  destruct (Ascii.eqb (peekc lx) NUL) eqn:E0.
  { eexists; eexists. split; [reflexivity|]. split; [apply steps_to_refl|].
    split; [discriminate|]. intros H; exfalso; apply H; reflexivity. }
  apply Ascii.eqb_neq in E0.
  destruct (Ascii.eqb (peekc lx) DQUOTE).
  { destruct (lex_string_total lx E0) as (tk & lx' & H1 & H2 & H3 & H4).
    exists tk, lx'. split; [exact H1|]. split; [exact H3|].
    split; [rewrite H2; discriminate|]. intros _; exact H4. }
  destruct (isalpha (peekc lx) || Ascii.eqb (peekc lx) "_") eqn:E1.
  { apply ident_branch_step; [exact keyword_not_dot | exact E0 |].
    apply alpha_is_ident_char; exact E1. }
  destruct (isdigit (peekc lx) || Ascii.eqb (peekc lx) ".") eqn:E2.
  { apply number_branch_step; assumption. }
  apply orb_false_elim in E2. destruct E2 as [_ E2]. rewrite E2.
  lexer_branches E0.
  apply single_step; [exact E0 | discriminate].
Qed.

Lemma V1_next_token_at_step (lx : Lexer) : token_step lx (V1.next_token_at lx).
Proof.
  unfold V1.next_token_at.
  destruct (Ascii.eqb (peekc lx) NUL) eqn:E0.
  { eexists; eexists. split; [reflexivity|]. split; [apply steps_to_refl|].
    split; [discriminate|]. intros H; exfalso; apply H; reflexivity. }
  apply Ascii.eqb_neq in E0.
  destruct (Ascii.eqb (peekc lx) DQUOTE).
  { destruct (lex_string_total lx E0) as (tk & lx' & H1 & H2 & H3 & H4).
    exists tk, lx'. split; [exact H1|]. split; [exact H3|].
    split; [rewrite H2; discriminate|]. intros _; exact H4. }
  destruct (isalpha (peekc lx) || Ascii.eqb (peekc lx) "_") eqn:E1.
  { apply ident_branch_step; [exact V1_keyword_not_dot | exact E0 |].
    apply alpha_is_ident_char; exact E1. }
  destruct (isdigit (peekc lx) || Ascii.eqb (peekc lx) ".") eqn:E2.
  { apply number_branch_step; assumption. }
  apply orb_false_elim in E2. destruct E2 as [_ E2]. rewrite E2.
  lexer_branches E0.
  apply single_step; [exact E0 | discriminate].
Qed.

(** The first loop: either a line break is returned, or the lexer stands
    on the first character of the next token. *)
Lemma skip_blanks_total (fuel : nat) :
  forall lx, (remaining lx < fuel)%nat ->
  exists r, skip_blanks fuel lx = Some r /\ steps_to lx (snd r) /\
            match fst r with
            | Some tk => type tk = T_NEWLINE /\ (remaining (snd r) < remaining lx)%nat
            | None => True
            end.
Proof.
  induction fuel as [|fuel IH]; intros lx Hlt; [lia|]. cbn [skip_blanks].
  destruct (Ascii.eqb (peekc lx) NUL) eqn:E0.
  { eexists; split; [reflexivity|]. split; [apply steps_to_refl | exact I]. }
  apply Ascii.eqb_neq in E0. pose proof (getc_l_remaining lx E0) as Hr.
  destruct (Ascii.eqb (peekc lx) " " || Ascii.eqb (peekc lx) TAB).
  { destruct (IH (snd (getc_l lx))) as (r & H1 & H2 & H3); [lia|].
    exists r. split; [exact H1|]. split; [eapply steps_to_trans; [apply steps_to_getc | exact H2]|].
    destruct (fst r); [|exact I]. destruct H3; split; [assumption | lia]. }
  destruct (Ascii.eqb (peekc lx) CR).
  { pose proof (getc_l_remaining_le (snd (getc_l lx))).
    eexists; split; [reflexivity|]. cbn [fst snd type].
    destruct (Ascii.eqb (peekc (snd (getc_l lx))) LF).
    - split; [eapply steps_to_trans; apply steps_to_getc|]. split; [reflexivity | lia].
    - split; [apply steps_to_getc|]. split; [reflexivity | lia]. }
  destruct (Ascii.eqb (peekc lx) LF).
  { eexists; split; [reflexivity|]. cbn [fst snd type].
    split; [apply steps_to_getc|]. split; [reflexivity | lia]. }
  destruct (Ascii.eqb (peekc lx) "#").
  { destruct (skip_comment_total lx) as (lx1 & H1 & H2 & H3). rewrite H1.
    specialize (H3 E0).
    destruct (IH lx1) as (r & H4 & H5 & H6); [lia|].
    exists r. split; [exact H4|]. split; [eapply steps_to_trans; eauto|].
    destruct (fst r); [|exact I]. destruct H6; split; [assumption | lia]. }
  eexists; split; [reflexivity|]. split; [apply steps_to_refl | exact I].
Qed.

Lemma next_token_gen_step (at_ : Lexer -> option (Token * Lexer)) (lx : Lexer) :
  (forall l, token_step l (at_ l)) ->
  token_step lx
    match skip_blanks (S (remaining lx)) lx with
    | None => None
    | Some (Some tk, lx') => Some (tk, lx')
    | Some (None, lx') => at_ lx'
    end.
Proof.
  intros Hat.
  destruct (skip_blanks_total (S (remaining lx)) lx) as ([[tk|] lx'] & H1 & H2 & H3); [lia| |];
    rewrite H1; cbn [fst snd] in *.
  - destruct H3 as [H3 H4]. exists tk, lx'. split; [reflexivity|]. split; [exact H2|].
    split; [rewrite H3; discriminate|]. intros _; exact H4.
  - eapply token_step_weaken; [exact H2 | apply Hat].
Qed.

Lemma next_token_step (lx : Lexer) : token_step lx (next_token lx).
Proof. apply next_token_gen_step. exact next_token_at_step. Qed.

Lemma V1_next_token_step (lx : Lexer) : token_step lx (V1.next_token lx).
Proof. apply (next_token_gen_step V1.next_token_at). exact V1_next_token_at_step. Qed.

Lemma remaining_lt_pos (lx lx' : Lexer) :
  src lx' = src lx -> (remaining lx' < remaining lx)%nat -> (pos lx < pos lx')%nat.
Proof. unfold remaining. intros ->. lia. Qed.

Lemma substring_get0 (s : string) :
  forall n m c, String.get n s = Some c -> String.get 0 (substring n (S m) s) = Some c.
Proof.
  induction s as [|a s IH]; intros n m c H; simpl in *.
  - destruct n; discriminate.
  - destruct n as [|n]; simpl; [exact H | apply IH; exact H].
Qed.

Lemma lower_get0 (s : string) (c : ascii) :
  String.get 0 s = Some c -> String.get 0 (lower s) = Some (tolower c).
Proof. destruct s; simpl; intros H; inversion H; reflexivity. Qed.

(** A token read by [lex_ident_or_number] on a dot carries a lexeme that
    starts with this dot. *)
Lemma dot_lexeme (lx : Lexer) :
  peekc lx = "."%char ->
  exists tk lx' s,
    lex_ident_or_number lx = Some (tk, lx') /\
    (type tk = T_NUMBER \/ type tk = T_IDENTIFIER) /\
    text tk = Some s /\ String.get 0 s = Some "."%char.
Proof.
  intros Hc.
  assert (Hn : peekc lx <> NUL) by (rewrite Hc; discriminate).
  assert (Hg : String.get (pos lx) (src lx) = Some "."%char).
  { unfold peekc in Hc. destruct (String.get (pos lx) (src lx)); [congruence|].
    discriminate Hc. }
  unfold lex_ident_or_number.
  destruct (ident_loop_total (S (remaining lx)) lx) as (lx1 & H1 & [H2 H2'] & H3); [lia|].
  rewrite H1.
  assert (Hp : (pos lx < pos lx1)%nat).
  { apply remaining_lt_pos; [exact H2|]. apply H3; [exact Hn|]. rewrite Hc. reflexivity. }
  unfold substr_alloc.
  replace (pos lx1 - pos lx)%nat with (S (pos lx1 - pos lx - 1)) by lia.
  pose proof (substring_get0 (src lx) (pos lx) (pos lx1 - pos lx - 1) _ Hg) as Hs.
  destruct (numeric_scan _ true 0).
  - do 3 eexists. split; [reflexivity|]. split; [left; reflexivity|].
    split; [reflexivity | exact Hs].
  - do 3 eexists. split; [reflexivity|]. split; [right; reflexivity|].
    split; [reflexivity|]. apply lower_get0 in Hs. exact Hs.
Qed.

Lemma dot_dispatch (lx : Lexer) :
  peekc lx = "."%char ->
  next_token_at lx = lex_ident_or_number lx /\ V1.next_token_at lx = lex_ident_or_number lx.
Proof.
  intros Hc. unfold next_token_at, V1.next_token_at. rewrite Hc. split; reflexivity.
Qed.

(** C6 (easylang_version2.0.c and easylang.c, [next_token] and
    [lex_ident_or_number]).  In both revisions no call of [next_token]
    returns a [T_DOT] token: the call always returns, and its token has
    another type.  When the dispatch of [next_token] stands on a dot, the
    branch taken is [lex_ident_or_number] (the test [isdigit(c) || c == '.']
    comes before the [T_DOT] case), and the result is a number or identifier
    token whose lexeme starts with that dot.  A source text that is a single
    dot lexes as the number token with text [.], which [atof] reads as 0.
    So the lookahead token that [advance] gives the parser is never [T_DOT],
    and the parser's [T_DOT] branches are not taken. *)
Theorem lexer_never_emits_dot :
  (forall lx : Lexer,
     match next_token lx with
     | Some (tk, _) => type tk <> T_DOT
     | None => False
     end) /\
  (forall lx : Lexer,
     match V1.next_token lx with
     | Some (tk, _) => type tk <> T_DOT
     | None => False
     end) /\
  (forall lx : Lexer,
     peekc lx = "."%char ->
     next_token_at lx = lex_ident_or_number lx /\
     V1.next_token_at lx = lex_ident_or_number lx /\
     exists tk lx' s,
       lex_ident_or_number lx = Some (tk, lx') /\
       (type tk = T_NUMBER \/ type tk = T_IDENTIFIER) /\
       text tk = Some s /\ String.get 0 s = Some "."%char) /\
  next_token (lexer_init ".")
    = Some (make_token T_NUMBER (Some "."), {| src := "."; pos := 1; line := 1 |}) /\
  V1.next_token (lexer_init ".")
    = Some (make_token T_NUMBER (Some "."), {| src := "."; pos := 1; line := 1 |}) /\
  atof "." = 0%float /\
  (forall (p : Parser) (u : unit) (p' : Parser),
     advance p = POk u p' -> type (peek_token p') <> T_DOT).
Proof.
  split; [|split; [|split; [|split; [|split; [|split]]]]].
  - intros lx. destruct (next_token_step lx) as (tk & lx' & H & _ & Hd & _).
    rewrite H. exact Hd.
  - intros lx. destruct (V1_next_token_step lx) as (tk & lx' & H & _ & Hd & _).
    rewrite H. exact Hd.
  - intros lx Hc. destruct (dot_dispatch lx Hc) as [H1 H2].
    split; [exact H1|]. split; [exact H2|]. apply dot_lexeme; exact Hc.
  - reflexivity.
  - reflexivity.
  - reflexivity.
  - intros p u p'. unfold advance.
    destruct (next_token_step (lx p)) as (tk & lx' & H & _ & Hd & _). rewrite H.
    intros E; inversion E; subst. exact Hd.
Qed.

(** The dot that ends [print a.] in scenario S1 is read as part of the
    identifier. *)
Lemma lexer_never_emits_dot_witness :
  peekc {| src := "print a."; pos := 7; line := 1 |} = "."%char /\
  exists tk lx' s,
    lex_ident_or_number {| src := "print a."; pos := 7; line := 1 |} = Some (tk, lx') /\
    (type tk = T_NUMBER \/ type tk = T_IDENTIFIER) /\
    text tk = Some s /\ String.get 0 s = Some "."%char.
Proof.
  split; [reflexivity|].
  apply (proj1 (proj2 (proj2 lexer_never_emits_dot))
           {| src := "print a."; pos := 7; line := 1 |} eq_refl).
Defined.

(** ** [getc_l] on a given character *)

Lemma getc_l_at (lx : Lexer) (c : ascii) :
  peekc lx = c -> c <> NUL ->
  snd (getc_l lx)
  = {| src := src lx; pos := S (pos lx);
       line := if Ascii.eqb c LF then (line lx + 1)%Z else line lx |}.
Proof.
  intros Hc Hn. unfold getc_l. rewrite Hc. simpl.
  destruct (Ascii.eqb c NUL) eqn:E; [apply Ascii.eqb_eq in E; contradiction | reflexivity].
Qed.

(** ** Lexer totality *)

Lemma tokenize_total (n : nat) :
  forall lx, (remaining lx <= n)%nat ->
  exists tks last,
    type last = T_EOF /\ Forall (fun tk => type tk <> T_EOF) tks /\
    forall fuel, (remaining lx < fuel)%nat -> tokenize fuel lx = Some (tks ++ [last])%list.
Proof.
  induction n as [|n IH]; intros lx Hn.
  - destruct (next_token_step lx) as (tk & lx' & H & Hs & _ & Hp).
    assert (Ht : type tk = T_EOF).
    { destruct (TokenType_eq_dec (type tk) T_EOF) as [E|E]; [exact E|].
      specialize (Hp E). lia. }
    exists [], tk. split; [exact Ht|]. split; [constructor|].
    intros [|fuel] Hf; [lia|]. cbn [tokenize]. rewrite H, Ht. reflexivity.
  - destruct (next_token_step lx) as (tk & lx' & H & Hs & _ & Hp).
    destruct (TokenType_eq_dec (type tk) T_EOF) as [E|E].
    + exists [], tk. split; [exact E|]. split; [constructor|].
      intros [|fuel] Hf; [lia|]. cbn [tokenize]. rewrite H, E. reflexivity.
    + specialize (Hp E).
      destruct (IH lx') as (tks & last & H1 & H2 & H3); [lia|].
      exists (tk :: tks), last. split; [exact H1|]. split; [constructor; assumption|].
      intros [|fuel] Hf; [lia|]. cbn [tokenize]. rewrite H.
      rewrite (H3 fuel) by lia.
      destruct (type tk); try reflexivity. exfalso; apply E; reflexivity.
Qed.

(** C10 (easylang_version2.0.c, [next_token]).  Every call of [next_token]
    returns (its loops end within the bound given by the characters left),
    on the same text, and a token other than [T_EOF] has consumed at least
    one character.  Hence for every source text the token stream is finite:
    calling [next_token] until [T_EOF] gives a list of tokens none of which
    is [T_EOF], followed by exactly one [T_EOF], within [length + 1] calls
    and with the same result for any larger bound. *)
Theorem lexer_totality :
  (forall lx : Lexer,
     exists tk lx',
       next_token lx = Some (tk, lx') /\ src lx' = src lx /\
       (pos lx <= pos lx')%nat /\
       (type tk <> T_EOF -> (pos lx < pos lx')%nat)) /\
  (forall source : string,
     exists tks last,
       type last = T_EOF /\ Forall (fun tk => type tk <> T_EOF) tks /\
       forall fuel, (String.length source < fuel)%nat ->
                    tokenize fuel (lexer_init source) = Some (tks ++ [last])%list).
Proof.
  split.
  - intros lx. destruct (next_token_step lx) as (tk & lx' & H & (Hs & Hle & Hr) & _ & Hp).
    exists tk, lx'. split; [exact H|]. split; [exact Hs|]. split; [exact Hle|].
    intros E. apply remaining_lt_pos; [exact Hs | exact (Hp E)].
  - intros source.
    destruct (tokenize_total (String.length source) (lexer_init source))
      as (tks & last & H1 & H2 & H3).
    + unfold remaining; simpl; lia.
    + exists tks, last. split; [exact H1|]. split; [exact H2|].
      intros fuel Hf. apply H3. unfold remaining; simpl; lia.
Qed.

(** ** Evaluator: scopes *)

Lemma same_parents_refl (st : State) : same_parents st st.
Proof. split; reflexivity. Qed.

Lemma same_parents_trans (a b c : State) :
  same_parents a b -> same_parents b c -> same_parents a c.
Proof. unfold same_parents. intros [H1 H2] [H3 H4]. split; congruence. Qed.

Lemma same_scopes_parents (st st' : State) : scopes st' = scopes st -> same_parents st st'.
Proof. intros H; split; rewrite H; reflexivity. Qed.

Lemma find_in_chain_last (x : string) (ss : list Scope) :
  find_in_chain x ss = None -> find_var x (List.last ss []) = None.
Proof.
  induction ss as [|s ss IH]; intros H; [reflexivity|].
  cbn [find_in_chain] in H. destruct (find_var x s) eqn:E; [discriminate|].
  destruct ss as [|s' ss']; [exact E|]. apply IH. exact H.
Qed.

(** The second search of [var_get], in the global scope, finds nothing that
    the walk along the chain has not found. *)
Lemma var_get_chain (x : string) (st : State) :
  var_get x st = find_in_chain x (scopes st).
Proof.
  unfold var_get, global_scope. destruct (find_in_chain x (scopes st)) eqn:E; [reflexivity|].
  rewrite (find_in_chain_last _ _ E). destruct (1 <? List.length (scopes st))%nat; reflexivity.
Qed.

Lemma var_get_same_scopes (x : string) (st st' : State) :
  scopes st' = scopes st -> var_get x st' = var_get x st.
Proof. intros H. rewrite !var_get_chain, H. reflexivity. Qed.

Lemma find_overwrite_same (p : string) (v : Value) (sc : Scope) :
  find_var p sc <> None -> find_var p (overwrite p v sc) = Some v.
Proof.
  induction sc as [|[n w] sc IH]; simpl; intros H; [contradiction|].
  destruct (String.eqb n p) eqn:E; simpl; rewrite E; [reflexivity | apply IH; exact H].
Qed.

Lemma find_overwrite_other (p q : string) (v : Value) (sc : Scope) :
  p <> q -> find_var q (overwrite p v sc) = find_var q sc.
Proof.
  intros Hpq. induction sc as [|[n w] sc IH]; simpl; [reflexivity|].
  destruct (String.eqb n p) eqn:E; simpl.
  - apply String.eqb_eq in E. subst n.
    destruct (String.eqb p q) eqn:E2; [apply String.eqb_eq in E2; contradiction | reflexivity].
  - destruct (String.eqb n q); [reflexivity | exact IH].
Qed.

Lemma find_set_same (p : string) (v : Value) (sc : Scope) :
  find_var p (set_in_scope p v sc) = Some v.
Proof.
  unfold set_in_scope. destruct (find_var p sc) eqn:E.
  - apply find_overwrite_same. rewrite E. discriminate.
  - simpl. rewrite String.eqb_refl. reflexivity.
Qed.

Lemma find_set_other (p q : string) (v : Value) (sc : Scope) :
  p <> q -> find_var q (set_in_scope p v sc) = find_var q sc.
Proof.
  intros Hpq. unfold set_in_scope. destruct (find_var p sc).
  - apply find_overwrite_other; exact Hpq.
  - simpl. destruct (String.eqb p q) eqn:E; [apply String.eqb_eq in E; contradiction|].
    reflexivity.
Qed.



Lemma bind_params_scope (ps : list string) :
  forall vs st cur parent,
    scopes st = cur :: parent ->
    bind_params ps vs st = Ok tt (with_scopes st (bind_scope ps vs cur :: parent)).
Proof.
  induction ps as [|p ps IH]; intros vs st cur parent Hs.
  - simpl. rewrite <- Hs. destruct st; reflexivity.
  - destruct vs as [|v vs].
    + simpl. rewrite <- Hs. destruct st; reflexivity.
    + cbn [bind_params bind_scope]. unfold do_var_set, var_set. rewrite Hs. cbn [bind].
      rewrite (IH vs _ (set_in_scope p v cur) parent) by reflexivity.
      reflexivity.
Qed.

Lemma do_var_set_parents (nm : string) (v : Value) (st st' : State) (u : unit) :
  do_var_set nm v st = Ok u st' -> same_parents st st'.
Proof.
  unfold do_var_set, var_set. destruct (scopes st) eqn:E; [discriminate|].
  intros H; inversion H; subst. unfold same_parents. simpl. rewrite E. split; reflexivity.
Qed.

Lemma eval_read_parents (nm : string) (st st' : State) (v : Value) :
  eval_read nm st = Ok v st' -> same_parents st st'.
Proof.
  unfold eval_read. destruct (stdin st); [discriminate|].
  destruct (fgets 255 _) as [got rest]. destruct (strtod (chomp got)) as [val endptr].
  match goal with |- context [if ?b then _ else _] => destruct b end;
    match goal with
    | |- bind ?m _ = _ -> _ => destruct m as [[] ?| | |] eqn:E; cbn [bind]; try discriminate
    end;
    intros H; inversion H; subst; apply do_var_set_parents in E; exact E.
Qed.

Lemma func_set_scopes (nm : string) (ps : list string) (b : stmt) (st st' : State) (u : unit) :
  func_set nm ps b st = Ok u st' -> scopes st' = scopes st.
Proof.
  unfold func_set. destruct (func_get nm st); [discriminate|].
  intros H; inversion H; reflexivity.
Qed.

Lemma arith_state (op : TokenType) (l r : float) (st st' : State) (v : Value) :
  arith op l r st = Ok v st' -> st' = st.
Proof.
  destruct op; simpl; try (intros H; inversion H; reflexivity).
  destruct (r =? 0)%float; intros H; inversion H; reflexivity.
Qed.

Lemma eval_binary_state (op : TokenType) (l r : Value) (st st' : State) (v : Value) :
  eval_binary op l r st = Ok v st' -> st' = st.
Proof.
  unfold eval_binary.
  destruct (TokenType_beq op T_PLUS && (is_str l || is_str r)).
  - intros H; inversion H; reflexivity.
  - destruct (negb (is_num l) || negb (is_num r)); [discriminate|]. apply arith_state.
Qed.

Ltac bind_inv H :=
  match type of H with
  | bind ?m _ = Ok _ _ =>
      let E := fresh "E" in
      destruct m as [? ?| | |] eqn:E; cbn [bind] in H; [|discriminate H..]
  end.

Lemma eval_args_scopes (ev : expr -> State -> Result Value) :
  (forall a st v st', ev a st = Ok v st' -> scopes st' = scopes st) ->
  forall args st vs st',
    eval_args ev args st = Ok vs st' ->
    evaluated_in ev (scopes st) args st vs st' /\ scopes st' = scopes st.
Proof.
  intros Hev. induction args as [|a args IH]; intros st vs st' H; cbn [eval_args] in H.
  - inversion H; subst. split; [constructor|]; reflexivity.
  - bind_inv H. bind_inv H. inversion H; subst.
    pose proof (Hev _ _ _ _ E) as H1. destruct (IH _ _ _ E0) as [H2 H3].
    split; [|congruence].
    econstructor; [reflexivity | exact E |]. rewrite <- H1. exact H2.
Qed.

Lemma eval_list_parents (ev : stmt -> Signal -> State -> Result (Value * Signal)) :
  (forall s sg st r st', ev s sg st = Ok r st' -> same_parents st st') ->
  forall c last sg st r st',
    eval_list ev c last sg st = Ok r st' -> same_parents st st'.
Proof.
  intros Hev. induction c as [|s c IH]; intros last sg st r st' H; cbn [eval_list] in H.
  - inversion H; subst. apply same_parents_refl.
  - bind_inv H. apply Hev in E.
    destruct (returned (snd a)).
    + inversion H; subst. exact E.
    + eapply same_parents_trans; [exact E | eapply IH; exact H].
Qed.

Lemma pop_after_call (st1 st2 st3 : State) :
  same_parents (push_scope st1) st2 -> same_parents st2 st3 ->
  scopes (pop_scope st3) = scopes st1.
Proof.
  intros H12 H23. pose proof (same_parents_trans _ _ _ H12 H23) as [Hl Ht].
  unfold pop_scope. simpl in Hl, Ht.
  destruct (scopes st3) as [|s ss]; [discriminate Hl|]. simpl in *. exact Ht.
Qed.

Lemma eval_scopes (fuel : nat) :
  (forall n st v st', eval_expr fuel n st = Ok v st' -> scopes st' = scopes st) /\
  (forall n sg st r st', eval_stmt fuel n sg st = Ok r st' -> same_parents st st') /\
  (forall cond b res sg st r st',
     eval_while fuel cond b res sg st = Ok r st' -> same_parents st st').
Proof.
  induction fuel as [|fuel (IHe & IHs & IHw)].
  { repeat split; intros; discriminate. }
  split; [|split].
  - intros n st v st' H. destruct n; cbn [eval_expr] in H.
    + inversion H; reflexivity.
    + inversion H; reflexivity.
    + destruct (var_get name0 st); inversion H; reflexivity.
    + bind_inv H. bind_inv H. apply eval_binary_state in H. subst.
      apply IHe in E, E0. congruence.
    + destruct (func_get name0 st) as [f|]; [|discriminate].
      destruct (negb (param_count f =? List.length args)%nat); [discriminate|].
      bind_inv H. destruct (eval_args_scopes _ IHe _ _ _ _ E) as [_ Hs].
      rewrite (bind_params_scope (params f) a (push_scope st0) [] (scopes st0) eq_refl) in H.
      cbn [bind] in H. bind_inv H.
      apply IHs in E0.
      assert (Hp : scopes (pop_scope st1) = scopes st0).
      { eapply pop_after_call; [|exact E0]. split; reflexivity. }
      destruct (returned (snd a0)); inversion H; subst; congruence.
  - intros n sg st r st' H. cbn [eval_stmt] in H.
    destruct (returned sg); [inversion H; subst; apply same_parents_refl|].
    destruct n.
    + eapply eval_list_parents; [exact IHs | exact H].
    + bind_inv H. bind_inv H. inversion H; subst.
      apply IHe in E. apply do_var_set_parents in E0.
      eapply same_parents_trans; [apply same_scopes_parents; exact E | exact E0].
    + bind_inv H. apply IHe in E.
      inversion H; subst. apply same_scopes_parents. destruct a; simpl; exact E.
    + bind_inv H. inversion H; subst. eapply eval_read_parents; exact E.
    + bind_inv H. apply IHe in E. apply same_scopes_parents in E.
      destruct a; try discriminate.
      destruct (negb (num =? 0)%float).
      * eapply same_parents_trans; [exact E | eapply IHs; exact H].
      * destruct else_body.
        -- eapply same_parents_trans; [exact E | eapply IHs; exact H].
        -- inversion H; subst. exact E.
    + eapply IHw; exact H.
    + bind_inv H. inversion H; subst. apply same_scopes_parents.
      eapply func_set_scopes; exact E.
    + destruct body0 as [e|].
      * bind_inv H. inversion H; subst. apply same_scopes_parents. eapply IHe; exact E.
      * cbn [bind] in H. inversion H; subst. apply same_parents_refl.
  - intros cond b res sg st r st' H. cbn [eval_while] in H.
    bind_inv H. apply IHe in E. apply same_scopes_parents in E.
    destruct (negb (is_num a) || (num_of a =? 0)%float || returned sg).
    + inversion H; subst. exact E.
    + bind_inv H. apply IHs in E0.
      destruct (returned (snd a0)).
      * inversion H; subst. eapply same_parents_trans; eauto.
      * eapply same_parents_trans; [exact E|].
        eapply same_parents_trans; [exact E0 | eapply IHw; exact H].
Qed.

(** ** Calls *)








(** C4 (easylang_version2.0.c, [pop_scope] and [eval_expr], case
    [N_EXPR_CALL]).  A call that returns normally leaves the scope chain of
    the caller as it found it: the callee's scope, with every binding made
    in it, is gone, and every name is looked up after the call as before
    it. *)
Theorem scope_isolation :
  forall (fuel : nat) (nm : string) (args : list expr) (st : State) (v : Value) (st' : State),
    eval_expr fuel (N_EXPR_CALL nm args) st = Ok v st' ->
    scopes st' = scopes st /\ forall x, var_get x st' = var_get x st.
Proof.
  intros fuel nm args st v st' H.
  pose proof (proj1 (eval_scopes fuel) _ _ _ _ H) as Hs.
  split; [exact Hs|]. intros x. apply var_get_same_scopes; exact Hs.
Qed.

Lemma scope_isolation_witness :
  eval_expr 6 (N_EXPR_CALL "h" [N_EXPR_VAR "a"]) st_caller = Ok (VAL_NUM 0) st_after_h /\
  var_get "z" st_after_h = None /\ var_get "p" st_after_h = None /\
  var_get "a" st_after_h = Some (VAL_NUM 2).
Proof.
  assert (H : eval_expr 6 (N_EXPR_CALL "h" [N_EXPR_VAR "a"]) st_caller
              = Ok (VAL_NUM 0) st_after_h) by reflexivity.
  pose proof (scope_isolation 6 "h" [N_EXPR_VAR "a"] st_caller (VAL_NUM 0) st_after_h H)
    as [_ Hv].
  split; [exact H|]. rewrite (Hv "z"), (Hv "p"), (Hv "a").
  split; [|split]; reflexivity.
Defined.

(** ** Scenario S1 *)

(** C5 (easylang_version2.0.c, [lex_ident_or_number], [next_token] and the
    parser).  On the text of scenario S1 the interpreter prints nothing and
    exits with status 1 and the diagnostic "Error: Undefined variable a.":
    the dot after [4] is read into the number [4.], and the dot after [a]
    into the identifier [a.], which is not the variable [a] that was set.
    The same text without the two dots prints 14. *)
Theorem scenario_S1_undefined_variable :
  main 100 scenario_S1 EmptyString
    = Finished 1 EmptyString ("Error: Undefined variable a." ++ nl) /\
  main 100 scenario_S1_one_line EmptyString
    = Finished 1 EmptyString ("Error: Undefined variable a." ++ nl) /\
  tokenize 100 (lexer_init "print a.")
    = Some [make_token T_PRINT None; make_token T_IDENTIFIER (Some "a.");
            make_token T_EOF None] /\
  main 100 scenario_S1_without_dots EmptyString = Finished 0 ("14" ++ nl) EmptyString.
Proof. repeat split; vm_compute; reflexivity. Qed.

(** ** String concatenation *)

Lemma eval_binary_node (fuel : nat) (op : TokenType) (l r : expr)
                       (st st1 st2 : State) (lv rv : Value) :
  eval_expr fuel l st = Ok lv st1 ->
  eval_expr fuel r st1 = Ok rv st2 ->
  eval_expr (S fuel) (N_EXPR_BINARY op l r) st = eval_binary op lv rv st2.
Proof. intros Hl Hr. cbn [eval_expr]. rewrite Hl. cbn [bind]. rewrite Hr. reflexivity. Qed.

(** C7, as the code has it (easylang_version2.0.c, [eval_expr], case
    [N_EXPR_BINARY]).  When the operands of [+] evaluate to a number [n] and
    a string [s], in either order, and [n] is not a NaN, the result is the
    string made of the [%g] text of [n] and of [s], in operand order; when
    both evaluate to numbers the result is their sum.  The [%g] text has at most six
    significant digits: it is "42" for 42 and "1.23457e+06" for 1234567. *)
Theorem string_plus_coercion :
  forall (fuel : nat) (l r : expr) (st st1 st2 : State),
    (forall n s,
       PrimFloat.is_nan n = false ->
       eval_expr fuel l st = Ok (VAL_NUM n) st1 ->
       eval_expr fuel r st1 = Ok (VAL_STR s) st2 ->
       eval_expr (S fuel) (N_EXPR_BINARY T_PLUS l r) st
       = Ok (VAL_STR (format_g n ++ s)) st2) /\
    (forall s n,
       PrimFloat.is_nan n = false ->
       eval_expr fuel l st = Ok (VAL_STR s) st1 ->
       eval_expr fuel r st1 = Ok (VAL_NUM n) st2 ->
       eval_expr (S fuel) (N_EXPR_BINARY T_PLUS l r) st
       = Ok (VAL_STR (s ++ format_g n)) st2) /\
    (forall a b,
       eval_expr fuel l st = Ok (VAL_NUM a) st1 ->
       eval_expr fuel r st1 = Ok (VAL_NUM b) st2 ->
       eval_expr (S fuel) (N_EXPR_BINARY T_PLUS l r) st = Ok (VAL_NUM (a + b)) st2) /\
    format_g 42 = "42" /\ format_g 1234567 = "1.23457e+06".
Proof.
  intros fuel l r st st1 st2.
  split; [|split; [|split]].
  - intros n s _ Hl Hr. rewrite (eval_binary_node _ _ _ _ _ _ _ _ _ Hl Hr). reflexivity.
  - intros s n _ Hl Hr. rewrite (eval_binary_node _ _ _ _ _ _ _ _ _ Hl Hr). reflexivity.
  - intros a b Hl Hr. rewrite (eval_binary_node _ _ _ _ _ _ _ _ _ Hl Hr). reflexivity.
  - split; vm_compute; reflexivity.
Qed.

(** Scenario S6: ["value=" + 42]. *)
Lemma string_plus_coercion_witness :
  eval_expr 2 (N_EXPR_BINARY T_PLUS (N_EXPR_STRING "value=") (N_EXPR_NUMBER 42)) st_empty
  = Ok (VAL_STR ("value=" ++ format_g 42)) st_empty.
Proof.
  exact (proj1 (proj2 (string_plus_coercion 1 (N_EXPR_STRING "value=") (N_EXPR_NUMBER 42)
                         st_empty st_empty st_empty))
           "value=" 42%float eq_refl eq_refl eq_refl).
Defined.

(** C7 as stated fails: the text that [+] makes of the number 1234567 is
    "1.23457e+06", which parses back to 1234570, not to 1234567; the
    round-trip text "1234567" is not what the code produces. *)
Lemma g_text_is_not_round_trip :
  eval_expr 2 (N_EXPR_BINARY T_PLUS (N_EXPR_NUMBER 1234567) (N_EXPR_STRING "!")) st_empty
  = Ok (VAL_STR "1.23457e+06!") st_empty /\
  ~ round_trips "1.23457e+06" 1234567 /\
  round_trips "1234567" 1234567.
Proof.
  split; [vm_compute; reflexivity|]. split.
  - unfold round_trips. intros H.
    apply (f_equal (fun x => PrimFloat.eqb x 1234567)) in H.
    vm_compute in H. discriminate H.
  - vm_compute. reflexivity.
Qed.

(** ** Division by zero *)

(** C8, as the code has it (easylang_version2.0.c and easylang.c,
    [eval_expr], case [T_DIV]).  In the second revision, when the operands
    of [/] evaluate to numbers and the right one compares equal to zero, the
    evaluation stops with the one diagnostic "Error: Division by zero" and
    no value, and a program that does so ends with exit status 1.  The
    first revision has no such check: there [/] on two number literals
    always yields a value, the IEEE quotient. *)
Theorem division_by_zero :
  (forall (fuel : nat) (l r : expr) (st st1 st2 : State) (a b : float),
     eval_expr fuel l st = Ok (VAL_NUM a) st1 ->
     eval_expr fuel r st1 = Ok (VAL_NUM b) st2 ->
     (b =? 0)%float = true ->
     eval_expr (S fuel) (N_EXPR_BINARY T_DIV l r) st
     = Exit1 ("Error: Division by zero" ++ nl) st2) /\
  (forall (fuel : nat) (ast : stmt) (source input msg : string) (p : Parser) (st : State),
     parse_program fuel source = POk ast p ->
     eval_stmt fuel ast no_signal (initial_state input) = Exit1 msg st ->
     main fuel source input = Finished 1 (stdout st) msg) /\
  (forall (vars : list (string * Value)) (a b : float),
     V1.eval_expr vars (N_EXPR_BINARY T_DIV (N_EXPR_NUMBER a) (N_EXPR_NUMBER b))
     = VAL_NUM (a / b)).
Proof.
  split; [|split].
  - intros fuel l r st st1 st2 a b Hl Hr Hz.
    rewrite (eval_binary_node _ _ _ _ _ _ _ _ _ Hl Hr).
    unfold eval_binary. cbn. rewrite Hz. reflexivity.
  - intros fuel ast source input msg p st Hp He. unfold main. rewrite Hp, He. reflexivity.
  - intros vars a b. reflexivity.
Qed.

Lemma division_by_zero_witness :
  eval_expr 2 (N_EXPR_BINARY T_DIV (N_EXPR_NUMBER 1) (N_EXPR_NUMBER 0)) st_empty
  = Exit1 ("Error: Division by zero" ++ nl) st_empty.
Proof.
  exact (proj1 division_by_zero 1 (N_EXPR_NUMBER 1) (N_EXPR_NUMBER 0)
           st_empty st_empty st_empty 1%float 0%float eq_refl eq_refl eq_refl).
Defined.

(** C8 as stated fails for the first revision: [1 / 0] evaluates to the
    value infinity there, and no error is raised.  In the second revision
    the program [print 1 / 0] exits with status 1. *)
Lemma first_revision_divides_by_zero :
  V1.eval_expr [] (N_EXPR_BINARY T_DIV (N_EXPR_NUMBER 1) (N_EXPR_NUMBER 0)) = VAL_NUM infinity /\
  main 100 "print 1 / 0" EmptyString
    = Finished 1 EmptyString ("Error: Division by zero" ++ nl).
Proof. split; vm_compute; reflexivity. Qed.

(** ** Evaluator: more fuel, same result *)

Lemma bind_fuel {A B : Type} (m m' : Result A) (k k' : A -> State -> Result B) :
  (m <> OutOfFuel -> m' = m) ->
  (forall a st, k a st <> OutOfFuel -> k' a st = k a st) ->
  bind m k <> OutOfFuel -> bind m' k' = bind m k.
Proof.
  intros Hm Hk H. destruct m; cbn [bind] in *;
    try (rewrite Hm by discriminate; cbn [bind]; auto).
  contradiction.
Qed.

Lemma eval_args_fuel (ev ev' : expr -> State -> Result Value) :
  (forall a st, ev a st <> OutOfFuel -> ev' a st = ev a st) ->
  forall args st, eval_args ev args st <> OutOfFuel -> eval_args ev' args st = eval_args ev args st.
Proof.
  intros Hev. induction args as [|a args IH]; intros st H; [reflexivity|].
  cbn [eval_args] in *. apply bind_fuel; [apply Hev | | exact H].
  intros v st1 H1. apply bind_fuel; [apply IH | | exact H1].
  reflexivity.
Qed.

Lemma eval_list_fuel (ev ev' : stmt -> Signal -> State -> Result (Value * Signal)) :
  (forall s sg st, ev s sg st <> OutOfFuel -> ev' s sg st = ev s sg st) ->
  forall c last sg st,
    eval_list ev c last sg st <> OutOfFuel ->
    eval_list ev' c last sg st = eval_list ev c last sg st.
Proof.
  intros Hev. induction c as [|s c IH]; intros last sg st H; [reflexivity|].
  cbn [eval_list] in *. apply bind_fuel; [apply Hev | | exact H].
  intros r st1 H1. destruct (returned (snd r)); [reflexivity | apply IH; exact H1].
Qed.

Lemma eval_fuel_le (fuel : nat) :
  (forall fuel' n st, (fuel <= fuel')%nat ->
     eval_expr fuel n st <> OutOfFuel -> eval_expr fuel' n st = eval_expr fuel n st) /\
  (forall fuel' n sg st, (fuel <= fuel')%nat ->
     eval_stmt fuel n sg st <> OutOfFuel -> eval_stmt fuel' n sg st = eval_stmt fuel n sg st) /\
  (forall fuel' cond b res sg st, (fuel <= fuel')%nat ->
     eval_while fuel cond b res sg st <> OutOfFuel ->
     eval_while fuel' cond b res sg st = eval_while fuel cond b res sg st).
Proof.
  induction fuel as [|fuel (IHe & IHs & IHw)].
  { repeat split; intros; exfalso; auto. }
  split; [|split].
  - intros [|fuel'] n st Hle H; [lia|]. assert (Hle' : (fuel <= fuel')%nat) by lia.
    destruct n; cbn [eval_expr] in *; try reflexivity.
    + apply bind_fuel; [apply IHe; exact Hle' | | exact H].
      intros lv st1 H1. apply bind_fuel; [apply IHe; exact Hle' | | exact H1].
      reflexivity.
    + destruct (func_get name0 st) as [f|]; [|reflexivity].
      destruct (negb (param_count f =? List.length args)%nat); [reflexivity|].
      apply bind_fuel; [|  | exact H].
      * apply eval_args_fuel. intros a s. apply IHe; exact Hle'.
      * intros vals st1 H1. apply bind_fuel; [reflexivity | | exact H1].
        intros u st2 H2. apply bind_fuel; [apply IHs; exact Hle' | | exact H2].
        reflexivity.
  - intros [|fuel'] n sg st Hle H; [lia|]. assert (Hle' : (fuel <= fuel')%nat) by lia.
    cbn [eval_stmt] in *. destruct (returned sg); [reflexivity|].
    destruct n.
    + apply eval_list_fuel; [|exact H]. intros s sg1 st1. apply IHs; exact Hle'.
    + apply bind_fuel; [apply IHe; exact Hle' | | exact H]. reflexivity.
    + apply bind_fuel; [apply IHe; exact Hle' | | exact H]. reflexivity.
    + reflexivity.
    + apply bind_fuel; [apply IHe; exact Hle' | | exact H].
      intros [x|s|] st1 H1; try reflexivity.
      destruct (negb (x =? 0)%float); [apply IHs; assumption|].
      destruct else_body; [apply IHs; assumption | reflexivity].
    + apply IHw; assumption.
    + reflexivity.
    + destruct body0 as [e|]; [|reflexivity].
      apply bind_fuel; [apply IHe; exact Hle' | | exact H]. reflexivity.
  - intros [|fuel'] cond b res sg st Hle H; [lia|]. assert (Hle' : (fuel <= fuel')%nat) by lia.
    cbn [eval_while] in *.
    apply bind_fuel; [apply IHe; exact Hle' | | exact H].
    intros condv st1 H1.
    destruct (negb (is_num condv) || (num_of condv =? 0)%float || returned sg); [reflexivity|].
    apply bind_fuel; [apply IHs; exact Hle' | | exact H1].
    intros r st2 H2. destruct (returned (snd r)); [reflexivity|].
    apply IHw; assumption.
Qed.

Lemma eval_expr_more_fuel (fuel fuel' : nat) (n : expr) (st : State) (v : Value) (st' : State) :
  (fuel <= fuel')%nat -> eval_expr fuel n st = Ok v st' -> eval_expr fuel' n st = Ok v st'.
Proof.
  intros Hle H. rewrite (proj1 (eval_fuel_le fuel) fuel' n st Hle); [exact H|].
  rewrite H; discriminate.
Qed.




(** ** Return propagation *)









(** * Further properties of the code *)

(** ** Variables *)

Lemma find_var_none_not_in (x : string) (sc : Scope) :
  find_var x sc = None -> ~ In x (List.map fst sc).
Proof.
  induction sc as [|[n v] sc IH]; simpl; intros H; [tauto|].
  destruct (String.eqb n x) eqn:E; [discriminate|].
  apply String.eqb_neq in E. intros [H1|H1]; [contradiction | exact (IH H H1)].
Qed.

Lemma overwrite_names (nm : string) (v : Value) (sc : Scope) :
  List.map fst (overwrite nm v sc) = List.map fst sc.
Proof.
  induction sc as [|[n w] sc IH]; simpl; [reflexivity|].
  destruct (String.eqb n nm); simpl; [reflexivity | rewrite IH; reflexivity].
Qed.

Lemma set_in_scope_unique (nm : string) (v : Value) (sc : Scope) :
  NoDup (List.map fst sc) -> NoDup (List.map fst (set_in_scope nm v sc)).
Proof.
  intros H. unfold set_in_scope. destruct (find_var nm sc) eqn:E.
  - rewrite overwrite_names. exact H.
  - simpl. constructor; [apply find_var_none_not_in; exact E | exact H].
Qed.

(** [var_set] and [var_get] (easylang_version2.0.c).  After an assignment
    the name is looked up as the value assigned, whatever the enclosing
    scopes hold for it, and every other name is looked up as before. *)
Theorem var_set_then_var_get :
  forall (nm : string) (v : Value) (st st' : State),
    var_set nm v st = Some st' ->
    var_get nm st' = Some v /\
    (forall x, x <> nm -> var_get x st' = var_get x st).
Proof.
  intros nm v st st' H. unfold var_set in H.
  destruct (scopes st) as [|cur parent] eqn:E; [discriminate|].
  inversion H; subst; clear H. split.
  - rewrite var_get_chain. cbn. rewrite find_set_same. reflexivity.
  - intros x Hx. rewrite !var_get_chain, E. cbn.
    rewrite find_set_other by congruence. reflexivity.
Qed.

Lemma var_set_then_var_get_witness :
  exists st',
    var_set "x" (VAL_NUM 2) st_two_scopes = Some st' /\
    var_get "x" st' = Some (VAL_NUM 2) /\
    var_get "g" st' = Some (VAL_STR "global").
Proof.
  eexists. split; [reflexivity|].
  destruct (var_set_then_var_get "x" (VAL_NUM 2) st_two_scopes _ eq_refl) as [H1 H2].
  split; [exact H1|]. rewrite (H2 "g"); [reflexivity | discriminate].
Defined.

(** [var_set] (easylang_version2.0.c).  An assignment writes the current
    scope only: the enclosing scopes are left as they are, so popping the
    scope undoes it; it keeps the names of every scope distinct; and it
    fails only when there is no current scope. *)
Theorem var_set_is_local :
  forall (nm : string) (v : Value) (st : State),
    match var_set nm v st with
    | Some st' =>
        scopes (pop_scope st') = scopes (pop_scope st) /\
        (unique_variables st -> unique_variables st') /\
        func_table st' = func_table st /\ stdout st' = stdout st /\ stdin st' = stdin st
    | None => scopes st = []
    end.
Proof.
  intros nm v st. unfold var_set, pop_scope, unique_variables.
  destruct (scopes st) as [|cur parent] eqn:E; [reflexivity|]. cbn.
  split; [reflexivity|]. split; [|repeat split].
  intros H. inversion H; subst. constructor; [apply set_in_scope_unique; assumption | assumption].
Qed.

(** ** The function table *)

Lemma find_func_app (nm : string) (fs gs : list FuncDef) :
  find_func nm (fs ++ gs)
  = match find_func nm fs with Some f => Some f | None => find_func nm gs end.
Proof.
  induction fs as [|f fs IH]; simpl; [reflexivity|].
  destruct (String.eqb (name f) nm); [reflexivity | exact IH].
Qed.

Lemma find_func_none_not_in (nm : string) (fs : list FuncDef) :
  find_func nm fs = None -> ~ In nm (List.map name fs).
Proof.
  induction fs as [|f fs IH]; simpl; intros H; [tauto|].
  destruct (String.eqb (name f) nm) eqn:E; [discriminate|].
  apply String.eqb_neq in E. intros [H1|H1]; [contradiction | exact (IH H H1)].
Qed.

(** [func_set] and [func_get] (easylang_version2.0.c).  Defining a name
    that the table already has stops the program with the diagnostic
    "Function ... already defined" and changes nothing.  Defining a new name
    succeeds: the name is then found with the parameters and body given,
    every other name is found as before, the names of the table stay
    distinct, and scopes and streams are untouched. *)
Theorem func_set_then_func_get :
  forall (nm : string) (ps : list string) (b : stmt) (st : State),
    match func_get nm st with
    | Some _ =>
        func_set nm ps b st = Exit1 ("Error: Function " ++ nm ++ " already defined" ++ nl) st
    | None =>
        exists st',
          func_set nm ps b st = Ok tt st' /\
          func_get nm st' = Some {| name := nm; params := ps; body := b |} /\
          (forall x, x <> nm -> func_get x st' = func_get x st) /\
          (unique_functions st -> unique_functions st') /\
          scopes st' = scopes st /\ stdout st' = stdout st /\ stdin st' = stdin st
    end.
Proof.
  intros nm ps b st. unfold func_set. destruct (func_get nm st) eqn:E; [reflexivity|].
  eexists. split; [reflexivity|]. unfold func_get, unique_functions in *. cbn.
  split; [|split; [|split]].
  - rewrite find_func_app, E. simpl. rewrite String.eqb_refl. reflexivity.
  - intros x Hx. rewrite find_func_app. destruct (find_func x (func_table st)); [reflexivity|].
    simpl. destruct (String.eqb nm x) eqn:E2; [|reflexivity].
    apply String.eqb_eq in E2. congruence.
  - intros H. rewrite List.map_app. simpl.
    apply NoDup_app; [exact H | constructor; [simpl; tauto | constructor] |].
    intros x Hin [H1|[]]. subst x. exact (find_func_none_not_in _ _ E Hin).
  - repeat split.
Qed.

(** ** What every evaluation keeps *)

Section EvaluationKeeps.

(** A relation between the state an evaluation starts in and a state it
    reaches, kept by each primitive change of the state. *)
Variable R : State -> State -> Prop.
Hypothesis R_refl : forall st, R st st.
Hypothesis R_trans : forall a b c, R a b -> R b c -> R a c.
Hypothesis R_var_set : forall nm v st st', var_set nm v st = Some st' -> R st st'.
Hypothesis R_func_set : forall nm ps b st st', func_set nm ps b st = Ok tt st' -> R st st'.
Hypothesis R_print : forall s st, R st (print (s ++ nl) st).
Hypothesis R_fgets :
  forall n st, R st {| scopes := scopes st; func_table := func_table st;
                       stdout := stdout st; stdin := snd (fgets n (stdin st)) |}.
Hypothesis R_push : forall st, R st (push_scope st).
Hypothesis R_pop : forall st, R st (pop_scope st).

Lemma ends_bind {A B : Type} (m : Result A) (k : A -> State -> Result B) (st : State) :
  ends_in R m st -> (forall a s, m = Ok a s -> ends_in R (k a s) s) -> ends_in R (bind m k) st.
Proof.
  intros Hm Hk st' H. destruct m as [a s|e s|s|]; cbn [bind] in H.
  - eapply R_trans; [apply Hm; reflexivity | eapply Hk; [reflexivity | exact H]].
  - apply Hm; exact H.
  - apply Hm; exact H.
  - discriminate H.
Qed.

Lemma ends_ok {A : Type} (a : A) (st : State) : ends_in R (Ok a st) st.
Proof. intros st' H; inversion H; apply R_refl. Qed.

Lemma ends_exit {A : Type} (e : string) (st : State) : ends_in R (@Exit1 A e st) st.
Proof. intros st' H; inversion H; apply R_refl. Qed.

Lemma ends_step {A : Type} (r : Result A) (st st1 : State) :
  R st st1 -> ends_in R r st1 -> ends_in R r st.
Proof. intros H1 H2 st' H. eapply R_trans; [exact H1 | apply H2; exact H]. Qed.

Lemma do_var_set_ends (nm : string) (v : Value) (st : State) :
  ends_in R (do_var_set nm v st) st.
Proof.
  unfold do_var_set. destruct (var_set nm v st) eqn:E; intros st' H; inversion H; subst.
  - eapply R_var_set; exact E.
  - apply R_refl.
Qed.

Lemma func_set_ends (nm : string) (ps : list string) (b : stmt) (st : State) :
  ends_in R (func_set nm ps b st) st.
Proof.
  intros st' H. destruct (func_set nm ps b st) as [[] s|e s|s|] eqn:E; inversion H; subst.
  - eapply R_func_set; exact E.
  - unfold func_set in E. destruct (func_get nm st); inversion E; apply R_refl.
  - unfold func_set in E. destruct (func_get nm st); inversion E.
Qed.

Lemma print_value_keeps (v : Value) (st : State) : R st (print_value v st).
Proof. destruct v; simpl; [apply R_print | apply R_print | apply R_refl]. Qed.

Lemma eval_binary_ends (op : TokenType) (l r : Value) (st : State) :
  ends_in R (eval_binary op l r st) st.
Proof.
  unfold eval_binary.
  destruct (TokenType_beq op T_PLUS && (is_str l || is_str r)); [apply ends_ok|].
  destruct (negb (is_num l) || negb (is_num r)); [apply ends_exit|].
  destruct op; simpl; try apply ends_ok.
  destruct (num_of r =? 0)%float; [apply ends_exit | apply ends_ok].
Qed.

Lemma eval_read_ends (nm : string) (st : State) : ends_in R (eval_read nm st) st.
Proof.
  unfold eval_read. destruct (stdin st) eqn:E; [apply ends_exit|]. rewrite <- E.
  pose proof (R_fgets 255 st) as Hf.
  destruct (fgets 255 (stdin st)) as [got rest]. cbn [snd] in Hf.
  destruct (strtod (chomp got)) as [val endptr].
  eapply ends_step; [exact Hf|].
  match goal with |- context [if ?c then _ else _] => destruct c end;
    (apply ends_bind; [apply do_var_set_ends | intros; apply ends_ok]).
Qed.

Lemma bind_params_ends (ps : list string) :
  forall vs st, ends_in R (bind_params ps vs st) st.
Proof.
  induction ps as [|p ps IH]; intros vs st; [apply ends_ok|].
  destruct vs as [|v vs]; [apply ends_ok|]. cbn [bind_params].
  apply ends_bind; [apply do_var_set_ends | intros; apply IH].
Qed.

Lemma eval_args_ends (ev : expr -> State -> Result Value) :
  (forall a st, ends_in R (ev a st) st) ->
  forall args st, ends_in R (eval_args ev args st) st.
Proof.
  intros Hev. induction args as [|a args IH]; intros st; [apply ends_ok|].
  cbn [eval_args]. apply ends_bind; [apply Hev|]. intros v s _.
  apply ends_bind; [apply IH | intros; apply ends_ok].
Qed.

Lemma eval_list_ends (ev : stmt -> Signal -> State -> Result (Value * Signal)) :
  (forall s sg st, ends_in R (ev s sg st) st) ->
  forall c last sg st, ends_in R (eval_list ev c last sg st) st.
Proof.
  intros Hev. induction c as [|s c IH]; intros last sg st; [apply ends_ok|].
  cbn [eval_list]. apply ends_bind; [apply Hev|]. intros r s' _.
  destruct (returned (snd r)); [apply ends_ok | apply IH].
Qed.

Lemma eval_ends (fuel : nat) :
  (forall n st, ends_in R (eval_expr fuel n st) st) /\
  (forall n sg st, ends_in R (eval_stmt fuel n sg st) st) /\
  (forall cond b res sg st, ends_in R (eval_while fuel cond b res sg st) st).
Proof.
  induction fuel as [|fuel (IHe & IHs & IHw)].
  { repeat split; intros; intros st' H; discriminate H. }
  split; [|split].
  - intros n st. destruct n; cbn [eval_expr]; try apply ends_ok.
    + destruct (var_get name0 st); [apply ends_ok | apply ends_exit].
    + apply ends_bind; [apply IHe|]. intros lv s _.
      apply ends_bind; [apply IHe|]. intros rv s' _. apply eval_binary_ends.
    + destruct (func_get name0 st) as [f|]; [|apply ends_exit].
      destruct (negb (param_count f =? List.length args)%nat); [apply ends_exit|].
      apply ends_bind; [apply eval_args_ends; exact IHe|]. intros vals s _.
      eapply ends_step; [apply R_push|].
      apply ends_bind; [apply bind_params_ends|]. intros u s1 _.
      apply ends_bind; [apply IHs|]. intros r s2 _.
      eapply ends_step; [apply R_pop|].
      destruct (returned (snd r)); apply ends_ok.
  - intros n sg st. cbn [eval_stmt]. destruct (returned sg); [apply ends_ok|].
    destruct n.
    + apply eval_list_ends; exact IHs.
    + apply ends_bind; [apply IHe|]. intros v s _.
      apply ends_bind; [apply do_var_set_ends | intros; apply ends_ok].
    + apply ends_bind; [apply IHe|]. intros v s _.
      eapply ends_step; [apply print_value_keeps | apply ends_ok].
    + apply ends_bind; [apply eval_read_ends | intros; apply ends_ok].
    + apply ends_bind; [apply IHe|]. intros [x|s0|] s _; try apply ends_exit.
      destruct (negb (x =? 0)%float); [apply IHs|].
      destruct else_body; [apply IHs | apply ends_ok].
    + apply IHw.
    + apply ends_bind; [apply func_set_ends | intros; apply ends_ok].
    + destruct body0 as [e|].
      * apply ends_bind; [apply IHe | intros; apply ends_ok].
      * cbn [bind]. apply ends_ok.
  - intros cond b res sg st. cbn [eval_while].
    apply ends_bind; [apply IHe|]. intros condv s _.
    destruct (negb (is_num condv) || (num_of condv =? 0)%float || returned sg);
      [apply ends_ok|].
    apply ends_bind; [apply IHs|]. intros r s1 _.
    destruct (returned (snd r)); [apply ends_ok | apply IHw].
Qed.

End EvaluationKeeps.

Lemma grows_refl (st : State) : grows st st.
Proof.
  repeat split; [exists EmptyString | exists [] | exists EmptyString].
  - clear. induction (stdout st); simpl; congruence.
  - rewrite List.app_nil_r; reflexivity.
  - reflexivity.
Qed.

Lemma string_app_assoc (a b c : string) : (a ++ b) ++ c = a ++ (b ++ c).
Proof. induction a; simpl; congruence. Qed.

Lemma grows_trans (a b c : State) : grows a b -> grows b c -> grows a c.
Proof.
  intros ([o1 H1] & [f1 H2] & [u1 H3]) ([o2 H4] & [f2 H5] & [u2 H6]).
  repeat split.
  - exists (o1 ++ o2). rewrite H4, H1. apply string_app_assoc.
  - exists (f1 ++ f2)%list. rewrite H5, H2. rewrite List.app_assoc. reflexivity.
  - exists (u1 ++ u2). rewrite H3, H6. symmetry. apply string_app_assoc.
Qed.

Lemma grows_same (st st' : State) :
  stdout st' = stdout st -> func_table st' = func_table st -> stdin st' = stdin st ->
  grows st st'.
Proof.
  intros H1 H2 H3. destruct (grows_refl st) as (A & B & C).
  unfold grows. rewrite H1, H2, H3. auto.
Qed.

Lemma fgets_split (n : nat) :
  forall s, fst (fgets n s) ++ snd (fgets n s) = s.
Proof.
  induction n as [|n IH]; intros s; [reflexivity|].
  destruct s as [|c s]; [reflexivity|]. cbn [fgets].
  destruct (Ascii.eqb c LF); [reflexivity|].
  specialize (IH s). destruct (fgets n s) as [l rest]. simpl in *. congruence.
Qed.

Lemma string_app_nil (s : string) : s ++ EmptyString = s.
Proof. induction s; simpl; congruence. Qed.

Lemma grows_var_set (nm : string) (v : Value) (st st' : State) :
  var_set nm v st = Some st' -> grows st st'.
Proof.
  unfold var_set. destruct (scopes st); [discriminate|]. intros H; inversion H.
  apply grows_same; reflexivity.
Qed.

Lemma grows_func_set (nm : string) (ps : list string) (b : stmt) (st st' : State) :
  func_set nm ps b st = Ok tt st' -> grows st st'.
Proof.
  unfold func_set. destruct (func_get nm st); [discriminate|]. intros H; inversion H.
  repeat split; cbn.
  - exists EmptyString. symmetry; apply string_app_nil.
  - eexists; reflexivity.
  - exists EmptyString. reflexivity.
Qed.

Lemma grows_print (x : string) (st : State) : grows st (print x st).
Proof.
  repeat split; cbn.
  - exists x; reflexivity.
  - exists []. rewrite List.app_nil_r; reflexivity.
  - exists EmptyString; reflexivity.
Qed.

Lemma grows_fgets (k : nat) (st : State) :
  grows st {| scopes := scopes st; func_table := func_table st;
              stdout := stdout st; stdin := snd (fgets k (stdin st)) |}.
Proof.
  repeat split; cbn.
  - exists EmptyString. symmetry; apply string_app_nil.
  - exists []. rewrite List.app_nil_r; reflexivity.
  - exists (fst (fgets k (stdin st))). symmetry. apply fgets_split.
Qed.

Lemma grows_push (st : State) : grows st (push_scope st).
Proof. apply grows_same; reflexivity. Qed.

Lemma grows_pop (st : State) : grows st (pop_scope st).
Proof. unfold pop_scope. destruct (scopes st); apply grows_same; reflexivity. Qed.

Lemma eval_grows (fuel : nat) :
  (forall n st, ends_in grows (eval_expr fuel n st) st) /\
  (forall n sg st, ends_in grows (eval_stmt fuel n sg st) st) /\
  (forall cond b res sg st, ends_in grows (eval_while fuel cond b res sg st) st).
Proof.
  exact (eval_ends grows grows_refl grows_trans grows_var_set grows_func_set
           (fun s => grows_print (s ++ nl)) grows_fgets grows_push grows_pop fuel).
Qed.

(** The output, the function table and the input of an evaluation
    ([eval_stmt], [eval_expr] of easylang_version2.0.c).  However a
    statement ends, normally or with [exit(1)], the output written before it
    is still there with more text after it, the function table has its old
    entries in their old places with new ones after them, and the input left
    is a suffix of the input there was.  So a function once defined is never
    removed or replaced: looking its name up gives the same definition after
    any statement. *)
Theorem evaluation_only_appends :
  forall (fuel : nat) (n : stmt) (sg : Signal) (st st' : State),
    final_state (eval_stmt fuel n sg st) = Some st' ->
    grows st st' /\
    (forall nm f, func_get nm st = Some f -> func_get nm st' = Some f).
Proof.
  intros fuel n sg st st' H.
  pose proof (proj1 (proj2 (eval_grows fuel)) n sg st st' H) as G.
  split; [exact G|]. intros nm f Hf. destruct G as (_ & [fs Hfs] & _).
  unfold func_get in *. rewrite Hfs, find_func_app, Hf. reflexivity.
Qed.

Lemma evaluation_only_appends_witness :
  exists st',
    final_state (eval_stmt 5 print_then_define no_signal (state_of [[]] [f_S5])) = Some st' /\
    grows (state_of [[]] [f_S5]) st' /\
    func_get "f" st' = Some f_S5.
Proof.
  eexists. split; [reflexivity|].
  destruct (evaluation_only_appends 5 print_then_define no_signal
              (state_of [[]] [f_S5]) _ eq_refl) as [G F].
  split; [exact G | apply F; reflexivity].
Defined.

Lemma var_set_unique (nm : string) (v : Value) (st st' : State) :
  var_set nm v st = Some st' -> stays_well_named st st'.
Proof.
  unfold var_set, stays_well_named, well_named, unique_functions, unique_variables.
  destruct (scopes st) as [|cur parent]; [discriminate|]. intros H [Hf Hv]; inversion H; cbn.
  split; [exact Hf|]. inversion Hv; subst.
  constructor; [apply set_in_scope_unique; assumption | assumption].
Qed.

Lemma func_set_unique (nm : string) (ps : list string) (b : stmt) (st st' : State) :
  func_set nm ps b st = Ok tt st' -> stays_well_named st st'.
Proof.
  unfold func_set, stays_well_named, well_named, unique_functions, unique_variables, func_get.
  destruct (find_func nm (func_table st)) eqn:E; [discriminate|].
  intros H [Hf Hv]; inversion H; cbn. split; [|exact Hv].
  rewrite List.map_app. simpl.
  apply NoDup_app; [exact Hf | constructor; [simpl; tauto | constructor] |].
  intros x Hin [Hx|[]]. subst x. exact (find_func_none_not_in _ _ E Hin).
Qed.

Lemma eval_well_named (fuel : nat) :
  (forall n st, ends_in stays_well_named (eval_expr fuel n st) st) /\
  (forall n sg st, ends_in stays_well_named (eval_stmt fuel n sg st) st) /\
  (forall cond b res sg st,
     ends_in stays_well_named (eval_while fuel cond b res sg st) st).
Proof.
  apply (eval_ends stays_well_named).
  - intros st H; exact H.
  - intros a b c H1 H2 H; exact (H2 (H1 H)).
  - exact var_set_unique.
  - exact func_set_unique.
  - intros s st H; exact H.
  - intros k st H; exact H.
  - intros st [Hf Hv]. split; [exact Hf|]. constructor; [constructor | exact Hv].
  - intros st [Hf Hv]. unfold pop_scope. destruct (scopes st) as [|c parent] eqn:E;
      [split; assumption|].
    split; [exact Hf|]. unfold unique_variables in *. rewrite E in Hv. cbn.
    inversion Hv; assumption.
Qed.

(** Names stay distinct ([var_set], [func_set], [push_scope], [pop_scope]
    under [eval_stmt], easylang_version2.0.c).  If no scope holds a variable
    twice and the function table holds no name twice, the same is true after
    any statement, however it ends: a scope never gets a second entry for a
    name it has, and the table never gets a second function of a name. *)
Theorem evaluation_keeps_names_distinct :
  forall (fuel : nat) (n : stmt) (sg : Signal) (st st' : State),
    unique_functions st -> unique_variables st ->
    final_state (eval_stmt fuel n sg st) = Some st' ->
    unique_functions st' /\ unique_variables st'.
Proof.
  intros fuel n sg st st' Hf Hv H.
  exact (proj1 (proj2 (eval_well_named fuel)) n sg st st' H (conj Hf Hv)).
Qed.

Lemma evaluation_keeps_names_distinct_witness :
  exists st',
    final_state (eval_stmt 5 print_then_define no_signal st_two_scopes) = Some st' /\
    unique_functions st' /\ unique_variables st'.
Proof.
  eexists. split; [reflexivity|].
  apply (evaluation_keeps_names_distinct 5 print_then_define no_signal st_two_scopes).
  - constructor.
  - repeat constructor; simpl; intuition discriminate.
  - reflexivity.
Defined.

Lemma in_scope_bind {A B : Type} (m : Result A) (k : A -> State -> Result B) :
  writes_in_scope m -> (forall a s, m = Ok a s -> writes_in_scope (k a s)) -> writes_in_scope (bind m k).
Proof. intros Hm Hk. destruct m; cbn [bind]; [apply Hk; reflexivity | exact I | exact Hm | exact I]. Qed.

Lemma do_var_set_in_scope (nm : string) (v : Value) (st : State) :
  scopes st <> [] ->
  exists st', do_var_set nm v st = Ok tt st' /\ scopes st' <> [] /\
              List.length (scopes st') = List.length (scopes st).
Proof.
  intros H. unfold do_var_set, var_set. destruct (scopes st) as [|c p] eqn:E; [congruence|].
  eexists; split; [reflexivity|]. cbn. split; [discriminate | reflexivity].
Qed.

Lemma same_parents_nonempty (st st' : State) :
  same_parents st st' -> scopes st <> [] -> scopes st' <> [].
Proof.
  intros [Hl _] H. destruct (scopes st); [congruence|]. destruct (scopes st'); [discriminate Hl|].
  discriminate.
Qed.

Lemma bind_params_in_scope (ps : list string) :
  forall vs st, scopes st <> [] ->
    writes_in_scope (bind_params ps vs st) /\
    forall u st', bind_params ps vs st = Ok u st' -> scopes st' <> [].
Proof.
  induction ps as [|p ps IH]; intros vs st H.
  { cbn. split; [exact I|]. intros u st' E; inversion E; subst; exact H. }
  destruct vs as [|v vs].
  { cbn. split; [exact I|]. intros u st' E; inversion E; subst; exact H. }
  cbn [bind_params]. destruct (do_var_set_in_scope p v st H) as (s1 & E1 & N1 & _).
  rewrite E1. cbn [bind]. apply IH; exact N1.
Qed.

Lemma eval_read_in_scope (nm : string) (st : State) :
  scopes st <> [] -> writes_in_scope (eval_read nm st).
Proof.
  intros H. unfold eval_read. destruct (stdin st) eqn:E; [exact I|]. rewrite <- E.
  destruct (fgets 255 (stdin st)) as [got rest]. destruct (strtod (chomp got)) as [val endptr].
  match goal with |- context [if ?c then _ else _] => destruct c end;
    (apply in_scope_bind; [|intros; exact I]);
    match goal with |- writes_in_scope (do_var_set ?n ?v ?s) =>
      destruct (do_var_set_in_scope n v s H) as (s1 & E1 & _); rewrite E1; exact I end.
Qed.

Lemma eval_binary_in_scope (op : TokenType) (l r : Value) (st : State) :
  writes_in_scope (eval_binary op l r st).
Proof.
  unfold eval_binary.
  destruct (TokenType_beq op T_PLUS && (is_str l || is_str r)); [exact I|].
  destruct (negb (is_num l) || negb (is_num r)); [exact I|].
  destruct op; simpl; try exact I. destruct (num_of r =? 0)%float; exact I.
Qed.

Lemma eval_args_in_scope (ev : expr -> State -> Result Value) :
  (forall a st, scopes st <> [] -> writes_in_scope (ev a st)) ->
  (forall a st v st', ev a st = Ok v st' -> scopes st' = scopes st) ->
  forall args st, scopes st <> [] -> writes_in_scope (eval_args ev args st).
Proof.
  intros Hd Hs. induction args as [|a args IH]; intros st H; [exact I|].
  cbn [eval_args]. apply in_scope_bind; [apply Hd; exact H|]. intros v s E.
  apply in_scope_bind; [|intros; exact I]. apply IH. rewrite (Hs _ _ _ _ E). exact H.
Qed.

Lemma eval_list_in_scope (ev : stmt -> Signal -> State -> Result (Value * Signal)) :
  (forall s sg st, scopes st <> [] -> writes_in_scope (ev s sg st)) ->
  (forall s sg st r st', ev s sg st = Ok r st' -> same_parents st st') ->
  forall c last sg st, scopes st <> [] -> writes_in_scope (eval_list ev c last sg st).
Proof.
  intros Hd Hs. induction c as [|s c IH]; intros last sg st H; [exact I|].
  cbn [eval_list]. apply in_scope_bind; [apply Hd; exact H|]. intros r s' E.
  destruct (returned (snd r)); [exact I|]. apply IH.
  exact (same_parents_nonempty _ _ (Hs _ _ _ _ _ E) H).
Qed.

Lemma eval_in_scope (fuel : nat) :
  (forall n st, scopes st <> [] -> writes_in_scope (eval_expr fuel n st)) /\
  (forall n sg st, scopes st <> [] -> writes_in_scope (eval_stmt fuel n sg st)) /\
  (forall cond b res sg st, scopes st <> [] -> writes_in_scope (eval_while fuel cond b res sg st)).
Proof.
  induction fuel as [|fuel (IHe & IHs & IHw)]; [repeat split; intros; exact I|].
  destruct (eval_scopes fuel) as (Se & Ss & Sw).
  split; [|split].
  - intros n st H. destruct n; cbn [eval_expr]; try exact I.
    + destruct (var_get name0 st); exact I.
    + apply in_scope_bind; [apply IHe; exact H|]. intros lv s E.
      assert (Hs : scopes s <> []) by (rewrite (Se _ _ _ _ E); exact H).
      apply in_scope_bind; [apply IHe; exact Hs|]. intros rv s' _. apply eval_binary_in_scope.
    + destruct (func_get name0 st) as [f|]; [|exact I].
      destruct (negb (param_count f =? List.length args)%nat); [exact I|].
      apply in_scope_bind; [apply eval_args_in_scope; assumption|]. intros vals s _.
      assert (Hp : scopes (push_scope s) <> []) by (cbn; discriminate).
      destruct (bind_params_in_scope (params f) vals _ Hp) as [D N].
      apply in_scope_bind; [exact D|]. intros u s1 E1.
      apply in_scope_bind; [apply IHs; exact (N _ _ E1)|]. intros r s2 _.
      destruct (returned (snd r)); exact I.
  - intros n sg st H. cbn [eval_stmt]. destruct (returned sg); [exact I|].
    destruct n.
    + apply eval_list_in_scope; assumption.
    + apply in_scope_bind; [apply IHe; exact H|]. intros v s E.
      assert (Hs : scopes s <> []) by (rewrite (Se _ _ _ _ E); exact H).
      destruct (do_var_set_in_scope name0 v s Hs) as (s1 & E1 & _). rewrite E1. exact I.
    + apply in_scope_bind; [apply IHe; exact H|]. intros; exact I.
    + apply in_scope_bind; [apply eval_read_in_scope; exact H|]. intros; exact I.
    + apply in_scope_bind; [apply IHe; exact H|]. intros [x|s0|] s E; try exact I.
      assert (Hs : scopes s <> []) by (rewrite (Se _ _ _ _ E); exact H).
      destruct (negb (x =? 0)%float); [apply IHs; exact Hs|].
      destruct else_body; [apply IHs; exact Hs | exact I].
    + apply IHw; exact H.
    + unfold func_set. destruct (func_get name0 st); exact I.
    + destruct body0 as [e|]; [|exact I].
      apply in_scope_bind; [apply IHe; exact H|]. intros; exact I.
  - intros cond b res sg st H. cbn [eval_while].
    apply in_scope_bind; [apply IHe; exact H|]. intros condv s E.
    assert (Hs : scopes s <> []) by (rewrite (Se _ _ _ _ E); exact H).
    destruct (negb (is_num condv) || (num_of condv =? 0)%float || returned sg); [exact I|].
    apply in_scope_bind; [apply IHs; exact Hs|]. intros r s1 E1.
    destruct (returned (snd r)); [exact I|]. apply IHw.
    exact (same_parents_nonempty _ _ (Ss _ _ _ _ _ E1) Hs).
Qed.

(** [var_set] always has a scope to write to ([eval_stmt], [eval_expr],
    [var_set], [push_scope], [pop_scope] of easylang_version2.0.c).
    [var_set] writes through [current_scope]; with no current scope it goes
    through [global_scope], which then points to no live scope.  Every call
    pops exactly the scope it pushed, so from a state that has a scope, as
    the one in which [main] starts the evaluation after its [push_scope],
    no statement reaches [var_set] without a current scope.  (This is about
    that one write; it says nothing about the frees of the program.) *)
Theorem var_set_always_has_a_scope :
  forall (fuel : nat) (n : stmt) (sg : Signal) (st : State),
    scopes st <> [] -> writes_in_scope (eval_stmt fuel n sg st).
Proof.
  intros fuel n sg st H. exact (proj1 (proj2 (eval_in_scope fuel)) n sg st H).
Qed.

Lemma var_set_always_has_a_scope_witness :
  writes_in_scope (eval_stmt 10 count_to_three no_signal (initial_state EmptyString)) /\
  writes_in_scope (eval_stmt 10 count_to_three no_signal st_two_scopes).
Proof.
  split; apply (var_set_always_has_a_scope 10 count_to_three no_signal); discriminate.
Defined.

(** ** The early-exit signal *)

Lemma eval_list_signal (ev : stmt -> Signal -> State -> Result (Value * Signal)) :
  (forall s sg st v sg' st', ev s sg st = Ok (v, sg') st' ->
     (returned sg' = true -> v = return_val sg') /\ (returned sg' = false -> sg' = sg)) ->
  forall c last sg st v sg' st',
    returned sg = false ->
    eval_list ev c last sg st = Ok (v, sg') st' ->
    (returned sg' = true -> v = return_val sg') /\ (returned sg' = false -> sg' = sg).
Proof.
  intros Hev. induction c as [|s c IH]; intros last sg st v sg' st' Hsg H.
  - cbn [eval_list] in H. inversion H; subst. split; [congruence | reflexivity].
  - cbn [eval_list] in H. destruct (ev s sg st) as [[v0 sg0] s0| | |] eqn:E;
      cbn [bind] in H; try discriminate H. cbn [fst snd] in H.
    destruct (Hev _ _ _ _ _ _ E) as [_ H2].
    destruct (returned sg0) eqn:E0.
    + inversion H; subst. split; [reflexivity | congruence].
    + destruct (IH _ _ _ _ _ _ E0 H) as [A B]. split; [exact A|].
      intros F. rewrite (B F). apply H2. reflexivity.
Qed.

Lemma eval_signal (fuel : nat) :
  (forall n sg st v sg' st', eval_stmt fuel n sg st = Ok (v, sg') st' ->
     (returned sg' = true -> v = return_val sg') /\ (returned sg' = false -> sg' = sg)) /\
  (forall cond b res sg st v sg' st',
     returned sg = false ->
     eval_while fuel cond b res sg st = Ok (v, sg') st' ->
     (returned sg' = true -> v = return_val sg') /\ (returned sg' = false -> sg' = sg)).
Proof.
  induction fuel as [|fuel (IHs & IHw)]; [split; intros; discriminate|].
  split.
  - intros n sg st v sg' st' H. cbn [eval_stmt] in H.
    destruct (returned sg) eqn:Hsg.
    { inversion H; subst. split; [reflexivity | congruence]. }
    destruct n.
    + eapply eval_list_signal; eassumption.
    + bind_inv H. bind_inv H. inversion H; subst. split; [congruence | reflexivity].
    + bind_inv H. inversion H; subst. split; [congruence | reflexivity].
    + bind_inv H. inversion H; subst. split; [congruence | reflexivity].
    + destruct (eval_expr fuel cond st) as [a s| | |]; cbn [bind] in H; try discriminate H.
      destruct a as [x|s0|]; try discriminate H.
      destruct (negb (x =? 0)%float); [eapply IHs; exact H|].
      destruct else_body; [eapply IHs; exact H|].
      inversion H; subst. split; [congruence | reflexivity].
    + eapply IHw; eassumption.
    + bind_inv H. inversion H; subst. split; [congruence | reflexivity].
    + destruct body0 as [e|].
      * bind_inv H. inversion H; subst. split; [reflexivity | discriminate].
      * cbn [bind] in H. inversion H; subst. split; [reflexivity | discriminate].
  - intros cond b res sg st v sg' st' Hsg H. cbn [eval_while] in H.
    destruct (eval_expr fuel cond st) as [a s| | |]; cbn [bind] in H; try discriminate H.
    rewrite Hsg in H.
    destruct (negb (is_num a) || (num_of a =? 0)%float || false).
    { inversion H; subst. split; [congruence | reflexivity]. }
    destruct (eval_stmt fuel b sg s) as [[v0 sg0] s0| | |] eqn:E; cbn [bind] in H;
      try discriminate H. cbn [fst snd] in H.
    destruct (IHs _ _ _ _ _ _ E) as [_ H2].
    destruct (returned sg0) eqn:E0.
    + inversion H; subst. split; [reflexivity | congruence].
    + destruct (IHw _ _ _ _ _ _ _ _ E0 H) as [A B]. split; [exact A|].
      intros F. rewrite (B F). apply H2. reflexivity.
Qed.

(** The [returned] flag and [return_val] ([eval_stmt],
    easylang_version2.0.c).  A statement that ends with the flag set has the
    return value as its own value; a statement that ends with the flag clear
    has left flag and return value as they were; and a statement started
    with the flag set does nothing at all. *)
Theorem return_signal_discipline :
  forall (fuel : nat) (n : stmt) (sg : Signal) (st : State)
         (v : Value) (sg' : Signal) (st' : State),
    eval_stmt fuel n sg st = Ok (v, sg') st' ->
    (returned sg' = true -> v = return_val sg') /\
    (returned sg' = false -> sg' = sg) /\
    (returned sg = true -> sg' = sg /\ st' = st).
Proof.
  intros fuel n sg st v sg' st' H.
  destruct (proj1 (eval_signal fuel) _ _ _ _ _ _ H) as [A B].
  split; [exact A|]. split; [exact B|].
  intros Hsg. destruct fuel as [|fuel]; [discriminate H|].
  cbn [eval_stmt] in H. rewrite Hsg in H. inversion H; subst. split; reflexivity.
Qed.

Lemma return_signal_discipline_witness :
  exists sg' st',
    eval_stmt 6 early_return no_signal st_empty = Ok (VAL_NUM 3, sg') st' /\
    returned sg' = true /\ return_val sg' = VAL_NUM 3 /\ stdout st' = EmptyString.
Proof.
  eexists. eexists. split; [vm_compute; reflexivity|].
  split; [reflexivity|]. split; [|reflexivity].
  symmetry.
  apply (proj1 (return_signal_discipline 6 early_return no_signal st_empty _ _ _ eq_refl)).
  reflexivity.
Defined.

(** ** Expressions *)

Lemma eval_binary_ends_here (op : TokenType) (l r : Value) (st : State) :
  (exists v, eval_binary op l r st = Ok v st) \/ (exists e, eval_binary op l r st = Exit1 e st).
Proof.
  unfold eval_binary.
  destruct (TokenType_beq op T_PLUS && (is_str l || is_str r)); [left; eexists; reflexivity|].
  destruct (negb (is_num l) || negb (is_num r)); [right; eexists; reflexivity|].
  destruct op; simpl; try (left; eexists; reflexivity).
  destruct (num_of r =? 0)%float; [right | left]; eexists; reflexivity.
Qed.

(** Expressions without a call ([eval_expr], easylang_version2.0.c).  The
    evaluation of an expression in which no function is called always ends,
    within as many nested calls of [eval_expr] as the expression is high,
    and leaves the state as it was: no output, no input, no variable
    written.  It ends either with a value or with [exit(1)]. *)
Theorem call_free_expression_is_pure :
  forall (n : expr) (fuel : nat) (st : State),
    call_free n = true -> (height n <= fuel)%nat ->
    (exists v, eval_expr fuel n st = Ok v st) \/
    (exists e, eval_expr fuel n st = Exit1 e st).
Proof.
  induction n as [x|s|nm|op l IHl r IHr|nm args]; intros fuel st Hc Hh;
    (destruct fuel as [|fuel]; [cbn in Hh; lia|]); cbn [eval_expr].
  - left; eexists; reflexivity.
  - left; eexists; reflexivity.
  - destruct (var_get nm st); [left | right]; eexists; reflexivity.
  - cbn in Hc, Hh. apply andb_true_iff in Hc. destruct Hc as [Hl Hr].
    destruct (IHl fuel st Hl ltac:(lia)) as [[lv E]|[e E]]; rewrite E; cbn [bind];
      [|right; eexists; reflexivity].
    destruct (IHr fuel st Hr ltac:(lia)) as [[rv E']|[e E']]; rewrite E'; cbn [bind];
      [|right; eexists; reflexivity].
    apply eval_binary_ends_here.
  - discriminate Hc.
Qed.

Lemma call_free_expression_is_pure_witness :
  (exists v, eval_expr 4 no_call_expr st_two_scopes = Ok v st_two_scopes) \/
  (exists e, eval_expr 4 no_call_expr st_two_scopes = Exit1 e st_two_scopes).
Proof.
  apply (call_free_expression_is_pure no_call_expr 4 st_two_scopes).
  - reflexivity.
  - cbn. lia.
Defined.

(** The kinds of value of a binary operation (the [N_EXPR_BINARY] case of
    [eval_expr], easylang_version2.0.c).  A binary operation that yields a
    value leaves the state alone.  Its value is a string exactly when the
    operator is [+] and an operand is a string; for every other operator of
    the language it is a number, and for a comparison or [and] that number
    is 0 or 1. *)
Theorem binary_result_kinds :
  forall (op : TokenType) (l r : Value) (st : State) (v : Value) (st' : State),
    eval_binary op l r st = Ok v st' ->
    st' = st /\
    (is_str v = true <-> op = T_PLUS /\ (is_str l || is_str r) = true) /\
    (is_operator op = true -> is_str v = false -> is_num v = true) /\
    (is_test op = true -> v = VAL_NUM 1 \/ v = VAL_NUM 0).
Proof.
  intros op l r st v st' H. unfold eval_binary in H.
  destruct (TokenType_beq op T_PLUS) eqn:Eop.
  - apply internal_TokenType_dec_bl in Eop. subst op. cbn [andb] in H.
    destruct (is_str l || is_str r) eqn:Es.
    + inversion H; subst. repeat split; try discriminate; auto.
    + destruct (negb (is_num l) || negb (is_num r)); [discriminate|].
      cbn in H. inversion H; subst. repeat split; try discriminate; auto.
      intros [_ F]; discriminate F.
  - cbn [andb] in H. destruct (negb (is_num l) || negb (is_num r)); [discriminate|].
    assert (Hne : op <> T_PLUS) by (intros ->; discriminate Eop).
    destruct op; cbn in H; try (destruct (num_of r =? 0)%float; try discriminate H);
      inversion H; subst; unfold bool_num;
      (split; [reflexivity|]); (split; [split; [discriminate | intros [F _]; congruence]|]);
      (split; [intros; try reflexivity; discriminate|]); intros F; try discriminate F;
      match goal with |- context [if ?c then _ else _] => destruct c end; auto.
Qed.

Lemma binary_result_kinds_witness :
  (is_str (VAL_STR "a1") = true <->
   T_PLUS = T_PLUS /\ (is_str (VAL_STR "a") || is_str (VAL_NUM 1)) = true).
Proof.
  apply (binary_result_kinds T_PLUS (VAL_STR "a") (VAL_NUM 1) st_empty (VAL_STR "a1") st_empty).
  vm_compute. reflexivity.
Defined.

(** A condition that is not a number (the [N_STMT_IF] and [N_STMT_WHILE]
    cases of [eval_stmt], easylang_version2.0.c).  When the condition
    evaluates to a string or to no value, [if] stops the program with
    "Condition must be numeric", whereas [while] ends silently as if the
    condition were false: its body is not run and its value is none. *)
Theorem non_numeric_condition :
  forall (fuel : nat) (cond : expr) (b : stmt) (e : option stmt)
         (sg : Signal) (st : State) (condv : Value) (st1 : State),
    returned sg = false ->
    eval_expr fuel cond st = Ok condv st1 ->
    is_num condv = false ->
    eval_stmt (S fuel) (N_STMT_IF cond b e) sg st
      = Exit1 ("Error: Condition must be numeric" ++ nl) st1 /\
    eval_stmt (S (S fuel)) (N_STMT_WHILE cond b) sg st = Ok (VAL_NONE, sg) st1.
Proof.
  intros fuel cond b e sg st condv st1 Hsg Hc Hn. split.
  - cbn [eval_stmt]. rewrite Hsg, Hc. cbn [bind].
    destruct condv; [discriminate Hn | reflexivity | reflexivity].
  - pose proof (eval_expr_more_fuel fuel (S fuel) cond st condv st1 ltac:(lia) Hc) as Hc'.
    change (eval_stmt (S (S fuel)) (N_STMT_WHILE cond b) sg st)
      with (if returned sg then Ok (value_dup (return_val sg), sg) st
            else eval_while (S fuel) cond b VAL_NONE sg st).
    rewrite Hsg. cbn [eval_while]. rewrite Hc. cbn [bind]. rewrite Hn. reflexivity.
Qed.

Lemma non_numeric_condition_witness :
  eval_stmt 2 (N_STMT_IF (N_EXPR_STRING "yes") (N_STMT_LIST []) None) no_signal st_empty
    = Exit1 ("Error: Condition must be numeric" ++ nl) st_empty /\
  eval_stmt 3 (N_STMT_WHILE (N_EXPR_STRING "yes") (N_STMT_LIST [])) no_signal st_empty
    = Ok (VAL_NONE, no_signal) st_empty.
Proof.
  apply (non_numeric_condition 1 (N_EXPR_STRING "yes") (N_STMT_LIST []) None no_signal
           st_empty (VAL_STR "yes") st_empty); reflexivity.
Defined.

(** ** [read] *)

Lemma var_set_get_same (nm : string) (v : Value) (st st' : State) :
  var_set nm v st = Some st' ->
  var_get nm st' = Some v /\ func_table st' = func_table st /\
  stdout st' = stdout st /\ stdin st' = stdin st.
Proof.
  unfold var_set. destruct (scopes st) as [|cur parent]; [discriminate|].
  intros H; inversion H; subst. rewrite var_get_chain. cbn. rewrite find_set_same.
  repeat split.
Qed.

Lemma fgets_line (n : nat) :
  forall s,
    (String.length (fst (fgets n s)) <= n)%nat /\
    ((exists before, fst (fgets n s) = before ++ String LF EmptyString /\
                     has_lf before = false) \/
     (has_lf (fst (fgets n s)) = false /\
      (String.length (fst (fgets n s)) = n \/ snd (fgets n s) = EmptyString))).
Proof.
  induction n as [|n IH]; intros s.
  { cbn. split; [lia|]. right. split; [reflexivity | left; reflexivity]. }
  destruct s as [|c s].
  { cbn. split; [lia|]. right. split; [reflexivity | right; reflexivity]. }
  cbn [fgets]. destruct (Ascii.eqb c LF) eqn:Ec.
  - apply Ascii.eqb_eq in Ec. subst c. cbn. split; [lia|]. left. exists EmptyString.
    split; reflexivity.
  - specialize (IH s). destruct (fgets n s) as [l rest]. cbn [fst snd] in *.
    destruct IH as [Hlen [[before [Hb Hn]]|[Hn Hend]]].
    + cbn. split; [lia|]. left. exists (String c before). cbn. rewrite Hb, Ec, Hn.
      split; reflexivity.
    + cbn. split; [lia|]. right. rewrite Ec, Hn. split; [reflexivity|].
      destruct Hend as [H|H]; [left; lia | right; exact H].
Qed.

Lemma fgets_nonempty (n : nat) (s : string) :
  s <> EmptyString -> (1 <= String.length (fst (fgets (S n) s)))%nat.
Proof.
  destruct s as [|c s]; [congruence|]. intros _. cbn [fgets].
  destruct (Ascii.eqb c LF); [cbn; lia|]. destruct (fgets n s). cbn. lia.
Qed.

(** [read] (the [N_STMT_READ] case of [eval_stmt], easylang_version2.0.c).
    At the end of the input [read] stops the program with "Input error".
    Otherwise it takes one line off the front of the input: at most 255
    characters, ending with the first line feed if there is one among them.
    The variable named is then bound, in the current scope, to the value of
    the statement, which is the line without its line feed, as a number if
    [strtod] reads all of it and as a string if not.  Nothing is printed
    and no function is defined. *)
Theorem read_takes_one_line :
  forall (nm : string) (st : State),
    scopes st <> [] ->
    match stdin st with
    | EmptyString => eval_read nm st = Exit1 ("Input error" ++ nl) st
    | _ =>
        exists (v : Value) (st' : State) (ln : string),
          eval_read nm st = Ok v st' /\
          stdin st = ln ++ stdin st' /\
          (1 <= String.length ln <= 255)%nat /\
          ((exists before, ln = before ++ String LF EmptyString /\ has_lf before = false) \/
           (has_lf ln = false /\ (String.length ln = 255%nat \/ stdin st' = EmptyString))) /\
          var_get nm st' = Some v /\
          v = (if (snd (strtod (chomp ln)) =? 0)%nat
                    || (snd (strtod (chomp ln)) <? String.length (chomp ln))%nat
               then VAL_STR (chomp ln) else VAL_NUM (fst (strtod (chomp ln)))) /\
          stdout st' = stdout st /\ func_table st' = func_table st
    end.
Proof.
  intros nm st Hs. unfold eval_read. destruct (stdin st) as [|c0 s0] eqn:E; [reflexivity|].
  rewrite <- E.
  assert (Hne : stdin st <> EmptyString) by (rewrite E; discriminate).
  pose proof (fgets_split 255 (stdin st)) as Hsplit.
  pose proof (fgets_line 255 (stdin st)) as [Hlen Hline].
  pose proof (fgets_nonempty 254 (stdin st) Hne) as Hpos.
  destruct (fgets 255 (stdin st)) as [got rest]. cbn [fst snd] in *.
  destruct (strtod (chomp got)) as [val endptr] eqn:Et.
  match goal with |- context [if ?c then _ else _] => destruct c eqn:Ec end;
    match goal with |- context [do_var_set ?n ?v ?s] =>
      destruct (do_var_set_in_scope n v s Hs) as (s1 & E1 & _); rewrite E1; cbn [bind];
      unfold do_var_set in E1; destruct (var_set n v s) as [s2|] eqn:E2; [|discriminate E1];
      inversion E1; subst s2; destruct (var_set_get_same _ _ _ _ E2) as (G & F & O & I)
    end;
    eexists; exists s1, got; (split; [reflexivity|]); rewrite I; cbn [stdin];
    (split; [symmetry; exact Hsplit|]); (split; [lia|]); (split; [exact Hline|]);
    (split; [exact G|]); (split; [|split; assumption]).
  - rewrite Et. cbn [fst snd]. rewrite Ec. reflexivity.
  - rewrite Et. cbn [fst snd]. rewrite Ec. reflexivity.
Qed.

Lemma read_takes_one_line_witness :
  exists (v : Value) (st' : State) (ln : string),
    eval_read "x" st_input = Ok v st' /\
    stdin st_input = ln ++ stdin st' /\
    (1 <= String.length ln <= 255)%nat /\
    ((exists before, ln = before ++ String LF EmptyString /\ has_lf before = false) \/
     (has_lf ln = false /\ (String.length ln = 255%nat \/ stdin st' = EmptyString))) /\
    var_get "x" st' = Some v /\
    v = (if (snd (strtod (chomp ln)) =? 0)%nat
              || (snd (strtod (chomp ln)) <? String.length (chomp ln))%nat
         then VAL_STR (chomp ln) else VAL_NUM (fst (strtod (chomp ln)))) /\
    stdout st' = stdout st_input /\ func_table st' = func_table st_input.
Proof.
  apply (read_takes_one_line "x" st_input). discriminate.
Defined.

(** * Further properties of the lexer *)

Lemma numeric_scan_closed (s : string) :
  forall (numeric : bool) (dots : nat),
    numeric_scan s numeric dots
    = numeric && digits_and_dots s
      && ((count_dots s =? 0)%nat || (dots + count_dots s <=? 1)%nat).
Proof.
  induction s as [|c s IH]; intros numeric dots.
  { cbn. destruct numeric; reflexivity. }
  cbn [numeric_scan digits_and_dots count_dots]. destruct (Ascii.eqb c ".") eqn:Ec.
  - rewrite IH. rewrite orb_true_r. cbn [andb Nat.add].
    destruct dots as [|dots].
    + cbn [Nat.ltb Nat.leb Nat.add Nat.eqb]. destruct numeric; [|reflexivity].
      destruct (digits_and_dots s); [|reflexivity]. cbn [andb orb].
      destruct (count_dots s); reflexivity.
    + replace (1 <? S (S dots))%nat with true by (symmetry; apply Nat.ltb_lt; lia).
      cbn [andb]. replace (S dots + S (count_dots s) <=? 1)%nat with false
        by (symmetry; apply Nat.leb_gt; lia).
      cbn [Nat.eqb orb]. rewrite andb_false_r. reflexivity.
  - rewrite IH. rewrite orb_false_r. cbn [negb andb Nat.add].
    destruct (isdigit c); cbn [negb andb]; [reflexivity|].
    rewrite andb_false_r. reflexivity.
Qed.

(** Number or identifier ([lex_ident_or_number], both revisions).  The
    lexeme is the text the function consumed.  It becomes a number token
    exactly when it consists of digits and dots with at most one dot, and the
    token then carries the lexeme as it is; otherwise it becomes an
    identifier token carrying the lexeme in lower case.  So [1.2.3], [1e5]
    and [0x10] are identifiers, and a lone dot is a number. *)
Theorem number_or_identifier :
  forall (lx : Lexer) (tk : Token) (lx' : Lexer),
    lex_ident_or_number lx = Some (tk, lx') ->
    tk = if digits_and_dots (consumed lx lx') && (count_dots (consumed lx lx') <=? 1)%nat
         then make_token T_NUMBER (Some (consumed lx lx'))
         else make_token T_IDENTIFIER (Some (lower (consumed lx lx'))).
Proof.
  intros lx tk lx' H. unfold lex_ident_or_number in H.
  destruct (ident_loop (S (remaining lx)) lx) as [lx1|]; [|discriminate H].
  rewrite numeric_scan_closed in H. cbn [andb Nat.add] in H.
  unfold consumed. unfold substr_alloc in H.
  assert (E : forall n, ((n =? 0)%nat || (n <=? 1)%nat) = (n <=? 1)%nat)
    by (intros [|[|n]]; reflexivity).
  rewrite E in H.
  destruct (digits_and_dots (substring (pos lx) (pos lx1 - pos lx) (src lx))
            && (count_dots (substring (pos lx) (pos lx1 - pos lx) (src lx)) <=? 1)%nat) eqn:En;
    inversion H; subst; rewrite En; reflexivity.
Qed.

Lemma number_or_identifier_witness :
  make_token T_IDENTIFIER (Some "1.2.x")
  = if digits_and_dots (consumed (lexer_init "1.2.X+1") {| src := "1.2.X+1"; pos := 5; line := 1 |})
       && (count_dots (consumed (lexer_init "1.2.X+1")
                                {| src := "1.2.X+1"; pos := 5; line := 1 |}) <=? 1)%nat
    then make_token T_NUMBER
           (Some (consumed (lexer_init "1.2.X+1") {| src := "1.2.X+1"; pos := 5; line := 1 |}))
    else make_token T_IDENTIFIER
           (Some (lower (consumed (lexer_init "1.2.X+1")
                                  {| src := "1.2.X+1"; pos := 5; line := 1 |}))).
Proof.
  apply (number_or_identifier (lexer_init "1.2.X+1")). vm_compute. reflexivity.
Defined.

Lemma tolower_idem (c : ascii) : tolower (tolower c) = tolower c.
Proof. destruct c as [[] [] [] [] [] [] [] []]; reflexivity. Qed.

Lemma lower_idem (s : string) : lower (lower s) = lower s.
Proof. induction s as [|c s IH]; cbn; [reflexivity|]. rewrite tolower_idem, IH. reflexivity. Qed.

Lemma digit_not_alpha (c : ascii) :
  isdigit c || Ascii.eqb c "." = true -> isalpha (tolower c) = false.
Proof. destruct c as [[] [] [] [] [] [] [] []]; vm_compute; congruence. Qed.

Lemma keyword_first_alpha (s : string) (k : TokenType) :
  keyword s = Some k -> exists c s', s = String c s' /\ isalpha c = true.
Proof.
  unfold keyword.
  repeat match goal with
         | |- context [String.eqb s ?l] =>
             let E := fresh "E" in
             destruct (String.eqb s l) eqn:E;
             [apply String.eqb_eq in E; subst s; intros _; do 2 eexists; split; reflexivity|]
         end.
  discriminate.
Qed.

Lemma peekc_get (lx : Lexer) :
  peekc lx <> NUL -> String.get (pos lx) (src lx) = Some (peekc lx).
Proof. unfold peekc. destruct (String.get (pos lx) (src lx)); [reflexivity | congruence]. Qed.

Lemma lex_ident_or_number_closed :
  forall (lx : Lexer) (tk : Token) (lx' : Lexer),
    lex_ident_or_number lx = Some (tk, lx') ->
    tk = if digits_and_dots (consumed lx lx') && (count_dots (consumed lx lx') <=? 1)%nat
         then make_token T_NUMBER (Some (consumed lx lx'))
         else make_token T_IDENTIFIER (Some (lower (consumed lx lx'))).
Proof.
  intros lx tk lx' H. unfold lex_ident_or_number in H.
  destruct (ident_loop (S (remaining lx)) lx) as [lx1|]; [|discriminate H].
  rewrite numeric_scan_closed in H. cbn [andb Nat.add] in H.
  unfold consumed. unfold substr_alloc in H.
  assert (E : forall n, ((n =? 0)%nat || (n <=? 1)%nat) = (n <=? 1)%nat)
    by (intros [|[|n]]; reflexivity).
  rewrite E in H.
  destruct (digits_and_dots (substring (pos lx) (pos lx1 - pos lx) (src lx))
            && (count_dots (substring (pos lx) (pos lx1 - pos lx) (src lx)) <=? 1)%nat) eqn:En;
    inversion H; subst; rewrite En; reflexivity.
Qed.

Lemma lex_ident_or_number_text (lx : Lexer) (tk : Token) (lx' : Lexer) :
  lex_ident_or_number lx = Some (tk, lx') ->
  (type tk = T_NUMBER /\ well_formed_token tk) \/
  (exists s, tk = make_token T_IDENTIFIER (Some (lower s)) /\
             (peekc lx <> NUL ->
              isalnum (peekc lx) || Ascii.eqb (peekc lx) "_" || Ascii.eqb (peekc lx) "." = true ->
              String.get 0 s = Some (peekc lx))).
Proof.
  intros H. pose proof (lex_ident_or_number_closed lx tk lx' H) as Hk.
  destruct (digits_and_dots (consumed lx lx')) eqn:Ed; cbn [andb] in Hk.
  - destruct (count_dots (consumed lx lx') <=? 1)%nat eqn:Ec.
    + left. subst tk. split; [reflexivity|]. cbn. eexists. split; [reflexivity|].
      split; [exact Ed | apply Nat.leb_le; exact Ec].
    + right. exists (consumed lx lx'). split; [exact Hk|]. intros Hn Hi.
      destruct (lex_ident_or_number_total lx) as (tk1 & lx1 & H1 & _ & _ & [Hs _] & H5).
      rewrite H in H1. inversion H1; subst tk1 lx1.
      pose proof (remaining_lt_pos lx lx' Hs (H5 Hn Hi)) as Hp. unfold consumed.
      replace (pos lx' - pos lx)%nat with (S (pos lx' - pos lx - 1)) by lia.
      apply substring_get0. apply peekc_get; exact Hn.
  - right. exists (consumed lx lx'). split; [exact Hk|]. intros Hn Hi.
    destruct (lex_ident_or_number_total lx) as (tk1 & lx1 & H1 & _ & _ & [Hs _] & H5).
    rewrite H in H1. inversion H1; subst tk1 lx1.
    pose proof (remaining_lt_pos lx lx' Hs (H5 Hn Hi)) as Hp. unfold consumed.
    replace (pos lx' - pos lx)%nat with (S (pos lx' - pos lx - 1)) by lia.
    apply substring_get0. apply peekc_get; exact Hn.
Qed.

Lemma next_token_at_text (lx : Lexer) :
  match next_token_at lx with
  | Some (tk, _) => well_formed_token tk
  | None => True
  end.
Proof.
  unfold next_token_at.
  destruct (Ascii.eqb (peekc lx) NUL) eqn:E0; [exact eq_refl|].
  apply Ascii.eqb_neq in E0.
  destruct (Ascii.eqb (peekc lx) DQUOTE).
  { unfold lex_string. destruct (lex_string_loop _ _); [|exact I].
    cbn. eexists; reflexivity. }
  destruct (isalpha (peekc lx) || Ascii.eqb (peekc lx) "_") eqn:E1.
  { destruct (lex_ident_or_number lx) as [[t lx']|] eqn:E; [|exact I].
    destruct (lex_ident_or_number_text lx t lx' E) as [[Ht Hw]|[s [Ht _]]].
    - rewrite Ht. exact Hw.
    - subst t. cbn [type text]. destruct (keyword (lower s)) eqn:Ek.
      + revert Ek. unfold keyword.
        repeat match goal with
               | |- context [if ?b then _ else _] => destruct b
               end; intros Ek; inversion Ek; exact eq_refl.
      + cbn. eexists. split; [reflexivity|]. split; [apply lower_idem | exact Ek]. }
  destruct (isdigit (peekc lx) || Ascii.eqb (peekc lx) ".") eqn:E2.
  { destruct (lex_ident_or_number lx) as [[t lx']|] eqn:E; [|exact I].
    destruct (lex_ident_or_number_text lx t lx' E) as [[Ht Hw]|[s [Ht Hg]]]; [exact Hw|].
    subst t. cbn. eexists. split; [reflexivity|]. split; [apply lower_idem|].
    destruct (keyword (lower s)) as [k|] eqn:Ek; [|reflexivity]. exfalso.
    destruct (keyword_first_alpha _ _ Ek) as (c & s' & Hs & Ha).
    assert (Hi : isalnum (peekc lx) || Ascii.eqb (peekc lx) "_" || Ascii.eqb (peekc lx) "." = true).
    { unfold isalnum. apply orb_true_iff in E2. destruct E2 as [Hd|Hd]; rewrite Hd;
        rewrite ?orb_true_r; reflexivity. }
    pose proof (lower_get0 _ _ (Hg E0 Hi)) as Hl. rewrite Hs in Hl. cbn in Hl.
    inversion Hl; subst c. rewrite (digit_not_alpha _ E2) in Ha. discriminate Ha. }
  unfold single, lex_relop, lex_eqop.
  repeat match goal with
         | |- context [if ?b then _ else _] => destruct b
         end; exact eq_refl.
Qed.

(** The text of a token ([next_token], [lex_string], [lex_ident_or_number],
    [make_token] of easylang_version2.0.c).  Every call of [next_token]
    returns, and only identifier, number and string tokens carry a text.
    The text of an identifier is in lower case and is not a keyword; the
    text of a number consists of digits and at most one dot.  So the parser,
    which copies the text of these three kinds of token with [strdup],
    never copies through a null pointer. *)
Theorem token_text_discipline :
  forall lx : Lexer,
    match next_token lx with
    | Some (tk, _) => well_formed_token tk
    | None => False
    end.
Proof.
  intros lx. destruct (next_token_step lx) as (tk & lx' & H & _).
  rewrite H. unfold next_token in H.
  destruct (skip_blanks_total (S (remaining lx)) lx) as ([[nl_tk|] lx1] & H1 & _ & H3); [lia| |];
    rewrite H1 in H; cbn [fst snd] in *.
  - inversion H; subst. destruct tk as [ty tx]. cbn in H3. destruct H3 as [Hty _]. subst ty.
    clear - H1. revert H1. generalize (S (remaining lx)). intros fuel. revert lx.
    induction fuel as [|fuel IH]; intros lx H1; [discriminate H1|]. cbn [skip_blanks] in H1.
    repeat match type of H1 with
           | (if ?b then _ else _) = _ => destruct b
           end; try (inversion H1; exact eq_refl); try (eapply IH; exact H1).
    destruct (skip_comment lx); [eapply IH; exact H1 | discriminate H1].
  - pose proof (next_token_at_text lx1) as Ht. rewrite H in Ht. exact Ht.
Qed.

(** ** How the lexer moves *)

Section LexerMoves.

(** A relation between lexers that every [getc_l] keeps. *)
Variable R : Lexer -> Lexer -> Prop.
Hypothesis R_refl : forall lx, R lx lx.
Hypothesis R_trans : forall a b c, R a b -> R b c -> R a c.
Hypothesis R_getc : forall lx, R lx (snd (getc_l lx)).

Lemma skip_comment_loop_moves (fuel : nat) :
  forall lx lx', skip_comment_loop fuel lx = Some lx' -> R lx lx'.
Proof.
  induction fuel as [|fuel IH]; intros lx lx' H; [discriminate H|].
  cbn [skip_comment_loop] in H.
  destruct (Ascii.eqb (peekc lx) NUL); [inversion H; apply R_refl|].
  destruct (Ascii.eqb (fst (getc_l lx)) LF).
  - inversion H; subst. apply R_getc.
  - eapply R_trans; [apply R_getc | apply IH; exact H].
Qed.

Lemma lex_string_loop_moves (fuel : nat) :
  forall lx lx', lex_string_loop fuel lx = Some lx' -> R lx lx'.
Proof.
  induction fuel as [|fuel IH]; intros lx lx' H; [discriminate H|].
  cbn [lex_string_loop] in H.
  destruct (negb (Ascii.eqb (peekc lx) NUL) && negb (Ascii.eqb (peekc lx) DQUOTE));
    [|inversion H; apply R_refl].
  destruct (Ascii.eqb (peekc lx) BACKSLASH).
  - eapply R_trans; [apply R_getc|]. eapply R_trans; [|apply IH; exact H].
    destruct (negb (Ascii.eqb (peekc (snd (getc_l lx))) NUL)); [apply R_getc | apply R_refl].
  - eapply R_trans; [apply R_getc | apply IH; exact H].
Qed.

Lemma lex_string_moves (lx : Lexer) (tk : Token) (lx' : Lexer) :
  lex_string lx = Some (tk, lx') -> R lx lx'.
Proof.
  unfold lex_string. intros H.
  destruct (lex_string_loop _ _) as [lx1|] eqn:E; [|discriminate H].
  inversion H; subst. eapply R_trans; [apply R_getc|].
  eapply R_trans; [eapply lex_string_loop_moves; exact E|].
  destruct (Ascii.eqb (peekc lx1) DQUOTE); [apply R_getc | apply R_refl].
Qed.

Lemma ident_loop_moves (fuel : nat) :
  forall lx lx', ident_loop fuel lx = Some lx' -> R lx lx'.
Proof.
  induction fuel as [|fuel IH]; intros lx lx' H; [discriminate H|].
  cbn [ident_loop] in H.
  destruct (isalnum (peekc lx) || Ascii.eqb (peekc lx) "_").
  { eapply R_trans; [apply R_getc | apply IH; exact H]. }
  destruct (Ascii.eqb (peekc lx) ".").
  { eapply R_trans; [apply R_getc | apply IH; exact H]. }
  inversion H; apply R_refl.
Qed.

Lemma lex_ident_or_number_moves (lx : Lexer) (tk : Token) (lx' : Lexer) :
  lex_ident_or_number lx = Some (tk, lx') -> R lx lx'.
Proof.
  unfold lex_ident_or_number. intros H.
  destruct (ident_loop _ _) as [lx1|] eqn:E; [|discriminate H].
  apply ident_loop_moves in E.
  destruct (numeric_scan _ _ _); inversion H; subst; exact E.
Qed.

Lemma single_moves (lx : Lexer) (t : TokenType) (tk : Token) (lx' : Lexer) :
  single lx t = Some (tk, lx') -> R lx lx'.
Proof. unfold single. intros H; inversion H; apply R_getc. Qed.

Lemma lex_relop_moves (lx : Lexer) (two one : TokenType) (tk : Token) (lx' : Lexer) :
  lex_relop lx two one = Some (tk, lx') -> R lx lx'.
Proof.
  unfold lex_relop. destruct (Ascii.eqb _ _); intros H; inversion H.
  - eapply R_trans; apply R_getc.
  - apply R_getc.
Qed.

Lemma lex_eqop_moves (lx : Lexer) (two : TokenType) (tk : Token) (lx' : Lexer) :
  peekc lx <> NUL -> peekc lx <> LF ->
  lex_eqop lx two = Some (tk, lx') -> R lx lx'.
Proof.
  intros Hc Hl. unfold lex_eqop. destruct (Ascii.eqb _ _); intros H.
  - injection H as _ <-. eapply R_trans; apply R_getc.
  - rewrite unget_getc in H by assumption. injection H as _ <-. apply R_getc.
Qed.

Lemma ident_branch_moves (kw : string -> option TokenType) (lx : Lexer)
                         (tk : Token) (lx' : Lexer) :
  match lex_ident_or_number lx with
  | None => None
  | Some (t, lx') =>
      match type t, text t with
      | T_IDENTIFIER, Some s =>
          match kw s with
          | Some k => Some (make_token k None, lx')
          | None => Some (t, lx')
          end
      | _, _ => Some (t, lx')
      end
  end = Some (tk, lx') -> R lx lx'.
Proof.
  destruct (lex_ident_or_number lx) as [[t lx1]|] eqn:E; [|discriminate].
  apply lex_ident_or_number_moves in E. intros H.
  assert (lx' = lx1); [|subst; exact E].
  destruct (type t); try (inversion H; reflexivity).
  destruct (text t); [|inversion H; reflexivity].
  destruct (kw s); inversion H; reflexivity.
Qed.

Ltac moves_branches Hc :=
  repeat match goal with
         | |- (if Ascii.eqb (peekc ?lx) ?c then _ else _) = _ -> _ =>
             let E := fresh "E" in
             destruct (Ascii.eqb (peekc lx) c) eqn:E;
             [ first [ apply single_moves
                     | apply lex_relop_moves
                     | apply lex_eqop_moves;
                       [ exact Hc | apply Ascii.eqb_eq in E; rewrite E; discriminate ] ]
             | ]
         end.

Lemma next_token_at_moves (lx : Lexer) (tk : Token) (lx' : Lexer) :
  next_token_at lx = Some (tk, lx') -> R lx lx'.
Proof.
  unfold next_token_at.
  destruct (Ascii.eqb (peekc lx) NUL) eqn:E0; [intros H; inversion H; apply R_refl|].
  apply Ascii.eqb_neq in E0.
  destruct (Ascii.eqb (peekc lx) DQUOTE); [apply lex_string_moves|].
  destruct (isalpha (peekc lx) || Ascii.eqb (peekc lx) "_"); [apply ident_branch_moves|].
  destruct (isdigit (peekc lx) || Ascii.eqb (peekc lx) "."); [apply lex_ident_or_number_moves|].
  moves_branches E0. apply single_moves.
Qed.

Lemma V1_next_token_at_moves (lx : Lexer) (tk : Token) (lx' : Lexer) :
  V1.next_token_at lx = Some (tk, lx') -> R lx lx'.
Proof.
  unfold V1.next_token_at.
  destruct (Ascii.eqb (peekc lx) NUL) eqn:E0; [intros H; inversion H; apply R_refl|].
  apply Ascii.eqb_neq in E0.
  destruct (Ascii.eqb (peekc lx) DQUOTE); [apply lex_string_moves|].
  destruct (isalpha (peekc lx) || Ascii.eqb (peekc lx) "_"); [apply ident_branch_moves|].
  destruct (isdigit (peekc lx) || Ascii.eqb (peekc lx) "."); [apply lex_ident_or_number_moves|].
  moves_branches E0. apply single_moves.
Qed.

Lemma skip_blanks_moves (fuel : nat) :
  forall lx r, skip_blanks fuel lx = Some r -> R lx (snd r).
Proof.
  induction fuel as [|fuel IH]; intros lx r H; [discriminate H|].
  cbn [skip_blanks] in H.
  destruct (Ascii.eqb (peekc lx) NUL); [inversion H; apply R_refl|].
  destruct (Ascii.eqb (peekc lx) " " || Ascii.eqb (peekc lx) TAB).
  { eapply R_trans; [apply R_getc | apply IH; exact H]. }
  destruct (Ascii.eqb (peekc lx) CR).
  { destruct (Ascii.eqb (peekc (snd (getc_l lx))) LF);
      match type of H with Some ?x = Some _ => assert (E : r = x) by congruence end;
      rewrite E; cbn [snd].
    - eapply R_trans; apply R_getc.
    - apply R_getc. }
  destruct (Ascii.eqb (peekc lx) LF).
  { match type of H with Some ?x = Some _ => assert (E : r = x) by congruence end.
    rewrite E. apply R_getc. }
  destruct (Ascii.eqb (peekc lx) "#"); [|inversion H; apply R_refl].
  destruct (skip_comment lx) as [lx1|] eqn:E; [|discriminate H].
  eapply R_trans; [eapply skip_comment_loop_moves; exact E | apply IH; exact H].
Qed.

Lemma next_token_gen_moves (at_ : Lexer -> option (Token * Lexer)) :
  (forall l tk l', at_ l = Some (tk, l') -> R l l') ->
  forall lx tk lx',
    match skip_blanks (S (remaining lx)) lx with
    | None => None
    | Some (Some tk, lx') => Some (tk, lx')
    | Some (None, lx') => at_ lx'
    end = Some (tk, lx') -> R lx lx'.
Proof.
  intros Hat lx tk lx' H.
  destruct (skip_blanks (S (remaining lx)) lx) as [[[t|] lx1]|] eqn:E; [| |discriminate H];
    apply skip_blanks_moves in E; cbn [snd] in E.
  - inversion H; subst; exact E.
  - eapply R_trans; [exact E | eapply Hat; exact H].
Qed.

Lemma next_token_moves (lx : Lexer) (tk : Token) (lx' : Lexer) :
  next_token lx = Some (tk, lx') -> R lx lx'.
Proof. apply (next_token_gen_moves next_token_at). exact next_token_at_moves. Qed.

Lemma V1_next_token_moves (lx : Lexer) (tk : Token) (lx' : Lexer) :
  V1.next_token lx = Some (tk, lx') -> R lx lx'.
Proof. apply (next_token_gen_moves V1.next_token_at). exact V1_next_token_at_moves. Qed.

End LexerMoves.

(** ** The line counter *)

Lemma substring_nothing (s : string) : forall n, substring n 0 s = EmptyString.
Proof. induction s as [|c s IH]; intros [|n]; cbn; auto. Qed.

Lemma substring_split (s : string) :
  forall a m n, substring a (m + n) s = substring a m s ++ substring (a + m) n s.
Proof.
  induction s as [|c s IH]; intros a m n.
  - destruct a, m, n; reflexivity.
  - destruct a as [|a].
    + destruct m as [|m]; cbn [Nat.add]; [reflexivity|].
      cbn. rewrite (IH 0 m n). reflexivity.
    + cbn. apply IH.
Qed.

Lemma substring_one (s : string) :
  forall n c, String.get n s = Some c -> substring n 1 s = String c EmptyString.
Proof.
  induction s as [|a s IH]; intros n c H; [destruct n; discriminate H|].
  destruct n as [|n]; cbn in *.
  - inversion H; subst. rewrite substring_nothing. reflexivity.
  - apply IH; exact H.
Qed.

Lemma count_lf_app (a b : string) : count_lf (a ++ b) = (count_lf a + count_lf b)%Z.
Proof. induction a as [|c a IH]; cbn [count_lf append]; [reflexivity | rewrite IH; lia]. Qed.

Lemma counts_lines_refl (lx : Lexer) : counts_lines lx lx.
Proof.
  unfold counts_lines, consumed. rewrite Nat.sub_diag, substring_nothing. cbn.
  repeat split; lia.
Qed.

Lemma counts_lines_trans (a b c : Lexer) :
  counts_lines a b -> counts_lines b c -> counts_lines a c.
Proof.
  unfold counts_lines, consumed. intros (S1 & P1 & L1) (S2 & P2 & L2).
  split; [congruence|]. split; [lia|].
  replace (pos c - pos a)%nat with ((pos b - pos a) + (pos c - pos b))%nat by lia.
  rewrite substring_split, count_lf_app.
  replace (pos a + (pos b - pos a))%nat with (pos b) by lia.
  rewrite L2, L1, S1. lia.
Qed.

Lemma counts_lines_getc (lx : Lexer) : counts_lines lx (snd (getc_l lx)).
Proof.
  destruct (Ascii.eqb (peekc lx) NUL) eqn:E0.
  { apply Ascii.eqb_eq in E0. rewrite (getc_l_nul lx E0). apply counts_lines_refl. }
  apply Ascii.eqb_neq in E0. unfold counts_lines, consumed.
  split; [apply getc_l_src|]. rewrite (getc_l_pos lx E0).
  split; [lia|]. replace (S (pos lx) - pos lx)%nat with 1%nat by lia.
  rewrite (substring_one _ _ _ (peekc_get lx E0)). cbn [count_lf].
  unfold getc_l. cbn [snd line]. destruct (Ascii.eqb (peekc lx) LF); lia.
Qed.

Lemma lex_many_counts (n : nat) :
  forall lx lx', lex_many n lx = Some lx' -> counts_lines lx lx'.
Proof.
  induction n as [|n IH]; intros lx lx' H; cbn [lex_many] in H.
  - inversion H; apply counts_lines_refl.
  - destruct (next_token lx) as [[tk lx1]|] eqn:E; [|discriminate H].
    eapply counts_lines_trans; [|apply IH; exact H].
    exact (next_token_moves counts_lines counts_lines_refl counts_lines_trans
             counts_lines_getc lx tk lx1 E).
Qed.

Lemma count_lf_nonneg (s : string) : (0 <= count_lf s)%Z.
Proof. induction s as [|c s IH]; cbn [count_lf]; [lia|]. destruct (Ascii.eqb c LF); lia. Qed.

Lemma count_lf_substring (s : string) :
  forall a n, (count_lf (substring a n s) <= count_lf s)%Z.
Proof.
  induction s as [|c s IH]; intros a n.
  - destruct a, n; cbn; lia.
  - pose proof (count_lf_nonneg s) as Hs. destruct a as [|a].
    + destruct n as [|n]; cbn [substring count_lf].
      * destruct (Ascii.eqb c LF); lia.
      * specialize (IH 0%nat n). destruct (Ascii.eqb c LF); lia.
    + cbn [substring count_lf]. specialize (IH a n). destruct (Ascii.eqb c LF); lia.
Qed.

(** The line counter ([getc_l], [next_token] and the functions it calls,
    easylang_version2.0.c).  On a source text with fewer than [INT_MAX]
    line feeds, after any number of calls of [next_token] the lexer still
    reads that text, and its line counter, which the parser prints in its
    error messages, is one more than the number of line feeds in the part
    of the text read so far; it has stayed within [INT_MAX].  Carriage
    returns do not count. *)
Theorem line_counter_counts_line_feeds :
  forall (n : nat) (source : string) (lx' : Lexer),
    (count_lf source < INT_MAX)%Z ->
    lex_many n (lexer_init source) = Some lx' ->
    src lx' = source /\
    line lx' = (1 + count_lf (substring 0 (pos lx') source))%Z /\
    (line lx' <= INT_MAX)%Z.
Proof.
  intros n source lx' Hb H. destruct (lex_many_counts n _ _ H) as (S1 & _ & L1).
  split; [exact S1|]. unfold consumed in L1. cbn [lexer_init pos src line] in L1.
  rewrite Nat.sub_0_r in L1. split; [exact L1|].
  pose proof (count_lf_substring source 0 (pos lx')). lia.
Qed.

Lemma line_counter_counts_line_feeds_witness :
  line {| src := "a" ++ nl ++ "# b" ++ nl ++ "c"; pos := 7; line := 3 |}
  = (1 + count_lf (substring 0 7 ("a" ++ nl ++ "# b" ++ nl ++ "c")))%Z.
Proof.
  apply (line_counter_counts_line_feeds 3 ("a" ++ nl ++ "# b" ++ nl ++ "c")
           {| src := "a" ++ nl ++ "# b" ++ nl ++ "c"; pos := 7; line := 3 |}).
  - vm_compute. reflexivity.
  - vm_compute. reflexivity.
Defined.

(** ** String literals and comments *)

Lemma get_app_length (a : string) (c : ascii) (t : string) :
  String.get (String.length a) (a ++ String c t) = Some c.
Proof. induction a as [|x a IH]; cbn; [reflexivity | exact IH]. Qed.

Lemma length_app (a b : string) :
  String.length (a ++ b) = (String.length a + String.length b)%nat.
Proof. induction a as [|x a IH]; cbn; [reflexivity | rewrite IH; reflexivity]. Qed.

Lemma peekc_at (a : string) (c : ascii) (t : string) (l : Z) :
  peekc (lexer_at a (String c t) l) = c.
Proof. unfold peekc, lexer_at. cbn [src pos]. rewrite get_app_length. reflexivity. Qed.

Lemma remaining_at (a t : string) (l : Z) : remaining (lexer_at a t l) = String.length t.
Proof. unfold remaining, lexer_at. cbn [src pos]. rewrite length_app. lia. Qed.

Lemma lexer_at_eq (a a' t t' : string) (l l' : Z) :
  a = a' -> t = t' -> l = l' -> lexer_at a t l = lexer_at a' t' l'.
Proof. intros -> -> ->. reflexivity. Qed.

Lemma getc_at (a : string) (c : ascii) (t : string) (l : Z) :
  c <> NUL ->
  snd (getc_l (lexer_at a (String c t) l))
  = lexer_at (a ++ String c EmptyString) t (if Ascii.eqb c LF then l + 1 else l).
Proof.
  intros Hc. unfold getc_l. rewrite peekc_at. cbn [snd].
  apply Ascii.eqb_neq in Hc. rewrite Hc. unfold lexer_at. cbn [src pos line].
  rewrite string_app_assoc, length_app. cbn [append String.length].
  rewrite Nat.add_1_r. reflexivity.
Qed.

Lemma plain_head (c : ascii) (s : string) :
  plain (String c s) = true ->
  c <> NUL /\ Ascii.eqb c NUL = false /\ Ascii.eqb c DQUOTE = false /\
  Ascii.eqb c BACKSLASH = false /\ plain s = true.
Proof.
  cbn [plain]. intros H. repeat (apply andb_true_iff in H; destruct H as [H ?]).
  apply negb_true_iff in H. repeat match goal with
                                   | X : negb _ = true |- _ => apply negb_true_iff in X
                                   end.
  repeat split; try assumption. apply Ascii.eqb_neq; exact H.
Qed.

Lemma lex_string_loop_plain (s : string) :
  forall (a rest : string) (l : Z) (fuel : nat),
    plain s = true -> (String.length s < fuel)%nat ->
    lex_string_loop fuel (lexer_at a (s ++ String DQUOTE rest) l)
    = Some (lexer_at (a ++ s) (String DQUOTE rest) (l + count_lf s)).
Proof.
  induction s as [|c s IH]; intros a rest l fuel Hp Hf;
    (destruct fuel as [|fuel]; [cbn in Hf; lia|]); cbn [lex_string_loop append].
  - rewrite peekc_at. cbn. f_equal. apply lexer_at_eq; [|reflexivity|lia].
    symmetry; apply string_app_nil.
  - destruct (plain_head c s Hp) as (Hc & E0 & E1 & E2 & Hs).
    rewrite peekc_at, E0, E1, E2. cbn [negb andb].
    rewrite (getc_at a c _ l Hc). rewrite IH; [|exact Hs|cbn in Hf; lia].
    f_equal. apply lexer_at_eq; [|reflexivity|].
    + rewrite string_app_assoc. reflexivity.
    + cbn [count_lf]. destruct (Ascii.eqb c LF); lia.
Qed.

Lemma substring_prefix (s t : string) : substring 0 (String.length s) (s ++ t) = s.
Proof.
  induction s as [|c s IH]; cbn.
  - destruct t; reflexivity.
  - rewrite IH. reflexivity.
Qed.

Lemma substring_middle (b s t : string) :
  substring (String.length b) (String.length s) (b ++ s ++ t) = s.
Proof. induction b as [|c b IH]; cbn; [apply substring_prefix | exact IH]. Qed.

Lemma skip_blanks_stands (fuel : nat) (lx : Lexer) :
  Ascii.eqb (peekc lx) NUL = false ->
  Ascii.eqb (peekc lx) " " || Ascii.eqb (peekc lx) TAB = false ->
  Ascii.eqb (peekc lx) CR = false -> Ascii.eqb (peekc lx) LF = false ->
  Ascii.eqb (peekc lx) "#" = false ->
  skip_blanks (S fuel) lx = Some (None, lx).
Proof. intros H0 H1 H2 H3 H4. cbn [skip_blanks]. rewrite H0, H1, H2, H3, H4. reflexivity. Qed.

Lemma lex_string_plain (a s rest : string) (l : Z) :
  plain s = true ->
  lex_string (lexer_at a (String DQUOTE (s ++ String DQUOTE rest)) l)
  = Some (make_token T_STRING (Some s),
          lexer_at (a ++ String DQUOTE (s ++ String DQUOTE EmptyString)) rest
                   (l + count_lf s)).
Proof.
  intros Hp. unfold lex_string.
  rewrite (getc_at a DQUOTE _ l) by discriminate. cbn [Ascii.eqb Bool.eqb DQUOTE LF].
  change (if Ascii.eqb DQUOTE LF then (l + 1)%Z else l) with l.
  rewrite (lex_string_loop_plain s _ rest l); [|exact Hp|rewrite remaining_at, length_app; lia].
  rewrite peekc_at. rewrite Ascii.eqb_refl.
  rewrite getc_at by discriminate.
  change (if Ascii.eqb DQUOTE LF then (l + count_lf s + 1)%Z else (l + count_lf s)%Z)
    with (l + count_lf s)%Z.
  f_equal. f_equal.
  - f_equal. f_equal. unfold substr_alloc, lexer_at. cbn [src pos].
    replace (a ++ String DQUOTE (s ++ String DQUOTE rest))
      with ((a ++ String DQUOTE EmptyString) ++ s ++ String DQUOTE rest)
      by (rewrite string_app_assoc; reflexivity).
    set (b := a ++ String DQUOTE EmptyString).
    rewrite (length_app b s).
    replace (String.length b + String.length s - String.length b)%nat
      with (String.length s) by lia.
    apply substring_middle.
  - apply lexer_at_eq; [|reflexivity|reflexivity].
    rewrite !string_app_assoc. reflexivity.
Qed.

(** String literals ([lex_string] under [next_token], both revisions).  A
    double quote, a text without double quote, backslash and NUL, and a
    closing double quote are read as one string token whose text is exactly
    that text; the lexer then stands after the closing quote, and its line
    counter, as long as it stays within [INT_MAX], has advanced by the line
    feeds inside the literal. *)
Theorem string_literal_round_trip :
  forall (a s rest : string) (l : Z),
    plain s = true ->
    (l + count_lf s <= INT_MAX)%Z ->
    next_token (lexer_at a (String DQUOTE (s ++ String DQUOTE rest)) l)
    = Some (make_token T_STRING (Some s),
            lexer_at (a ++ String DQUOTE (s ++ String DQUOTE EmptyString)) rest
                     (l + count_lf s)) /\
    V1.next_token (lexer_at a (String DQUOTE (s ++ String DQUOTE rest)) l)
    = next_token (lexer_at a (String DQUOTE (s ++ String DQUOTE rest)) l).
Proof.
  intros a s rest l Hp _.
  assert (Hb : skip_blanks (S (remaining (lexer_at a (String DQUOTE (s ++ String DQUOTE rest)) l)))
                 (lexer_at a (String DQUOTE (s ++ String DQUOTE rest)) l)
               = Some (None, lexer_at a (String DQUOTE (s ++ String DQUOTE rest)) l)).
  { apply skip_blanks_stands; rewrite peekc_at; reflexivity. }
  unfold next_token, V1.next_token. rewrite Hb.
  unfold next_token_at, V1.next_token_at. rewrite peekc_at.
  change (Ascii.eqb DQUOTE NUL) with false. rewrite Ascii.eqb_refl.
  split; [apply lex_string_plain; exact Hp | reflexivity].
Qed.

Lemma string_literal_round_trip_witness :
  next_token (lexer_at "print " (String DQUOTE ("a, b" ++ String DQUOTE " + 1")) 1)
  = Some (make_token T_STRING (Some "a, b"),
          lexer_at ("print " ++ String DQUOTE ("a, b" ++ String DQUOTE EmptyString)) " + 1"
                   (1 + count_lf "a, b")).
Proof.
  apply (string_literal_round_trip "print " "a, b" " + 1" 1); [reflexivity|].
  vm_compute. discriminate.
Defined.

Lemma skip_comment_loop_line (c : string) :
  forall (a rest : string) (l : Z) (fuel : nat),
    one_line c = true -> (String.length c < fuel)%nat ->
    skip_comment_loop fuel (lexer_at a (c ++ String LF rest) l)
    = Some (lexer_at (a ++ c ++ String LF EmptyString) rest (l + 1)).
Proof.
  induction c as [|x c IH]; intros a rest l fuel Hc Hf;
    (destruct fuel as [|fuel]; [cbn in Hf; lia|]); cbn [skip_comment_loop append].
  - rewrite peekc_at. change (Ascii.eqb LF NUL) with false. cbv iota.
    change (fst (getc_l (lexer_at a (String LF rest) l)))
      with (peekc (lexer_at a (String LF rest) l)).
    rewrite peekc_at, Ascii.eqb_refl. rewrite getc_at by discriminate.
    rewrite Ascii.eqb_refl. reflexivity.
  - cbn [one_line] in Hc. apply andb_true_iff in Hc. destruct Hc as [Hc Hs].
    apply andb_true_iff in Hc. destruct Hc as [H0 H1].
    apply negb_true_iff in H0, H1.
    rewrite peekc_at, H0.
    change (fst (getc_l (lexer_at a (String x (c ++ String LF rest)) l)))
      with (peekc (lexer_at a (String x (c ++ String LF rest)) l)).
    rewrite peekc_at, H1. rewrite getc_at by (apply Ascii.eqb_neq; exact H0).
    rewrite H1. rewrite IH; [|exact Hs|cbn in Hf; lia].
    f_equal. apply lexer_at_eq; [|reflexivity|reflexivity].
    rewrite string_app_assoc. reflexivity.
Qed.

Lemma skip_blanks_fuel (f1 : nat) :
  forall f2 lx, (remaining lx < f1)%nat -> (remaining lx < f2)%nat ->
                skip_blanks f1 lx = skip_blanks f2 lx.
Proof.
  induction f1 as [|f1 IH]; intros f2 lx H1 H2; [lia|].
  destruct f2 as [|f2]; [lia|]. cbn [skip_blanks].
  destruct (Ascii.eqb (peekc lx) NUL) eqn:E0; [reflexivity|].
  apply Ascii.eqb_neq in E0. pose proof (getc_l_remaining lx E0) as Hr.
  destruct (Ascii.eqb (peekc lx) " " || Ascii.eqb (peekc lx) TAB); [apply IH; lia|].
  destruct (Ascii.eqb (peekc lx) CR); [reflexivity|].
  destruct (Ascii.eqb (peekc lx) LF); [reflexivity|].
  destruct (Ascii.eqb (peekc lx) "#"); [|reflexivity].
  destruct (skip_comment_total lx) as (lx1 & E & _ & H3). rewrite E.
  specialize (H3 E0). apply IH; lia.
Qed.

Lemma skip_blanks_hash (fuel : nat) (lx : Lexer) :
  peekc lx = "#"%char ->
  skip_blanks (S fuel) lx
  = match skip_comment lx with
    | None => None
    | Some lx' => skip_blanks fuel lx'
    end.
Proof. intros H. cbn [skip_blanks]. rewrite H. reflexivity. Qed.

(** Comments ([next_token], both revisions).  A comment runs from [#] to
    the end of its line and takes the line feed with it: the token read at a
    comment is the token read after its line feed, so a comment line yields
    no line-break token, and a statement that ends in a comment is not
    ended by the line break after it. *)
Theorem comment_takes_its_line_feed :
  forall (a c rest : string) (l : Z),
    one_line c = true ->
    next_token (lexer_at a (String "#" (c ++ String LF rest)) l)
    = next_token (lexer_at (a ++ String "#" (c ++ String LF EmptyString)) rest (l + 1)) /\
    V1.next_token (lexer_at a (String "#" (c ++ String LF rest)) l)
    = V1.next_token (lexer_at (a ++ String "#" (c ++ String LF EmptyString)) rest (l + 1)).
Proof.
  intros a c rest l Hc.
  assert (Hb : skip_blanks (S (remaining (lexer_at a (String "#" (c ++ String LF rest)) l)))
                 (lexer_at a (String "#" (c ++ String LF rest)) l)
               = skip_blanks
                   (S (remaining (lexer_at (a ++ String "#" (c ++ String LF EmptyString))
                                           rest (l + 1))))
                   (lexer_at (a ++ String "#" (c ++ String LF EmptyString)) rest (l + 1))).
  { rewrite skip_blanks_hash by apply peekc_at. unfold skip_comment.
    rewrite (skip_comment_loop_line (String "#" c) a rest l);
      [|exact Hc|rewrite remaining_at; cbn; rewrite length_app; cbn; lia].
    cbn [append]. apply skip_blanks_fuel; rewrite !remaining_at; cbn;
      rewrite ?length_app; cbn; lia. }
  unfold next_token, V1.next_token. rewrite Hb. split; reflexivity.
Qed.

Lemma comment_takes_its_line_feed_witness :
  next_token (lexer_at "print a " (String "#" (" note" ++ String LF "- 1")) 1)
  = next_token (lexer_at ("print a " ++ String "#" (" note" ++ String LF EmptyString)) "- 1"
                         (1 + 1)).
Proof.
  apply (comment_takes_its_line_feed "print a " " note" "- 1" 1). reflexivity.
Defined.

(** ** The two revisions *)

Lemma V1_var_get_app (x : string) (a b : list (string * Value)) :
  V1.var_get x (a ++ b)
  = match find_var x a with Some v => Some v | None => V1.var_get x b end.
Proof.
  induction a as [|[n v] a IH]; cbn; [reflexivity|].
  destruct (String.eqb n x); [reflexivity | exact IH].
Qed.

Lemma V1_var_get_flat (x : string) (st : State) :
  V1.var_get x (flat_vars st) = var_get x st.
Proof.
  rewrite var_get_chain. unfold flat_vars.
  induction (scopes st) as [|sc ss IH]; cbn; [reflexivity|].
  rewrite V1_var_get_app, IH. reflexivity.
Qed.

Lemma V1_eval_binary_agrees (op : TokenType) (l r : Value) (st : State)
                            (v : Value) (st' : State) :
  eval_binary op l r st = Ok v st' -> V1.eval_binary op l r = v.
Proof.
  unfold eval_binary. destruct (TokenType_beq op T_PLUS) eqn:E.
  - apply internal_TokenType_dec_bl in E. subst op. cbn [andb V1.eval_binary].
    destruct (is_str l || is_str r); [intros H; inversion H; reflexivity|].
    destruct (negb (is_num l) || negb (is_num r)); [discriminate|].
    cbn. intros H; inversion H; reflexivity.
  - cbn [andb]. destruct (negb (is_num l) || negb (is_num r)); [discriminate|].
    destruct op; cbn; try discriminate E; try (intros H; inversion H; reflexivity).
    destruct (num_of r =? 0)%float; [discriminate|]. intros H; inversion H; reflexivity.
Qed.

(** The second revision against the first ([eval_expr] of
    easylang_version2.0.c and of easylang.c).  On an expression without a
    call, whenever the second revision yields a value, the first revision,
    run on the same variables, yields the same value: the run-time checks
    that the second revision added stop evaluations, they never change a
    result. *)
Theorem second_revision_agrees_with_first :
  forall (n : expr) (fuel : nat) (st : State) (v : Value) (st' : State),
    call_free n = true ->
    eval_expr fuel n st = Ok v st' ->
    V1.eval_expr (flat_vars st) n = v.
Proof.
  induction n as [x|s|nm|op l IHl r IHr|nm args]; intros fuel st v st' Hc H;
    (destruct fuel as [|fuel]; [discriminate H|]); cbn [eval_expr] in H;
    cbn [V1.eval_expr].
  - inversion H; reflexivity.
  - inversion H; reflexivity.
  - rewrite V1_var_get_flat. destruct (var_get nm st); [|discriminate H].
    inversion H; subst; reflexivity.
  - cbn in Hc. apply andb_true_iff in Hc. destruct Hc as [Hl Hr].
    destruct (eval_expr fuel l st) as [lv s1| | |] eqn:El; cbn [bind] in H;
      try discriminate H.
    destruct (eval_expr fuel r s1) as [rv s2| | |] eqn:Er; cbn [bind] in H;
      try discriminate H.
    rewrite (IHl _ _ _ _ Hl El).
    pose proof (proj1 (eval_scopes fuel) _ _ _ _ El) as Hs.
    pose proof (IHr _ _ _ _ Hr Er) as Hrv. unfold flat_vars in *. rewrite Hs in Hrv.
    rewrite Hrv. eapply V1_eval_binary_agrees; exact H.
  - discriminate Hc.
Qed.

Lemma second_revision_agrees_with_first_witness :
  V1.eval_expr (flat_vars st_two_scopes) no_call_expr = VAL_NUM 1.
Proof.
  apply (second_revision_agrees_with_first no_call_expr 4 st_two_scopes (VAL_NUM 1)
           st_two_scopes); reflexivity.
Defined.

(** * Further properties of the parser *)

Lemma below_bind {A B : Type} (Q : A -> nat) (Q' : B -> nat)
                 (m : PResult A) (k : A -> Parser -> PResult B) :
  below Q m ->
  (forall a p1, (tokens_left p1 < Q a)%nat -> below Q' (k a p1)) ->
  below Q' (pbind m k).
Proof. intros Hm Hk. destruct m; cbn in *; auto. Qed.

Lemma below_weaken {A : Type} (Q Q' : A -> nat) (r : PResult A) :
  below Q r -> (forall a, (Q a <= Q' a)%nat) -> below Q' r.
Proof. intros H Hq. destruct r; cbn in *; auto. specialize (Hq a). lia. Qed.

Lemma is_type_true (p : Parser) (t : TokenType) : is_type p t = true -> type (cur p) = t.
Proof. unfold is_type, peek_token. apply internal_TokenType_dec_bl. Qed.

Lemma tokens_pos (p : Parser) : type (cur p) <> T_EOF -> (1 <= tokens_left p)%nat.
Proof.
  intros H. unfold tokens_left. destruct (TokenType_beq (type (cur p)) T_EOF) eqn:E; [|lia].
  apply internal_TokenType_dec_bl in E. contradiction.
Qed.

Lemma advance_le (p : Parser) :
  below (fun _ => S (remaining (lx p))) (advance p).
Proof.
  unfold advance. destruct (next_token_step (lx p)) as (tk & lx' & H & [_ [_ Hle]] & _ & Hlt).
  rewrite H. cbn. unfold tokens_left. cbn [lx cur].
  destruct (TokenType_beq (type tk) T_EOF) eqn:E; [lia|].
  assert (type tk <> T_EOF) by (intros F; rewrite F in E; discriminate E).
  specialize (Hlt H0). lia.
Qed.

Lemma advance_below (p : Parser) :
  type (cur p) <> T_EOF -> below (fun _ => tokens_left p) (advance p).
Proof.
  intros Hc. eapply below_weaken; [apply advance_le|]. intros u; cbn beta.
  unfold tokens_left. destruct (TokenType_beq (type (cur p)) T_EOF) eqn:E; [|lia].
  apply internal_TokenType_dec_bl in E. contradiction.
Qed.

Lemma advance_weak (p : Parser) : below (fun _ => S (tokens_left p)) (advance p).
Proof.
  eapply below_weaken; [apply advance_le|]. intros u; cbn beta. unfold tokens_left. lia.
Qed.

Lemma advance_then {B : Type} (p : Parser) (Q' : B -> nat)
                   (k : unit -> Parser -> PResult B) :
  type (cur p) <> T_EOF ->
  (forall p1, (tokens_left p1 < tokens_left p)%nat -> below Q' (k tt p1)) ->
  below Q' (pbind (advance p) k).
Proof.
  intros Hc Hk. apply (below_bind (fun _ => tokens_left p)); [apply advance_below; exact Hc|].
  intros [] p1 H1. apply Hk; exact H1.
Qed.

Lemma expect_below (p : Parser) (t : TokenType) (msg : string) :
  t <> T_EOF -> below (fun _ => tokens_left p) (expect p t msg).
Proof.
  intros Ht. unfold expect. destruct (is_type p t) eqn:E; [|exact I].
  apply advance_below. rewrite (is_type_true _ _ E). exact Ht.
Qed.

Lemma terminator_below (p : Parser) :
  below (fun _ => S (tokens_left p)) (expect_stmt_terminator p).
Proof.
  unfold expect_stmt_terminator, peek_token.
  destruct (type (cur p)) eqn:E;
    try (cbn; lia);
    try (destruct (is_else (cur p)); cbn; [lia | exact I]);
    (eapply below_weaken; [apply advance_below; rewrite E; discriminate | intros; lia]).
Qed.

Lemma skip_newlines_below (fuel : nat) :
  forall p, (tokens_left p < fuel)%nat ->
            below (fun _ => S (tokens_left p)) (skip_newlines fuel p).
Proof.
  induction fuel as [|fuel IH]; intros p Hf; [lia|]. cbn [skip_newlines].
  destruct (is_type p T_NEWLINE) eqn:E; [|cbn; lia].
  apply is_type_true in E.
  apply (below_bind (fun _ => tokens_left p)); [apply advance_below; rewrite E; discriminate|].
  intros u1 p1 H1; cbn beta in H1. eapply below_weaken; [apply IH; lia | intros; cbn; lia].
Qed.

Lemma parse_params_loop_below (fuel : nat) :
  forall ps p, (tokens_left p < fuel)%nat ->
               below (fun _ => S (tokens_left p)) (parse_params_loop fuel ps p).
Proof.
  induction fuel as [|fuel IH]; intros ps p Hf; [lia|]. cbn [parse_params_loop].
  destruct (is_type p T_COMMA) eqn:E; [|cbn; lia].
  apply is_type_true in E.
  apply (below_bind (fun _ => tokens_left p)); [apply advance_below; rewrite E; discriminate|].
  intros u1 p1 H1; cbn beta in H1. destruct (is_type p1 T_IDENTIFIER) eqn:E1; [|exact I]. cbn [negb].
  apply is_type_true in E1.
  unfold strdup_text. destruct (text (peek_token p1)); [|exact I]. cbn [pbind].
  destruct (16 <=? List.length ps)%nat; [exact I|].
  apply (below_bind (fun _ => tokens_left p1)); [apply advance_below; rewrite E1; discriminate|].
  intros u2 p2 H2; cbn beta in H2. eapply below_weaken; [apply IH; lia | intros; cbn; lia].
Qed.

Lemma parse_expression_below (fuel : nat) :
  (forall p, (8 * (tokens_left p + 1) < fuel)%nat ->
             below (fun _ => tokens_left p) (parse_factor fuel p)) /\
  (forall args p, (8 * (tokens_left p + 1) < fuel)%nat ->
                  below (fun _ => S (tokens_left p)) (parse_args_loop fuel args p)) /\
  (forall l p, (8 * (tokens_left p + 1) < fuel)%nat ->
               below (fun _ => S (tokens_left p)) (parse_term_loop fuel l p)) /\
  (forall p, (8 * (tokens_left p + 1) + 1 < fuel)%nat ->
             below (fun _ => tokens_left p) (parse_term fuel p)) /\
  (forall l p, (8 * (tokens_left p + 1) < fuel)%nat ->
               below (fun _ => S (tokens_left p)) (parse_expression_loop fuel l p)) /\
  (forall p, (8 * (tokens_left p + 1) + 2 < fuel)%nat ->
             below (fun _ => tokens_left p) (parse_expression fuel p)).
Proof.
  induction fuel as [|fuel (IHf & IHa & IHtl & IHt & IHel & IHe)].
  { repeat split; intros; lia. }
  split; [|split; [|split; [|split; [|split]]]].
  - intros p Hf. cbn [parse_factor].
    unfold peek_token. destruct (type (cur p)) eqn:E; try exact I.
    + unfold strdup_text. destruct (text (peek_token p)); [|exact I]. cbn [pbind].
      apply advance_then; [rewrite E; discriminate|]. intros p1 H1.
      destruct (is_type p1 T_LPAREN) eqn:EL; [|cbn; exact H1].
      apply is_type_true in EL.
      apply (below_bind (fun _ => tokens_left p1));
        [apply advance_below; rewrite EL; discriminate|].
      intros u2 p2 H2; cbn beta in H2.
      apply (below_bind (fun _ : list expr => S (tokens_left p2))).
      { destruct (negb (is_type p2 T_RPAREN)); [|cbn; lia].
        apply (below_bind (fun _ => tokens_left p2)); [apply IHe; lia|].
        intros a p3 H3; cbn beta in H3. eapply below_weaken; [apply IHa; lia | intros; cbn; lia]. }
      intros args p4 H4; cbn beta in H4.
      apply (below_bind (fun _ => tokens_left p4)); [apply expect_below; discriminate|].
      intros u5 p5 H5; cbn beta in H5. cbn. lia.
    + unfold strdup_text. destruct (text (peek_token p)); [|exact I]. cbn [pbind].
      apply advance_then; [rewrite E; discriminate|]. intros p1 H1. cbn. exact H1.
    + unfold strdup_text. destruct (text (peek_token p)); [|exact I]. cbn [pbind].
      apply advance_then; [rewrite E; discriminate|]. intros p1 H1. cbn. exact H1.
    + apply advance_then; [rewrite E; discriminate|]. intros p1 H1.
      apply (below_bind (fun _ => tokens_left p1)); [apply IHf; lia|].
      intros r p2 H2; cbn beta in H2. cbn. lia.
    + apply advance_then; [rewrite E; discriminate|]. intros p1 H1.
      apply (below_bind (fun _ => tokens_left p1)); [apply IHe; lia|].
      intros n p2 H2; cbn beta in H2.
      apply (below_bind (fun _ => tokens_left p2)); [apply expect_below; discriminate|].
      intros u3 p3 H3; cbn beta in H3. cbn. lia.
  - intros args p Hf. cbn [parse_args_loop].
    destruct (is_type p T_COMMA) eqn:E; [|cbn; lia]. apply is_type_true in E.
    apply (below_bind (fun _ => tokens_left p)); [apply advance_below; rewrite E; discriminate|].
    intros u1 p1 H1; cbn beta in H1.
    apply (below_bind (fun _ => tokens_left p1)); [apply IHe; lia|].
    intros a p2 H2; cbn beta in H2. destruct (16 <=? List.length args)%nat; [exact I|].
    eapply below_weaken; [apply IHa; lia | intros; cbn; lia].
  - intros l p Hf. cbn [parse_term_loop]. unfold peek_token.
    destruct (type (cur p)) eqn:E; try (cbn; lia);
      (apply (below_bind (fun _ => tokens_left p));
       [apply advance_below; rewrite E; discriminate|]);
      intros u1 p1 H1; cbn beta in H1;
      (apply (below_bind (fun _ => tokens_left p1)); [apply IHf; lia|]);
      intros r p2 H2; cbn beta in H2; (eapply below_weaken; [apply IHtl; lia | intros; cbn; lia]).
  - intros p Hf. cbn [parse_term].
    apply (below_bind (fun _ => tokens_left p)); [apply IHf; lia|].
    intros l p1 H1; cbn beta in H1. eapply below_weaken; [apply IHtl; lia | intros; cbn; lia].
  - intros l p Hf. cbn [parse_expression_loop]. unfold peek_token.
    destruct (type (cur p)) eqn:E; try (cbn; lia);
      (apply (below_bind (fun _ => tokens_left p));
       [apply advance_below; rewrite E; discriminate|]);
      intros u1 p1 H1; cbn beta in H1;
      (apply (below_bind (fun _ => tokens_left p1)); [apply IHt; lia|]);
      intros r p2 H2; cbn beta in H2; (eapply below_weaken; [apply IHel; lia | intros; cbn; lia]).
  - intros p Hf. cbn [parse_expression].
    apply (below_bind (fun _ => tokens_left p)); [apply IHt; lia|].
    intros l p1 H1; cbn beta in H1. eapply below_weaken; [apply IHel; lia | intros; cbn; lia].
Qed.

Lemma parse_compare_below (fuel : nat) :
  (forall node p, (8 * (tokens_left p + 1) < fuel)%nat ->
                  below (fun _ => S (tokens_left p)) (parse_compare_loop fuel node p)) /\
  (forall p, (8 * (tokens_left p + 1) + 3 < fuel)%nat ->
             below (fun _ => tokens_left p) (parse_compare fuel p)).
Proof.
  induction fuel as [|fuel (IHl & IHc)]; [split; intros; lia|].
  destruct (parse_expression_below fuel) as (_ & _ & _ & _ & _ & IHe).
  split.
  - intros node p Hf. cbn [parse_compare_loop].
    destruct (is_type p T_AND) eqn:E; [|cbn; lia]. apply is_type_true in E.
    apply (below_bind (fun _ => tokens_left p)); [apply advance_below; rewrite E; discriminate|].
    intros u1 p1 H1; cbn beta in H1.
    apply (below_bind (fun _ => tokens_left p1)); [apply IHc; lia|].
    intros r p2 H2; cbn beta in H2. eapply below_weaken; [apply IHl; lia | intros; cbn; lia].
  - intros p Hf. cbn [parse_compare].
    apply (below_bind (fun _ => tokens_left p)); [apply IHe; lia|].
    intros node p1 H1; cbn beta in H1.
    apply (below_bind (fun _ : expr => S (tokens_left p1))).
    { unfold peek_token. destruct (type (cur p1)) eqn:E; try (cbn; lia);
        (apply (below_bind (fun _ => tokens_left p1));
         [apply advance_below; rewrite E; discriminate|]);
        intros u2 p2 H2; cbn beta in H2;
        (apply (below_bind (fun _ => tokens_left p2)); [apply IHe; lia|]);
        intros r p3 H3; cbn beta in H3; cbn; lia. }
    intros node' p4 H4; cbn beta in H4. eapply below_weaken; [apply IHl; lia | intros; cbn; lia].
Qed.

Lemma parse_return_stmt_below (fuel : nat) (p : Parser) :
  type (cur p) <> T_EOF ->
  (8 * (tokens_left p + 1) + 2 < fuel)%nat ->
  below (fun _ => tokens_left p) (parse_return_stmt fuel p).
Proof.
  intros Hc Hf. unfold parse_return_stmt.
  destruct (parse_expression_below fuel) as (_ & _ & _ & _ & _ & IHe).
  apply (below_bind (fun _ => tokens_left p)); [apply advance_below; exact Hc|].
  intros u1 p1 H1; cbn beta in H1.
  apply (below_bind (fun _ : option expr => S (tokens_left p1))).
  { unfold peek_token. destruct (type (cur p1)); try (cbn; lia);
      (apply (below_bind (fun _ => tokens_left p1)); [apply IHe; lia|]);
      intros e p2 H2; cbn beta in H2; cbn; lia. }
  intros e p2 H2; cbn beta in H2.
  apply (below_bind (fun _ => S (tokens_left p2))); [apply terminator_below|].
  intros u3 p3 H3; cbn beta in H3. cbn. lia.
Qed.

Lemma parse_statements_below (fuel : nat) :
  (forall acc p, (8 * (tokens_left p + 1) + 5 < fuel)%nat ->
                 below (fun _ => S (tokens_left p)) (parse_statements_loop fuel acc p)) /\
  (forall p, (8 * (tokens_left p + 1) + 6 < fuel)%nat ->
             below (fun _ => S (tokens_left p)) (parse_statements fuel p)) /\
  (forall p, type (cur p) <> T_EOF -> (8 * (tokens_left p + 1) < fuel)%nat ->
             below (fun _ => tokens_left p) (parse_func_def fuel p)) /\
  (forall p, (8 * (tokens_left p + 1) + 4 < fuel)%nat ->
             below (fun o : option stmt =>
                      match o with Some _ => tokens_left p | None => S (tokens_left p) end)
                   (parse_statement fuel p)).
Proof.
  induction fuel as [|fuel (IHl & IHs & IHd & IHst)]; [repeat split; intros; lia|].
  destruct (parse_expression_below fuel) as (_ & _ & _ & _ & _ & IHe).
  destruct (parse_compare_below fuel) as (_ & IHc).
  split; [|split; [|split]].
  - intros acc p Hf. cbn [parse_statements_loop].
    destruct (ends_statements (peek_token p)); [cbn; lia|].
    apply (below_bind (fun _ => S (tokens_left p))); [apply skip_newlines_below; lia|].
    intros u1 p1 H1; cbn beta in H1.
    apply (below_bind (fun o : option stmt =>
                         match o with Some _ => tokens_left p1 | None => S (tokens_left p1) end));
      [apply IHst; lia|].
    intros [s|] p2 H2; [|cbn; lia].
    eapply below_weaken; [apply IHl; lia | intros; cbn; lia].
  - intros p Hf. cbn [parse_statements]. apply IHl; lia.
  - intros p Hc Hf. cbn [parse_func_def].
    apply (below_bind (fun _ => tokens_left p)); [apply advance_below; exact Hc|].
    intros u1 p1 H1; cbn beta in H1. destruct (is_type p1 T_IDENTIFIER) eqn:E1; [|exact I]. cbn [negb].
    apply is_type_true in E1.
    unfold strdup_text at 1. destruct (text (peek_token p1)); [|exact I]. cbn [pbind].
    apply (below_bind (fun _ => tokens_left p1)); [apply advance_below; rewrite E1; discriminate|].
    intros u2 p2 H2; cbn beta in H2.
    apply (below_bind (fun _ => tokens_left p2)); [apply expect_below; discriminate|].
    intros u3 p3 H3; cbn beta in H3.
    apply (below_bind (fun _ : list string => S (tokens_left p3))).
    { destruct (is_type p3 T_RPAREN) eqn:E3; [cbn; lia|]. cbn [negb].
      unfold strdup_text. destruct (text (peek_token p3)); [|exact I]. cbn [pbind].
      apply (below_bind (fun _ => S (tokens_left p3))); [apply advance_weak|].
      intros u4 p4 H4; cbn beta in H4. eapply below_weaken; [apply parse_params_loop_below; lia|].
      intros; cbn; lia. }
    intros ps p5 H5; cbn beta in H5.
    apply (below_bind (fun _ => tokens_left p5)); [apply expect_below; discriminate|].
    intros u6 p6 H6; cbn beta in H6.
    apply (below_bind (fun _ => tokens_left p6)); [apply expect_below; discriminate|].
    intros u7 p7 H7; cbn beta in H7.
    apply (below_bind (fun _ => S (tokens_left p7))); [apply IHs; lia|].
    intros b p8 H8; cbn beta in H8.
    apply (below_bind (fun _ => tokens_left p8)); [apply expect_below; discriminate|].
    intros u9 p9 H9; cbn beta in H9. cbn. lia.
  - intros p Hf. cbn [parse_statement].
    apply (below_bind (fun _ => S (tokens_left p))); [apply skip_newlines_below; lia|].
    intros u1 p1 H1; cbn beta in H1. unfold peek_token.
    assert (Hexpr : below (fun o : option stmt =>
                             match o with Some _ => tokens_left p | None => S (tokens_left p) end)
                      (pbind (parse_expression fuel p1)
                         (fun e p =>
                            pbind (expect_stmt_terminator p)
                              (fun _ p => POk (Some (N_STMT_PRINT e)) p)))).
    { apply (below_bind (fun _ => tokens_left p1)); [apply IHe; lia|].
      intros e p2 H2; cbn beta in H2.
      apply (below_bind (fun _ => S (tokens_left p2))); [apply terminator_below|].
      intros u3 p3 H3; cbn beta in H3. cbn. lia. }
    destruct (type (cur p1)) eqn:E; try exact Hexpr; clear Hexpr.
    + cbn. lia.
    + apply (below_bind (fun _ => tokens_left p1));
        [apply advance_below; rewrite E; discriminate|].
      intros u2 p2 H2; cbn beta in H2. destruct (is_type p2 T_IDENTIFIER) eqn:E2; [|exact I]. cbn [negb].
      apply is_type_true in E2.
      unfold strdup_text. destruct (text (peek_token p2)); [|exact I]. cbn [pbind].
      apply (below_bind (fun _ => tokens_left p2));
        [apply advance_below; rewrite E2; discriminate|].
      intros u3 p3 H3; cbn beta in H3.
      apply (below_bind (fun _ => tokens_left p3)); [apply expect_below; discriminate|].
      intros u4 p4 H4; cbn beta in H4.
      apply (below_bind (fun _ => tokens_left p4)); [apply IHe; lia|].
      intros e p5 H5; cbn beta in H5.
      apply (below_bind (fun _ => S (tokens_left p5))); [apply terminator_below|].
      intros u6 p6 H6; cbn beta in H6. cbn. lia.
    + apply (below_bind (fun _ => tokens_left p1));
        [apply advance_below; rewrite E; discriminate|].
      intros u2 p2 H2; cbn beta in H2.
      apply (below_bind (fun _ => tokens_left p2)); [apply IHe; lia|].
      intros e p3 H3; cbn beta in H3.
      apply (below_bind (fun _ => S (tokens_left p3))); [apply terminator_below|].
      intros u4 p4 H4; cbn beta in H4. cbn. lia.
    + apply (below_bind (fun _ => tokens_left p1));
        [apply advance_below; rewrite E; discriminate|].
      intros u2 p2 H2; cbn beta in H2. destruct (is_type p2 T_IDENTIFIER) eqn:E2; [|exact I]. cbn [negb].
      apply is_type_true in E2.
      unfold strdup_text. destruct (text (peek_token p2)); [|exact I]. cbn [pbind].
      apply (below_bind (fun _ => tokens_left p2));
        [apply advance_below; rewrite E2; discriminate|].
      intros u3 p3 H3; cbn beta in H3.
      apply (below_bind (fun _ => S (tokens_left p3))); [apply terminator_below|].
      intros u4 p4 H4; cbn beta in H4. cbn. lia.
    + apply (below_bind (fun _ => tokens_left p1));
        [apply advance_below; rewrite E; discriminate|].
      intros u2 p2 H2; cbn beta in H2.
      apply (below_bind (fun _ => tokens_left p2)); [apply IHc; lia|].
      intros c p3 H3; cbn beta in H3.
      apply (below_bind (fun _ => tokens_left p3)); [apply expect_below; discriminate|].
      intros u4 p4 H4; cbn beta in H4.
      apply (below_bind (fun _ => S (tokens_left p4))); [apply IHs; lia|].
      intros b p5 H5; cbn beta in H5.
      apply (below_bind (fun _ : option stmt => S (tokens_left p5))).
      { destruct (is_else (cur p5)) eqn:Ee; [|cbn; lia].
        assert (Hc5 : type (cur p5) <> T_EOF).
        { unfold is_else in Ee. intros F. rewrite F in Ee. discriminate Ee. }
        apply (below_bind (fun _ => tokens_left p5)); [apply advance_below; exact Hc5|].
        intros u6 p6 H6; cbn beta in H6.
        apply (below_bind (fun _ => S (tokens_left p6))); [apply IHs; lia|].
        intros eb p7 H7; cbn beta in H7. cbn. lia. }
      intros eb p8 H8; cbn beta in H8.
      apply (below_bind (fun _ => tokens_left p8)); [apply expect_below; discriminate|].
      intros u9 p9 H9; cbn beta in H9.
      apply (below_bind (fun _ => S (tokens_left p9))); [apply terminator_below|].
      intros u10 p10 H10; cbn beta in H10. cbn. lia.
    + apply (below_bind (fun _ => tokens_left p1));
        [apply advance_below; rewrite E; discriminate|].
      intros u2 p2 H2; cbn beta in H2.
      apply (below_bind (fun _ => tokens_left p2)); [apply IHc; lia|].
      intros c p3 H3; cbn beta in H3.
      apply (below_bind (fun _ => tokens_left p3)); [apply expect_below; discriminate|].
      intros u4 p4 H4; cbn beta in H4.
      apply (below_bind (fun _ => S (tokens_left p4))); [apply IHs; lia|].
      intros b p5 H5; cbn beta in H5.
      apply (below_bind (fun _ => tokens_left p5)); [apply expect_below; discriminate|].
      intros u6 p6 H6; cbn beta in H6.
      apply (below_bind (fun _ => S (tokens_left p6))); [apply terminator_below|].
      intros u7 p7 H7; cbn beta in H7. cbn. lia.
    + apply (below_bind (fun _ => tokens_left p1));
        [apply advance_below; rewrite E; discriminate|].
      intros u2 p2 H2; cbn beta in H2. cbn. lia.
    + apply (below_bind (fun _ => tokens_left p1));
        [apply IHd; [rewrite E; discriminate | lia]|].
      intros s p2 H2; cbn beta in H2. cbn. lia.
    + apply (below_bind (fun _ => tokens_left p1));
        [apply parse_return_stmt_below; [rewrite E; discriminate | lia]|].
      intros s p2 H2; cbn beta in H2. cbn. lia.
Qed.

(** The parser terminates ([parse_statements] and every function it calls,
    [advance], [next_token], easylang_version2.0.c).  On every source text
    the parser comes back, with a syntax tree, with a parse error or in the
    overflow of a 16-slot array: every loop and every recursive call is
    preceded by the reading of a token, so the depth of the recursion is
    bounded by a linear function of the length of the text. *)
Theorem parser_terminates :
  forall (source : string) (fuel : nat),
    (8 * String.length source + 22 < fuel)%nat ->
    parse_program fuel source <> POutOfFuel.
Proof.
  intros source fuel Hf. unfold parse_program.
  set (p0 := {| lx := lexer_init source; cur := make_token T_EOF None |}).
  assert (H0 : remaining (lx p0) = String.length source).
  { unfold remaining, p0, lexer_init. cbn. lia. }
  assert (B : below (fun _ : stmt => S (S (String.length source)))
                (pbind (advance p0) (fun _ p => parse_statements fuel p))).
  { apply (below_bind (fun _ => S (remaining (lx p0)))); [apply advance_le|].
    intros u1 p1 H1; cbn beta in H1. eapply below_weaken;
      [apply (proj1 (proj2 (parse_statements_below fuel))); lia | intros; cbn; lia]. }
  intros F. rewrite F in B. exact B.
Qed.

Lemma parser_terminates_witness : parse_program 50 "x+1" <> POutOfFuel.
Proof. apply (parser_terminates "x+1" 50). cbn [String.length]. lia. Defined.

(** ** The shape of the syntax tree *)

Lemma yields_bind {A B : Type} (P : A -> Prop) (P' : B -> Prop)
                  (m : PResult A) (k : A -> Parser -> PResult B) :
  yields P m -> (forall a p1, P a -> yields P' (k a p1)) -> yields P' (pbind m k).
Proof. intros Hm Hk. destruct m; cbn in *; auto. Qed.

Lemma yields_then {A B : Type} (P' : B -> Prop)
                  (m : PResult A) (k : A -> Parser -> PResult B) :
  (forall a p1, yields P' (k a p1)) -> yields P' (pbind m k).
Proof. intros Hk. destruct m; cbn in *; auto. Qed.

Lemma parse_params_loop_shape (fuel : nat) :
  forall ps p, (List.length ps <= 16)%nat ->
               yields (fun l => (List.length l <= 16)%nat) (parse_params_loop fuel ps p).
Proof.
  induction fuel as [|fuel IH]; intros ps p Hl; [exact I|]. cbn [parse_params_loop].
  destruct (is_type p T_COMMA); [|exact Hl].
  apply yields_then; intros u1 p1.
  destruct (negb (is_type p1 T_IDENTIFIER)); [exact I|].
  apply yields_then; intros s p2.
  destruct (16 <=? List.length ps)%nat eqn:E; [exact I|]. apply Nat.leb_gt in E.
  apply yields_then; intros u3 p3. apply IH. rewrite List.length_app. cbn. lia.
Qed.

Lemma parse_expression_shape (fuel : nat) :
  (forall p, yields (fun e => wf_expr e = true) (parse_factor fuel p)) /\
  (forall args p, (List.length args <= 16)%nat -> forallb wf_expr args = true ->
                  yields (fun l => (List.length l <= 16)%nat /\ forallb wf_expr l = true)
                         (parse_args_loop fuel args p)) /\
  (forall l p, wf_expr l = true ->
               yields (fun e => wf_expr e = true) (parse_term_loop fuel l p)) /\
  (forall p, yields (fun e => wf_expr e = true) (parse_term fuel p)) /\
  (forall l p, wf_expr l = true ->
               yields (fun e => wf_expr e = true) (parse_expression_loop fuel l p)) /\
  (forall p, yields (fun e => wf_expr e = true) (parse_expression fuel p)).
Proof.
  induction fuel as [|fuel (IHf & IHa & IHtl & IHt & IHel & IHe)].
  { repeat split; intros; exact I. }
  split; [|split; [|split; [|split; [|split]]]].
  - intros p. cbn [parse_factor]. unfold peek_token.
    destruct (type (cur p)); try exact I.
    + apply yields_then; intros nm p1. apply yields_then; intros u2 p2.
      destruct (is_type p2 T_LPAREN); [|reflexivity].
      apply yields_then; intros u3 p3.
      apply (yields_bind (fun l => (List.length l <= 16)%nat /\ forallb wf_expr l = true)).
      { destruct (negb (is_type p3 T_RPAREN)); [|cbn; split; [lia | reflexivity]].
        apply (yields_bind (fun e => wf_expr e = true)); [apply IHe|].
        intros a p4 Ha. apply IHa; cbn; [lia | rewrite Ha; reflexivity]. }
      intros args p5 [Hl Hw]. apply yields_then; intros u6 p6. cbn.
      rewrite Hw. apply Nat.leb_le in Hl. rewrite Hl. reflexivity.
    + apply yields_then; intros s p1. apply yields_then; intros u2 p2. reflexivity.
    + apply yields_then; intros s p1. apply yields_then; intros u2 p2. reflexivity.
    + apply yields_then; intros u1 p1.
      apply (yields_bind (fun e => wf_expr e = true)); [apply IHf|].
      intros r p2 Hr. cbn. exact Hr.
    + apply yields_then; intros u1 p1.
      apply (yields_bind (fun e => wf_expr e = true)); [apply IHe|].
      intros n p2 Hn. apply yields_then; intros u3 p3. exact Hn.
  - intros args p Hl Hw. cbn [parse_args_loop].
    destruct (is_type p T_COMMA); [|cbn; split; assumption].
    apply yields_then; intros u1 p1.
    apply (yields_bind (fun e => wf_expr e = true)); [apply IHe|].
    intros a p2 Ha. destruct (16 <=? List.length args)%nat eqn:E; [exact I|].
    apply Nat.leb_gt in E. apply IHa.
    + rewrite List.length_app. cbn. lia.
    + rewrite forallb_app, Hw. cbn. rewrite Ha. reflexivity.
  - intros l p Hl. cbn [parse_term_loop]. unfold peek_token.
    destruct (type (cur p)); try exact Hl;
      (apply yields_then; intros u1 p1);
      (apply (yields_bind (fun e => wf_expr e = true)); [apply IHf|]);
      intros r p2 Hr; apply IHtl; cbn; rewrite Hl, Hr; reflexivity.
  - intros p. cbn [parse_term].
    apply (yields_bind (fun e => wf_expr e = true)); [apply IHf|].
    intros l p1 Hl. apply IHtl; exact Hl.
  - intros l p Hl. cbn [parse_expression_loop]. unfold peek_token.
    destruct (type (cur p)); try exact Hl;
      (apply yields_then; intros u1 p1);
      (apply (yields_bind (fun e => wf_expr e = true)); [apply IHt|]);
      intros r p2 Hr; apply IHel; cbn; rewrite Hl, Hr; reflexivity.
  - intros p. cbn [parse_expression].
    apply (yields_bind (fun e => wf_expr e = true)); [apply IHt|].
    intros l p1 Hl. apply IHel; exact Hl.
Qed.

Lemma parse_compare_shape (fuel : nat) :
  (forall node p, wf_expr node = true ->
                  yields (fun e => wf_expr e = true) (parse_compare_loop fuel node p)) /\
  (forall p, yields (fun e => wf_expr e = true) (parse_compare fuel p)).
Proof.
  induction fuel as [|fuel (IHl & IHc)]; [split; intros; exact I|].
  destruct (parse_expression_shape fuel) as (_ & _ & _ & _ & _ & IHe).
  split.
  - intros node p Hn. cbn [parse_compare_loop].
    destruct (is_type p T_AND); [|exact Hn].
    apply yields_then; intros u1 p1.
    apply (yields_bind (fun e => wf_expr e = true)); [apply IHc|].
    intros r p2 Hr. apply IHl. cbn. rewrite Hn, Hr. reflexivity.
  - intros p. cbn [parse_compare].
    apply (yields_bind (fun e => wf_expr e = true)); [apply IHe|].
    intros node p1 Hn.
    apply (yields_bind (fun e => wf_expr e = true)).
    { unfold peek_token. destruct (type (cur p1)); try exact Hn;
        (apply yields_then; intros u2 p2);
        (apply (yields_bind (fun e => wf_expr e = true)); [apply IHe|]);
        intros r p3 Hr; cbn; rewrite Hn, Hr; reflexivity. }
    intros node' p4 Hn'. apply IHl; exact Hn'.
Qed.

Lemma parse_return_stmt_shape (fuel : nat) (p : Parser) :
  yields (fun s => wf_stmt s = true) (parse_return_stmt fuel p).
Proof.
  unfold parse_return_stmt.
  destruct (parse_expression_shape fuel) as (_ & _ & _ & _ & _ & IHe).
  apply yields_then; intros u1 p1.
  apply (yields_bind (fun o : option expr =>
                        match o with Some e => wf_expr e = true | None => True end)).
  { unfold peek_token. destruct (type (cur p1)); try exact I;
      (apply (yields_bind (fun e => wf_expr e = true)); [apply IHe|]);
      intros e p2 He; exact He. }
  intros [e|] p2 He; apply yields_then; intros u3 p3; cbn; [exact He | reflexivity].
Qed.

Lemma parse_statements_shape (fuel : nat) :
  (forall acc p, forallb wf_stmt acc = true ->
                 yields (fun s => is_list s = true /\ wf_stmt s = true)
                        (parse_statements_loop fuel acc p)) /\
  (forall p, yields (fun s => is_list s = true /\ wf_stmt s = true)
                    (parse_statements fuel p)) /\
  (forall p, yields (fun s => wf_stmt s = true) (parse_func_def fuel p)) /\
  (forall p, yields (fun o : option stmt =>
                       match o with Some s => wf_stmt s = true | None => True end)
                    (parse_statement fuel p)).
Proof.
  induction fuel as [|fuel (IHl & IHs & IHd & IHst)]; [repeat split; intros; exact I|].
  destruct (parse_expression_shape fuel) as (_ & _ & _ & _ & _ & IHe).
  destruct (parse_compare_shape fuel) as (_ & IHc).
  split; [|split; [|split]].
  - intros acc p Ha. cbn [parse_statements_loop].
    destruct (ends_statements (peek_token p)); [cbn; split; [reflexivity | exact Ha]|].
    apply yields_then; intros u1 p1.
    apply (yields_bind (fun o : option stmt =>
                          match o with Some s => wf_stmt s = true | None => True end));
      [apply IHst|].
    intros [s|] p2 Hs; [|cbn; split; [reflexivity | exact Ha]].
    apply IHl. rewrite forallb_app, Ha. cbn. rewrite Hs. reflexivity.
  - intros p. cbn [parse_statements]. apply IHl. reflexivity.
  - intros p. cbn [parse_func_def].
    apply yields_then; intros u1 p1.
    destruct (negb (is_type p1 T_IDENTIFIER)); [exact I|].
    apply yields_then; intros nm p2. apply yields_then; intros u3 p3.
    apply yields_then; intros u4 p4.
    apply (yields_bind (fun l : list string => (List.length l <= 16)%nat)).
    { destruct (negb (is_type p4 T_RPAREN)); [|cbn; lia].
      apply yields_then; intros s p5. apply yields_then; intros u6 p6.
      apply parse_params_loop_shape. cbn. lia. }
    intros ps p7 Hps. apply yields_then; intros u8 p8. apply yields_then; intros u9 p9.
    apply (yields_bind (fun s => is_list s = true /\ wf_stmt s = true)); [apply IHs|].
    intros b p10 [Hb1 Hb2]. apply yields_then; intros u11 p11. cbn.
    apply Nat.leb_le in Hps. rewrite Hps, Hb1, Hb2. reflexivity.
  - intros p. cbn [parse_statement].
    apply yields_then; intros u1 p1. unfold peek_token.
    assert (Hexpr : yields (fun o : option stmt =>
                              match o with Some s => wf_stmt s = true | None => True end)
                      (pbind (parse_expression fuel p1)
                         (fun e p =>
                            pbind (expect_stmt_terminator p)
                              (fun _ p => POk (Some (N_STMT_PRINT e)) p)))).
    { apply (yields_bind (fun e => wf_expr e = true)); [apply IHe|].
      intros e p2 He. apply yields_then; intros u3 p3. exact He. }
    destruct (type (cur p1)); try exact Hexpr; clear Hexpr.
    + exact I.
    + apply yields_then; intros u2 p2.
      destruct (negb (is_type p2 T_IDENTIFIER)); [exact I|].
      apply yields_then; intros nm p3. apply yields_then; intros u4 p4.
      apply yields_then; intros u5 p5.
      apply (yields_bind (fun e => wf_expr e = true)); [apply IHe|].
      intros e p6 He. apply yields_then; intros u7 p7. exact He.
    + apply yields_then; intros u2 p2.
      apply (yields_bind (fun e => wf_expr e = true)); [apply IHe|].
      intros e p3 He. apply yields_then; intros u4 p4. exact He.
    + apply yields_then; intros u2 p2.
      destruct (negb (is_type p2 T_IDENTIFIER)); [exact I|].
      apply yields_then; intros nm p3. apply yields_then; intros u4 p4.
      apply yields_then; intros u5 p5. reflexivity.
    + apply yields_then; intros u2 p2.
      apply (yields_bind (fun e => wf_expr e = true)); [apply IHc|].
      intros c p3 Hc. apply yields_then; intros u4 p4.
      apply (yields_bind (fun s => is_list s = true /\ wf_stmt s = true)); [apply IHs|].
      intros b p5 [Hb1 Hb2].
      apply (yields_bind (fun o : option stmt =>
                            match o with
                            | Some s => is_list s = true /\ wf_stmt s = true
                            | None => True
                            end)).
      { destruct (is_else (cur p5)); [|exact I].
        apply yields_then; intros u6 p6.
        apply (yields_bind (fun s => is_list s = true /\ wf_stmt s = true)); [apply IHs|].
        intros eb p7 Heb. exact Heb. }
      intros eb p8 Heb. apply yields_then; intros u9 p9. apply yields_then; intros u10 p10.
      cbn. rewrite Hc, Hb1, Hb2. destruct eb as [eb|]; [|reflexivity].
      destruct Heb as [He1 He2]. rewrite He1, He2. reflexivity.
    + apply yields_then; intros u2 p2.
      apply (yields_bind (fun e => wf_expr e = true)); [apply IHc|].
      intros c p3 Hc. apply yields_then; intros u4 p4.
      apply (yields_bind (fun s => is_list s = true /\ wf_stmt s = true)); [apply IHs|].
      intros b p5 [Hb1 Hb2]. apply yields_then; intros u6 p6.
      apply yields_then; intros u7 p7. cbn. rewrite Hc, Hb1, Hb2. reflexivity.
    + apply yields_then; intros u2 p2. exact I.
    + apply (yields_bind (fun s => wf_stmt s = true)); [apply IHd|].
      intros s p2 Hs. exact Hs.
    + apply (yields_bind (fun s => wf_stmt s = true)); [apply parse_return_stmt_shape|].
      intros s p2 Hs. exact Hs.
Qed.

(** The shape of the syntax tree ([parse_statements] and every function it
    calls, easylang_version2.0.c).  A program that the parser accepts is a
    statement list in which every binary node carries one of the operators
    that [eval_expr] has a case for, no call has more than 16 arguments and
    no function more than 16 parameters, so that the fixed arrays of the
    nodes are not overrun, and every body of an [if], an [else], a [while]
    and a function is itself a statement list. *)
Theorem parsed_program_is_well_formed :
  forall (fuel : nat) (source : string) (ast : stmt) (p : Parser),
    parse_program fuel source = POk ast p ->
    is_list ast = true /\ wf_stmt ast = true.
Proof.
  intros fuel source ast p H. unfold parse_program in H.
  assert (Y : yields (fun s => is_list s = true /\ wf_stmt s = true)
                (pbind (advance {| lx := lexer_init source; cur := make_token T_EOF None |})
                       (fun _ p => parse_statements fuel p))).
  { apply yields_then; intros u1 p1. apply (proj1 (proj2 (parse_statements_shape fuel))). }
  rewrite H in Y. exact Y.
Qed.

Lemma parsed_program_is_well_formed_witness :
  exists ast p,
    parse_program 40 "function f(a, b) { return a * b } print f(2, 3) + 1" = POk ast p /\
    is_list ast = true /\ wf_stmt ast = true.
Proof.
  eexists. eexists. split; [vm_compute; reflexivity|].
  eapply (parsed_program_is_well_formed 40
            "function f(a, b) { return a * b } print f(2, 3) + 1").
  vm_compute. reflexivity.
Defined.

(** ** Loops *)

Lemma eval_while_rule (I : State -> Prop) (cond : expr) (b : stmt) :
  (forall fuel st v st', I st -> eval_expr fuel cond st = Ok v st' -> I st') ->
  (forall fuel sg st r st', I st -> eval_stmt fuel b sg st = Ok r st' -> I st') ->
  forall fuel res sg st v sg' st',
    returned sg = false -> I st ->
    eval_while fuel cond b res sg st = Ok (v, sg') st' ->
    I st' /\
    (returned sg' = false ->
     exists fuel0 st0 cv,
       I st0 /\ eval_expr fuel0 cond st0 = Ok cv st' /\
       (is_num cv = false \/ (num_of cv =? 0)%float = true)).
Proof.
  intros Hcond Hbody. induction fuel as [|fuel IH]; intros res sg st v sg' st' Hsg HI H;
    [discriminate H|].
  cbn [eval_while] in H.
  destruct (eval_expr fuel cond st) as [cv s1| | |] eqn:Ec; cbn [bind] in H;
    try discriminate H.
  pose proof (Hcond _ _ _ _ HI Ec) as HI1. rewrite Hsg in H.
  destruct (negb (is_num cv) || (num_of cv =? 0)%float || false) eqn:Ex.
  - inversion H; subst. split; [exact HI1|]. intros _. exists fuel, st, cv.
    split; [exact HI|]. split; [exact Ec|].
    rewrite orb_false_r in Ex. apply orb_true_iff in Ex. destruct Ex as [Ex|Ex].
    + left. apply negb_true_iff; exact Ex.
    + right; exact Ex.
  - destruct (eval_stmt fuel b sg s1) as [[v0 sg0] s2| | |] eqn:Eb; cbn [bind] in H;
      try discriminate H. cbn [fst snd] in H.
    pose proof (Hbody _ _ _ _ _ HI1 Eb) as HI2.
    destruct (returned sg0) eqn:E0.
    + inversion H; subst. split; [exact HI2|]. intros F. congruence.
    + eapply IH; [exact E0 | exact HI2 | exact H].
Qed.

(** [while] (the [N_STMT_WHILE] case of [eval_stmt],
    easylang_version2.0.c).  A property of the state that the evaluation of
    the condition keeps and that the body keeps still holds when the loop
    has ended.  And when the loop has ended without a [return], its state is
    the one in which the condition was last evaluated, and the value of the
    condition there was zero or not a number. *)
Theorem while_loop_rule :
  forall (I : State -> Prop) (cond : expr) (b : stmt),
    (forall fuel st v st', I st -> eval_expr fuel cond st = Ok v st' -> I st') ->
    (forall fuel sg st r st', I st -> eval_stmt fuel b sg st = Ok r st' -> I st') ->
    forall (fuel : nat) (sg : Signal) (st : State) (v : Value) (sg' : Signal) (st' : State),
      returned sg = false -> I st ->
      eval_stmt fuel (N_STMT_WHILE cond b) sg st = Ok (v, sg') st' ->
      I st' /\
      (returned sg' = false ->
       exists fuel0 st0 cv,
         I st0 /\ eval_expr fuel0 cond st0 = Ok cv st' /\
         (is_num cv = false \/ (num_of cv =? 0)%float = true)).
Proof.
  intros I cond b Hcond Hbody fuel sg st v sg' st' Hsg HI H.
  destruct fuel as [|fuel]; [discriminate H|]. cbn [eval_stmt] in H. rewrite Hsg in H.
  eapply eval_while_rule; eassumption.
Qed.

Lemma while_loop_rule_witness :
  eval_stmt 10 count_to_three no_signal st_two_scopes = Ok (VAL_NUM 3, no_signal) st_counted /\
  well_named st_counted /\
  (returned no_signal = false ->
   exists fuel0 st0 cv,
     well_named st0 /\
     eval_expr fuel0 (N_EXPR_BINARY T_LT (N_EXPR_VAR "x") (N_EXPR_NUMBER 3)) st0
     = Ok cv st_counted /\
     (is_num cv = false \/ (num_of cv =? 0)%float = true)).
Proof.
  assert (H : eval_stmt 10 count_to_three no_signal st_two_scopes
              = Ok (VAL_NUM 3, no_signal) st_counted) by (vm_compute; reflexivity).
  split; [exact H|].
  apply (while_loop_rule well_named
           (N_EXPR_BINARY T_LT (N_EXPR_VAR "x") (N_EXPR_NUMBER 3))
           (N_STMT_LIST
              [N_STMT_SET "x" (N_EXPR_BINARY T_PLUS (N_EXPR_VAR "x") (N_EXPR_NUMBER 1))]))
    with (fuel := 10%nat) (sg := no_signal) (st := st_two_scopes) (v := VAL_NUM 3).
  - intros fuel st v st' HI E.
    match type of E with eval_expr _ ?c _ = _ =>
      pose proof (proj1 (eval_well_named fuel) c st st') as K end.
    rewrite E in K. exact (K eq_refl HI).
  - intros fuel sg st r st' HI E.
    match type of E with eval_stmt _ ?c _ _ = _ =>
      pose proof (proj1 (proj2 (eval_well_named fuel)) c sg st st') as K end.
    rewrite E in K. exact (K eq_refl HI).
  - reflexivity.
  - split; [constructor|]. repeat constructor; simpl; intuition discriminate.
  - exact H.
Defined.

(** * From the source text to the output *)

Lemma next_token_plain_string (a s rest : string) (l : Z) :
  plain s = true ->
  next_token (lexer_at a (String DQUOTE (s ++ String DQUOTE rest)) l)
  = Some (make_token T_STRING (Some s),
          lexer_at (a ++ String DQUOTE (s ++ String DQUOTE EmptyString)) rest
                   (l + count_lf s)).
Proof.
  intros Hp.
  assert (Hb : skip_blanks (S (remaining (lexer_at a (String DQUOTE (s ++ String DQUOTE rest)) l)))
                 (lexer_at a (String DQUOTE (s ++ String DQUOTE rest)) l)
               = Some (None, lexer_at a (String DQUOTE (s ++ String DQUOTE rest)) l)).
  { apply skip_blanks_stands; rewrite peekc_at; reflexivity. }
  unfold next_token. rewrite Hb. unfold next_token_at. rewrite peekc_at.
  change (Ascii.eqb DQUOTE NUL) with false. rewrite Ascii.eqb_refl.
  apply lex_string_plain; exact Hp.
Qed.

Lemma next_token_blank (lx : Lexer) :
  peekc lx = " "%char -> next_token lx = next_token (snd (getc_l lx)).
Proof.
  intros H. unfold next_token. cbn [skip_blanks]. rewrite H.
  change (Ascii.eqb " " NUL) with false. cbv iota.
  change (Ascii.eqb " " " " || Ascii.eqb " " TAB) with true. cbv iota.
  assert (Hn : peekc lx <> NUL) by (rewrite H; discriminate).
  pose proof (getc_l_remaining lx Hn).
  rewrite (skip_blanks_fuel (remaining lx) (S (remaining (snd (getc_l lx))))) by lia.
  reflexivity.
Qed.

Lemma get_app_end (a : string) : String.get (String.length a) (a ++ EmptyString) = None.
Proof. induction a as [|c a IH]; cbn; [reflexivity | exact IH]. Qed.

Lemma next_token_at_end (a : string) (l : Z) :
  next_token (lexer_at a EmptyString l)
  = Some (make_token T_EOF None, lexer_at a EmptyString l).
Proof.
  assert (Hc : peekc (lexer_at a EmptyString l) = NUL).
  { unfold peekc, lexer_at. cbn [src pos]. rewrite get_app_end. reflexivity. }
  unfold next_token. cbn [skip_blanks]. rewrite Hc. cbn.
  unfold next_token_at. rewrite Hc. reflexivity.
Qed.

Lemma print_keyword_token (s : string) :
  next_token (lexer_init ("print " ++ quoted s))
  = Some (make_token T_PRINT None, {| src := "print " ++ quoted s; pos := 5; line := 1 |}).
Proof. vm_compute. reflexivity. Qed.

Lemma print_literal_token (s : string) :
  plain s = true ->
  next_token {| src := "print " ++ quoted s; pos := 5; line := 1 |}
  = Some (make_token T_STRING (Some s),
          lexer_at ("print " ++ quoted s) EmptyString (1 + count_lf s)).
Proof.
  intros Hp. rewrite next_token_blank by reflexivity.
  change (snd (getc_l {| src := "print " ++ quoted s; pos := 5; line := 1 |}))
    with (lexer_at "print " (String DQUOTE (s ++ String DQUOTE EmptyString)) 1).
  rewrite (next_token_plain_string "print " s EmptyString 1 Hp). reflexivity.
Qed.

Lemma parse_print_literal (s : string) (k : nat) :
  plain s = true ->
  exists p,
    parse_program (10 + k) ("print " ++ quoted s)
    = POk (N_STMT_LIST [N_STMT_PRINT (N_EXPR_STRING s)]) p.
Proof.
  intros Hp. eexists. unfold parse_program. unfold advance at 1. cbn [lx].
  rewrite print_keyword_token. cbn [pbind Nat.add parse_statements parse_statements_loop].
  cbn [ends_statements peek_token cur type is_else].
  cbn [skip_newlines is_type peek_token cur type TokenType_beq pbind].
  cbn [parse_statement skip_newlines is_type peek_token cur type TokenType_beq pbind].
  unfold advance at 1. cbn [lx]. rewrite (print_literal_token s Hp). cbn [pbind].
  cbn [parse_expression parse_term parse_factor peek_token cur type strdup_text text pbind].
  unfold advance at 1. cbn [lx]. rewrite next_token_at_end. cbn [pbind].
  cbn [parse_term_loop parse_expression_loop peek_token cur type pbind].
  cbn [expect_stmt_terminator peek_token cur type pbind].
  cbn [parse_statements_loop ends_statements peek_token cur type].
  reflexivity.
Qed.

(** From the source text to the output ([main], [next_token],
    [parse_statements], [eval_stmt], easylang_version2.0.c).  The program
    that consists of [print] and a string literal, whose text has no double
    quote, no backslash and no NUL, is lexed, parsed and run to the end: it
    writes that text and a line feed to the standard output, writes nothing
    to the standard error, reads no input and ends with exit status 0. *)
Theorem print_string_literal :
  forall (s input : string) (k : nat),
    plain s = true ->
    main (10 + k) ("print " ++ quoted s) input = Finished 0 (s ++ nl) EmptyString.
Proof.
  intros s input k Hp. unfold main. destruct (parse_print_literal s k Hp) as [p H].
  rewrite H. cbn. reflexivity.
Qed.

Lemma print_string_literal_witness :
  main (10 + 0) ("print " ++ quoted "Hello, world!") EmptyString
  = Finished 0 ("Hello, world!" ++ nl) EmptyString.
Proof. apply (print_string_literal "Hello, world!" EmptyString 0). reflexivity. Defined.

(** ** Words: numbers, identifiers and keywords *)

Lemma ident_char_facts (c : ascii) :
  ident_char c = true ->
  c <> NUL /\ Ascii.eqb c NUL = false /\ Ascii.eqb c LF = false /\
  Ascii.eqb c " " || Ascii.eqb c TAB = false /\ Ascii.eqb c CR = false /\
  Ascii.eqb c "#" = false /\ Ascii.eqb c DQUOTE = false.
Proof.
  destruct c as [[] [] [] [] [] [] [] []]; vm_compute; intros H;
    repeat split; congruence.
Qed.

Lemma alpha_not_digit (c : ascii) :
  isalpha c || Ascii.eqb c "_" = true -> isdigit c || Ascii.eqb c "." = false.
Proof. destruct c as [[] [] [] [] [] [] [] []]; vm_compute; congruence. Qed.

Lemma peekc_at_end (a : string) (l : Z) : peekc (lexer_at a EmptyString l) = NUL.
Proof. unfold peekc, lexer_at. cbn [src pos]. rewrite get_app_end. reflexivity. Qed.

Lemma ident_loop_word (w : string) :
  forall (a rest : string) (l : Z) (fuel : nat),
    word w = true -> stops rest = true -> (String.length w < fuel)%nat ->
    ident_loop fuel (lexer_at a (w ++ rest) l) = Some (lexer_at (a ++ w) rest l).
Proof.
  induction w as [|c w IH]; intros a rest l fuel Hw Hs Hf;
    (destruct fuel as [|fuel]; [cbn in Hf; lia|]); cbn [ident_loop append].
  - assert (E : lexer_at (a ++ EmptyString) rest l = lexer_at a rest l)
      by (apply lexer_at_eq; [apply string_app_nil | reflexivity | reflexivity]).
    rewrite E. destruct rest as [|r rest].
    + rewrite peekc_at_end. reflexivity.
    + rewrite peekc_at. cbn [stops] in Hs. apply negb_true_iff in Hs.
      unfold ident_char in Hs. apply orb_false_elim in Hs. destruct Hs as [Hs1 Hs2].
      rewrite Hs1, Hs2. reflexivity.
  - cbn [word] in Hw. apply andb_true_iff in Hw. destruct Hw as [Hc Hw].
    destruct (ident_char_facts c Hc) as (Hn & _ & Hlf & _).
    rewrite peekc_at.
    assert (Hstep : ident_loop fuel (snd (getc_l (lexer_at a (String c (w ++ rest)) l)))
                    = Some (lexer_at (a ++ String c w) rest l)).
    { rewrite (getc_at a c _ l Hn), Hlf. rewrite IH; [|exact Hw|exact Hs|cbn in Hf; lia].
      f_equal. apply lexer_at_eq; [|reflexivity|reflexivity].
      rewrite string_app_assoc. reflexivity. }
    unfold ident_char in Hc.
    destruct (isalnum c || Ascii.eqb c "_"); [exact Hstep|].
    cbn [orb] in Hc. rewrite Hc. exact Hstep.
Qed.

Lemma lex_word (a w rest : string) (l : Z) :
  word w = true -> stops rest = true ->
  lex_ident_or_number (lexer_at a (w ++ rest) l)
  = Some (if digits_and_dots w && (count_dots w <=? 1)%nat
          then make_token T_NUMBER (Some w)
          else make_token T_IDENTIFIER (Some (lower w)),
          lexer_at (a ++ w) rest l).
Proof.
  intros Hw Hs. unfold lex_ident_or_number.
  rewrite (ident_loop_word w a rest l); [|exact Hw|exact Hs|rewrite remaining_at, length_app; lia].
  assert (E : substr_alloc (src (lexer_at a (w ++ rest) l)) (pos (lexer_at a (w ++ rest) l))
                           (pos (lexer_at (a ++ w) rest l)) = w).
  { unfold substr_alloc, lexer_at. cbn [src pos]. rewrite length_app.
    replace (String.length a + String.length w - String.length a)%nat
      with (String.length w) by lia.
    apply substring_middle. }
  rewrite E, numeric_scan_closed. cbn [andb Nat.add].
  assert (En : forall n, ((n =? 0)%nat || (n <=? 1)%nat) = (n <=? 1)%nat)
    by (intros [|[|n]]; reflexivity).
  rewrite En. destruct (digits_and_dots w && (count_dots w <=? 1)%nat); reflexivity.
Qed.

Lemma word_stands (fuel : nat) (a : string) (c : ascii) (t : string) (l : Z) :
  ident_char c = true ->
  skip_blanks (S fuel) (lexer_at a (String c t) l) = Some (None, lexer_at a (String c t) l).
Proof.
  intros Hc. destruct (ident_char_facts c Hc) as (_ & H0 & H1 & H2 & H3 & H4 & _).
  apply skip_blanks_stands; rewrite peekc_at; assumption.
Qed.

Lemma V1_keyword_first_alpha (s : string) (k : TokenType) :
  V1.keyword s = Some k -> exists c s', s = String c s' /\ isalpha c = true.
Proof.
  unfold V1.keyword.
  repeat match goal with
         | |- context [String.eqb s ?l] =>
             let E := fresh "E" in
             destruct (String.eqb s l) eqn:E;
             [apply String.eqb_eq in E; subst s; intros _; do 2 eexists; split; reflexivity|]
         end.
  discriminate.
Qed.

Lemma word_dispatch (kw : string -> option TokenType) (a : string) (c : ascii)
                    (w rest : string) (l : Z) :
  (forall s k, kw s = Some k -> exists c s', s = String c s' /\ isalpha c = true) ->
  ident_char c = true -> word w = true -> stops rest = true ->
  (if isalpha c || Ascii.eqb c "_"
   then
     match lex_ident_or_number (lexer_at a (String c w ++ rest) l) with
     | None => None
     | Some (t, lx') =>
         match type t, text t with
         | T_IDENTIFIER, Some s =>
             match kw s with
             | Some k => Some (make_token k None, lx')
             | None => Some (t, lx')
             end
         | _, _ => Some (t, lx')
         end
     end
   else if isdigit c || Ascii.eqb c "."
        then lex_ident_or_number (lexer_at a (String c w ++ rest) l)
        else None)
  = Some (token_of_word kw (String c w), lexer_at (a ++ String c w) rest l).
Proof.
  intros Hkw Hc Hw Hs.
  assert (HW : word (String c w) = true) by (cbn [word]; rewrite Hc, Hw; reflexivity).
  rewrite (lex_word a (String c w) rest l HW Hs). unfold token_of_word.
  destruct (isalpha c || Ascii.eqb c "_") eqn:Ea.
  - assert (Hd : digits_and_dots (String c w) = false)
      by (cbn [digits_and_dots]; rewrite (alpha_not_digit c Ea); reflexivity).
    rewrite Hd. cbn [andb type text].
    destruct (kw (lower (String c w))); reflexivity.
  - assert (Hdig : isdigit c || Ascii.eqb c "." = true).
    { unfold ident_char, isalnum in Hc. apply orb_false_elim in Ea. destruct Ea as [E1 E2].
      rewrite E1, E2 in Hc. cbn [orb] in Hc. rewrite orb_false_r in Hc. exact Hc. }
    rewrite Hdig.
    destruct (digits_and_dots (String c w) && (count_dots (String c w) <=? 1)%nat);
      [reflexivity|].
    destruct (kw (lower (String c w))) as [k|] eqn:Ek; [|reflexivity]. exfalso.
    destruct (Hkw _ _ Ek) as (c' & s' & Hs' & Ha). cbn [lower] in Hs'.
    inversion Hs'; subst c'. rewrite (digit_not_alpha _ Hdig) in Ha. discriminate Ha.
Qed.

(** Words ([next_token] and [lex_ident_or_number], both revisions).  A run
    of letters, digits, underscores and dots, up to the end of the text or
    to a character of another kind, is read as one token: a number carrying
    the word when the word consists of digits and at most one dot, else the
    keyword that the word spells in lower case, else an identifier carrying
    the word in lower case.  So keywords and variable names do not
    distinguish upper and lower case.  The lexer then stands after the
    word, on the same line. *)
Theorem word_token :
  forall (a : string) (c : ascii) (w rest : string) (l : Z),
    ident_char c = true -> word w = true -> stops rest = true ->
    next_token (lexer_at a (String c w ++ rest) l)
    = Some (token_of_word keyword (String c w), lexer_at (a ++ String c w) rest l) /\
    V1.next_token (lexer_at a (String c w ++ rest) l)
    = Some (token_of_word V1.keyword (String c w), lexer_at (a ++ String c w) rest l).
Proof.
  intros a c w rest l Hc Hw Hs.
  destruct (ident_char_facts c Hc) as (_ & H0 & _ & _ & _ & _ & Hq).
  unfold next_token, V1.next_token. cbn [append]. rewrite word_stands by exact Hc.
  unfold next_token_at, V1.next_token_at. rewrite peekc_at, H0, Hq.
  pose proof (word_dispatch keyword a c w rest l keyword_first_alpha Hc Hw Hs) as H2.
  pose proof (word_dispatch V1.keyword a c w rest l V1_keyword_first_alpha Hc Hw Hs) as H1.
  cbn [append] in H1, H2.
  destruct (isalpha c || Ascii.eqb c "_"); [split; assumption|].
  destruct (isdigit c || Ascii.eqb c "."); [split; assumption|].
  discriminate H1.
Qed.

Lemma word_token_witness :
  next_token (lexer_at "x = 1 " ("While" ++ " x < 3") 2)
  = Some (token_of_word keyword "While", lexer_at ("x = 1 " ++ "While") " x < 3" 2).
Proof.
  apply (word_token "x = 1 " "W" "hile" " x < 3" 2); reflexivity.
Defined.

(** * Diagnostics and exit status *)

Lemma fails_bind {A B : Type} (P : string -> bool)
                 (m : PResult A) (k : A -> Parser -> PResult B) :
  fails_with P m -> (forall a p1, fails_with P (k a p1)) -> fails_with P (pbind m k).
Proof. intros Hm Hk. destruct m; cbn in *; auto. Qed.

Lemma advance_fails (P : string -> bool) (p : Parser) : fails_with P (advance p).
Proof. unfold advance. destruct (next_token (lx p)) as [[tk lx']|]; exact I. Qed.

Lemma strdup_fails (P : string -> bool) (p : Parser) : fails_with P (strdup_text p).
Proof. unfold strdup_text. destruct (text (peek_token p)); exact I. Qed.

Lemma expect_fails (p : Parser) (t : TokenType) (msg : string) :
  fails_with parse_diagnostic (expect p t msg).
Proof. unfold expect. destruct (is_type p t); [apply advance_fails | reflexivity]. Qed.

Lemma terminator_fails (p : Parser) : fails_with parse_diagnostic (expect_stmt_terminator p).
Proof.
  unfold expect_stmt_terminator.
  destruct (type (peek_token p)); try apply advance_fails; try exact I;
    (destruct (is_else (peek_token p)); [exact I | reflexivity]).
Qed.

Ltac parser_fails tac :=
  repeat match goal with
         | |- fails_with _ (POk _ _) => exact I
         | |- fails_with _ PUndefined => exact I
         | |- fails_with _ POutOfFuel => exact I
         | |- fails_with _ (PExit1 _) => reflexivity
         | |- fails_with _ (advance _) => apply advance_fails
         | |- fails_with _ (strdup_text _) => apply strdup_fails
         | |- fails_with _ (expect _ _ _) => apply expect_fails
         | |- fails_with _ (expect_stmt_terminator _) => apply terminator_fails
         | |- fails_with _ (pbind _ _) => apply fails_bind; [|intros ? ?]
         | |- fails_with _ (if ?b then _ else _) => destruct b
         | |- fails_with _ (match ?x with _ => _ end) => destruct x
         | |- _ => tac
         end.

Lemma skip_newlines_fails (fuel : nat) :
  forall p, fails_with parse_diagnostic (skip_newlines fuel p).
Proof.
  induction fuel as [|fuel IH]; intros p; [exact I|]. cbn [skip_newlines].
  parser_fails ltac:(apply IH).
Qed.

Lemma parse_params_loop_fails (fuel : nat) :
  forall ps p, fails_with parse_diagnostic (parse_params_loop fuel ps p).
Proof.
  induction fuel as [|fuel IH]; intros ps p; [exact I|]. cbn [parse_params_loop].
  parser_fails ltac:(apply IH).
Qed.

Lemma parse_expression_fails (fuel : nat) :
  (forall p, fails_with parse_diagnostic (parse_factor fuel p)) /\
  (forall args p, fails_with parse_diagnostic (parse_args_loop fuel args p)) /\
  (forall l p, fails_with parse_diagnostic (parse_term_loop fuel l p)) /\
  (forall p, fails_with parse_diagnostic (parse_term fuel p)) /\
  (forall l p, fails_with parse_diagnostic (parse_expression_loop fuel l p)) /\
  (forall p, fails_with parse_diagnostic (parse_expression fuel p)).
Proof.
  induction fuel as [|fuel (IHf & IHa & IHtl & IHt & IHel & IHe)].
  { repeat split; intros; exact I. }
  split; [|split; [|split; [|split; [|split]]]]; intros.
  - cbn [parse_factor].
    parser_fails ltac:(first [apply IHf | apply IHa | apply IHe]).
  - cbn [parse_args_loop]. parser_fails ltac:(first [apply IHa | apply IHe]).
  - cbn [parse_term_loop]. parser_fails ltac:(first [apply IHf | apply IHtl]).
  - cbn [parse_term]. parser_fails ltac:(first [apply IHf | apply IHtl]).
  - cbn [parse_expression_loop]. parser_fails ltac:(first [apply IHt | apply IHel]).
  - cbn [parse_expression]. parser_fails ltac:(first [apply IHt | apply IHel]).
Qed.

Lemma parse_compare_fails (fuel : nat) :
  (forall node p, fails_with parse_diagnostic (parse_compare_loop fuel node p)) /\
  (forall p, fails_with parse_diagnostic (parse_compare fuel p)).
Proof.
  induction fuel as [|fuel (IHl & IHc)]; [split; intros; exact I|].
  destruct (parse_expression_fails fuel) as (_ & _ & _ & _ & _ & IHe).
  split; intros.
  - cbn [parse_compare_loop]. parser_fails ltac:(first [apply IHc | apply IHl]).
  - cbn [parse_compare]. parser_fails ltac:(first [apply IHe | apply IHl]).
Qed.

Lemma parse_return_stmt_fails (fuel : nat) (p : Parser) :
  fails_with parse_diagnostic (parse_return_stmt fuel p).
Proof.
  destruct (parse_expression_fails fuel) as (_ & _ & _ & _ & _ & IHe).
  unfold parse_return_stmt. parser_fails ltac:(apply IHe).
Qed.

Lemma parse_statements_fails (fuel : nat) :
  (forall acc p, fails_with parse_diagnostic (parse_statements_loop fuel acc p)) /\
  (forall p, fails_with parse_diagnostic (parse_statements fuel p)) /\
  (forall p, fails_with parse_diagnostic (parse_func_def fuel p)) /\
  (forall p, fails_with parse_diagnostic (parse_statement fuel p)).
Proof.
  induction fuel as [|fuel (IHl & IHs & IHd & IHst)]; [repeat split; intros; exact I|].
  destruct (parse_expression_fails fuel) as (_ & _ & _ & _ & _ & IHe).
  destruct (parse_compare_fails fuel) as (_ & IHc).
  split; [|split; [|split]]; intros.
  - cbn [parse_statements_loop].
    parser_fails ltac:(first [apply skip_newlines_fails | apply IHst | apply IHl]).
  - cbn [parse_statements]. apply IHl.
  - cbn [parse_func_def].
    parser_fails ltac:(first [apply parse_params_loop_fails | apply IHs]).
  - cbn [parse_statement].
    parser_fails ltac:(first [ apply skip_newlines_fails | apply IHe | apply IHc | apply IHs
                             | apply IHd | apply parse_return_stmt_fails ]).
Qed.

Lemma exits_bind {A B : Type} (P : string -> bool)
                 (m : Result A) (k : A -> State -> Result B) :
  exits_with P m -> (forall a s, exits_with P (k a s)) -> exits_with P (bind m k).
Proof. intros Hm Hk. destruct m; cbn in *; auto. Qed.

Lemma do_var_set_exits (P : string -> bool) (nm : string) (v : Value) (st : State) :
  exits_with P (do_var_set nm v st).
Proof. unfold do_var_set. destruct (var_set nm v st); exact I. Qed.

Lemma eval_binary_exits (op : TokenType) (l r : Value) (st : State) :
  exits_with run_diagnostic (eval_binary op l r st).
Proof.
  unfold eval_binary.
  destruct (TokenType_beq op T_PLUS && (is_str l || is_str r)); [exact I|].
  destruct (negb (is_num l) || negb (is_num r)); [reflexivity|].
  destruct op; cbn; try exact I. destruct (num_of r =? 0)%float; [reflexivity | exact I].
Qed.

Lemma eval_read_exits (nm : string) (st : State) :
  exits_with run_diagnostic (eval_read nm st).
Proof.
  unfold eval_read. destruct (stdin st); [reflexivity|].
  destruct (fgets 255 _) as [got rest]. destruct (strtod (chomp got)) as [val endptr].
  match goal with |- context [if ?c then _ else _] => destruct c end;
    (apply exits_bind; [apply do_var_set_exits | intros; exact I]).
Qed.

Lemma bind_params_exits (P : string -> bool) (ps : list string) :
  forall vs st, exits_with P (bind_params ps vs st).
Proof.
  induction ps as [|p ps IH]; intros vs st; [exact I|].
  destruct vs as [|v vs]; [exact I|]. cbn [bind_params].
  apply exits_bind; [apply do_var_set_exits | intros; apply IH].
Qed.

Lemma eval_args_exits (P : string -> bool) (ev : expr -> State -> Result Value) :
  (forall a st, exits_with P (ev a st)) ->
  forall args st, exits_with P (eval_args ev args st).
Proof.
  intros Hev. induction args as [|a args IH]; intros st; [exact I|].
  cbn [eval_args]. apply exits_bind; [apply Hev|]. intros v s.
  apply exits_bind; [apply IH | intros; exact I].
Qed.

Lemma eval_list_exits (P : string -> bool)
                      (ev : stmt -> Signal -> State -> Result (Value * Signal)) :
  (forall s sg st, exits_with P (ev s sg st)) ->
  forall c last sg st, exits_with P (eval_list ev c last sg st).
Proof.
  intros Hev. induction c as [|s c IH]; intros last sg st; [exact I|].
  cbn [eval_list]. apply exits_bind; [apply Hev|]. intros r s'.
  destruct (returned (snd r)); [exact I | apply IH].
Qed.

Lemma eval_exits (fuel : nat) :
  (forall n st, exits_with run_diagnostic (eval_expr fuel n st)) /\
  (forall n sg st, exits_with run_diagnostic (eval_stmt fuel n sg st)) /\
  (forall cond b res sg st, exits_with run_diagnostic (eval_while fuel cond b res sg st)).
Proof.
  induction fuel as [|fuel (IHe & IHs & IHw)]; [repeat split; intros; exact I|].
  split; [|split].
  - intros n st. destruct n; cbn [eval_expr]; try exact I.
    + destruct (var_get name0 st); [exact I | reflexivity].
    + apply exits_bind; [apply IHe|]. intros lv s.
      apply exits_bind; [apply IHe|]. intros rv s'. apply eval_binary_exits.
    + destruct (func_get name0 st) as [f|]; [|reflexivity].
      destruct (negb (param_count f =? List.length args)%nat); [reflexivity|].
      apply exits_bind; [apply eval_args_exits; exact IHe|]. intros vals s.
      apply exits_bind; [apply bind_params_exits|]. intros u s1.
      apply exits_bind; [apply IHs|]. intros r s2.
      destruct (returned (snd r)); exact I.
  - intros n sg st. cbn [eval_stmt]. destruct (returned sg); [exact I|].
    destruct n.
    + apply eval_list_exits; exact IHs.
    + apply exits_bind; [apply IHe|]. intros v s.
      apply exits_bind; [apply do_var_set_exits | intros; exact I].
    + apply exits_bind; [apply IHe|]. intros; exact I.
    + apply exits_bind; [apply eval_read_exits | intros; exact I].
    + apply exits_bind; [apply IHe|]. intros [x|s0|] s; try reflexivity.
      destruct (negb (x =? 0)%float); [apply IHs|].
      destruct else_body; [apply IHs | exact I].
    + apply IHw.
    + apply exits_bind; [|intros; exact I].
      unfold func_set. destruct (func_get name0 st); [reflexivity | exact I].
    + destruct body0 as [e|]; [|exact I].
      apply exits_bind; [apply IHe | intros; exact I].
  - intros cond b res sg st. cbn [eval_while].
    apply exits_bind; [apply IHe|]. intros condv s.
    destruct (negb (is_num condv) || (num_of condv =? 0)%float || returned sg); [exact I|].
    apply exits_bind; [apply IHs|]. intros r s1.
    destruct (returned (snd r)); [exact I | apply IHw].
Qed.

(** Diagnostics and exit status ([main] and every [exit(1)] of the parser
    and of the evaluator, easylang_version2.0.c).  Once [main] has read the
    source text, a run that ends with status 0 has written nothing to the
    standard error.  A run that ends
    with status 1 has written one diagnostic there: either a message that
    starts with "Parse error at line ", and then nothing was written to the
    standard output, because the whole text is parsed before anything is
    run; or a message that starts with "Error: ", or the message
    "Input error", from the evaluation. *)
Theorem diagnostics :
  forall (fuel : nat) (source input : string) (code : Z) (out err : string),
    main fuel source input = Finished code out err ->
    (code = 0%Z /\ err = EmptyString) \/
    (code = 1%Z /\ parse_diagnostic err = true /\ out = EmptyString) \/
    (code = 1%Z /\ run_diagnostic err = true).
Proof.
  intros fuel source input code out err H. unfold main in H.
  assert (Hp : fails_with parse_diagnostic (parse_program fuel source)).
  { unfold parse_program. apply fails_bind; [apply advance_fails|].
    intros u p1. apply (proj1 (proj2 (parse_statements_fails fuel))). }
  destruct (parse_program fuel source) as [ast p|e| |]; try discriminate H.
  - pose proof (proj1 (proj2 (eval_exits fuel)) ast no_signal (initial_state input)) as He.
    destruct (eval_stmt fuel ast no_signal (initial_state input)) as [r st|e st|st|];
      try discriminate H; inversion H; subst.
    + left. split; reflexivity.
    + right. right. split; [reflexivity | exact He].
  - inversion H; subst. right. left. split; [reflexivity|]. split; [exact Hp | reflexivity].
Qed.

Lemma diagnostics_witness :
  main 40 "print 1 print 1 / 0" EmptyString
  = Finished 1 ("1" ++ nl) ("Error: Division by zero" ++ nl) /\
  ((1 = 0 /\ "Error: Division by zero" ++ nl = EmptyString)%Z \/
   (1 = 1 /\ parse_diagnostic ("Error: Division by zero" ++ nl) = true /\
    "1" ++ nl = EmptyString)%Z \/
   (1 = 1 /\ run_diagnostic ("Error: Division by zero" ++ nl) = true)%Z).
Proof.
  split; [vm_compute; reflexivity|].
  apply (diagnostics 40 "print 1 print 1 / 0" EmptyString 1 ("1" ++ nl)
           ("Error: Division by zero" ++ nl)).
  vm_compute. reflexivity.
Defined.

(** ** Assignment *)

(** Assignment (the [N_STMT_SET] case of [eval_stmt], [var_set] and the
    [N_EXPR_VAR] case of [eval_expr], easylang_version2.0.c).  After
    [set x to e], where the value of [e] is not a string, the variable [x]
    evaluates to the value that the statement had, which is the value of
    [e]; the evaluation of the variable changes nothing.  (The string that
    [set] stores is the one that the statement returns and that the
    statement list frees.) *)
Theorem set_then_read :
  forall (fuel : nat) (x : string) (e : expr) (sg : Signal) (st : State)
         (v : Value) (sg' : Signal) (st' : State),
    returned sg = false ->
    eval_stmt (S fuel) (N_STMT_SET x e) sg st = Ok (v, sg') st' ->
    is_str v = false ->
    (exists st1, eval_expr fuel e st = Ok v st1) /\
    forall fuel', eval_expr (S fuel') (N_EXPR_VAR x) st' = Ok v st'.
Proof.
  intros fuel x e sg st v sg' st' Hsg H _. cbn [eval_stmt] in H. rewrite Hsg in H.
  destruct (eval_expr fuel e st) as [v1 st1| | |] eqn:Ee; cbn [bind] in H;
    try discriminate H.
  unfold do_var_set in H. destruct (var_set x v1 st1) as [st2|] eqn:Es; cbn [bind] in H;
    [|discriminate H].
  inversion H; subst. split; [eexists; reflexivity|].
  intros fuel'. cbn [eval_expr].
  destruct (var_set_get_same _ _ _ _ Es) as [G _]. rewrite G. reflexivity.
Qed.

Lemma set_then_read_witness :
  (exists st1, eval_expr 4 no_call_expr st_two_scopes = Ok (VAL_NUM 1) st1) /\
  forall fuel',
    eval_expr (S fuel') (N_EXPR_VAR "y")
      (state_of [[("y", VAL_NUM 1); ("x", VAL_NUM 1)];
                 [("x", VAL_NUM 7); ("g", VAL_STR "global")]] [])
    = Ok (VAL_NUM 1)
         (state_of [[("y", VAL_NUM 1); ("x", VAL_NUM 1)];
                    [("x", VAL_NUM 7); ("g", VAL_STR "global")]] []).
Proof.
  apply (set_then_read 4 "y" no_call_expr no_signal st_two_scopes (VAL_NUM 1) no_signal);
    reflexivity.
Defined.

(** ** The output *)

Lemma eval_keeps_lines (fuel : nat) :
  (forall n st, ends_in keeps_lines (eval_expr fuel n st) st) /\
  (forall n sg st, ends_in keeps_lines (eval_stmt fuel n sg st) st) /\
  (forall cond b res sg st, ends_in keeps_lines (eval_while fuel cond b res sg st) st).
Proof.
  apply (eval_ends keeps_lines).
  - intros st H; exact H.
  - intros a b c H1 H2 H; exact (H2 (H1 H)).
  - intros nm v st st' H. destruct (var_set_get_same _ _ _ _ H) as (_ & _ & O & _).
    unfold keeps_lines. rewrite O. auto.
  - intros nm ps b st st' H. unfold func_set in H. destruct (func_get nm st); [discriminate|].
    inversion H; subst. intros L; exact L.
  - intros s st _. right. exists (stdout st ++ s). cbn. rewrite string_app_assoc. reflexivity.
  - intros k st H; exact H.
  - intros st H; exact H.
  - intros st H. unfold pop_scope. destruct (scopes st); exact H.
Qed.

(** The standard output ([eval_stmt], [main], easylang_version2.0.c).
    Whatever a run has written to the standard output when it ends, whether
    it ends normally or is stopped by an error, is a sequence of complete
    lines: it is empty or ends with a line feed. *)
Theorem output_is_complete_lines :
  forall (fuel : nat) (source input : string) (code : Z) (out err : string),
    main fuel source input = Finished code out err -> complete_lines out.
Proof.
  intros fuel source input code out err H. unfold main in H.
  destruct (parse_program fuel source) as [ast p|e| |]; try discriminate H.
  - pose proof (proj1 (proj2 (eval_keeps_lines fuel)) ast no_signal (initial_state input)) as K.
    unfold ends_in, keeps_lines in K.
    destruct (eval_stmt fuel ast no_signal (initial_state input)) as [r st|e st|st|];
      try discriminate H; inversion H; subst;
      (apply (K st eq_refl); left; reflexivity).
  - inversion H; subst. left; reflexivity.
Qed.

Lemma output_is_complete_lines_witness : complete_lines ("1" ++ nl).
Proof.
  apply (output_is_complete_lines 40 "print 1 print 1 / 0" EmptyString 1 ("1" ++ nl)
           ("Error: Division by zero" ++ nl)).
  vm_compute. reflexivity.
Defined.

(** ** Variable lookup *)

Lemma find_in_chain_innermost (x : string) (ss : list Scope) :
  match find_in_chain x ss with
  | Some v =>
      exists before sc after,
        ss = (before ++ sc :: after)%list /\ find_var x sc = Some v /\
        Forall (fun sc' => find_var x sc' = None) before
  | None => Forall (fun sc => find_var x sc = None) ss
  end.
Proof.
  induction ss as [|sc ss IH]; cbn; [constructor|].
  destruct (find_var x sc) as [v|] eqn:E.
  - exists [], sc, ss. split; [reflexivity|]. split; [exact E | constructor].
  - destruct (find_in_chain x ss) as [v|].
    + destruct IH as (before & sc' & after & H1 & H2 & H3).
      exists (sc :: before), sc', after. subst ss. split; [reflexivity|].
      split; [exact H2 | constructor; assumption].
    + constructor; assumption.
Qed.

(** Lookup ([var_get], easylang_version2.0.c).  [var_get] finds the
    binding of the innermost scope that has the name: the scopes inside that
    one do not have it.  It finds nothing exactly when no scope of the chain
    has the name; the second search, in the global scope, never finds what
    the search along the chain has not found, because the global scope is
    the last scope of the chain. *)
Theorem var_get_innermost :
  forall (x : string) (st : State),
    match var_get x st with
    | Some v =>
        exists before sc after,
          scopes st = (before ++ sc :: after)%list /\ find_var x sc = Some v /\
          Forall (fun sc' => find_var x sc' = None) before
    | None =>
        Forall (fun sc => find_var x sc = None) (scopes st) /\
        find_var x (global_scope st) = None
    end.
Proof.
  intros x st. rewrite var_get_chain.
  pose proof (find_in_chain_innermost x (scopes st)) as H.
  destruct (find_in_chain x (scopes st)) as [v|] eqn:E; [exact H|].
  split; [exact H|]. apply find_in_chain_last; exact E.
Qed.

(** ** The lexers of the two revisions *)

Lemma keyword_compat (s : string) :
  match keyword s with
  | Some k => is_new_token k = true \/ V1.keyword s = Some k
  | None => V1.keyword s = None
  end.
Proof.
  unfold keyword, V1.keyword.
  repeat match goal with
         | |- context [String.eqb s ?l] => destruct (String.eqb s l); [right; reflexivity|]
         end.
  destruct (String.eqb s "function"); [left; reflexivity|].
  destruct (String.eqb s "return"); [left; reflexivity|].
  reflexivity.
Qed.

Lemma next_token_at_compat (lx : Lexer) (tk : Token) (lx' : Lexer) :
  next_token_at lx = Some (tk, lx') -> is_new_token (type tk) = false ->
  V1.next_token_at lx = Some (tk, lx').
Proof.
  unfold next_token_at, V1.next_token_at.
  destruct (Ascii.eqb (peekc lx) NUL); [auto|].
  destruct (Ascii.eqb (peekc lx) DQUOTE); [auto|].
  destruct (isalpha (peekc lx) || Ascii.eqb (peekc lx) "_").
  { destruct (lex_ident_or_number lx) as [[t l1]|]; [|discriminate].
    destruct (type t); auto. destruct (text t) as [s|]; auto.
    pose proof (keyword_compat s) as Hk. destruct (keyword s) as [k|].
    - intros H Hn. inversion H; subst. cbn in Hn. destruct Hk as [Hk|Hk]; [congruence|].
      rewrite Hk. reflexivity.
    - rewrite Hk. auto. }
  destruct (isdigit (peekc lx) || Ascii.eqb (peekc lx) "."); [auto|].
  destruct (Ascii.eqb (peekc lx) "."); [auto|].
  destruct (Ascii.eqb (peekc lx) "("); [auto|].
  destruct (Ascii.eqb (peekc lx) ")"); [auto|].
  destruct (Ascii.eqb (peekc lx) "{");
    [unfold single; intros H Hn; inversion H; subst; discriminate Hn|].
  destruct (Ascii.eqb (peekc lx) "}");
    [unfold single; intros H Hn; inversion H; subst; discriminate Hn|].
  destruct (Ascii.eqb (peekc lx) ",");
    [unfold single; intros H Hn; inversion H; subst; discriminate Hn|].
  auto.
Qed.

(** The second revision's lexer extends the first's ([next_token] of
    easylang_version2.0.c and of easylang.c).  Wherever the second revision
    reads a token that is not one of the kinds it added ([function],
    [return], braces and the comma), the first revision reads the same token
    and stops at the same place. *)
Theorem second_lexer_extends_first :
  forall (lx : Lexer) (tk : Token) (lx' : Lexer),
    next_token lx = Some (tk, lx') -> is_new_token (type tk) = false ->
    V1.next_token lx = Some (tk, lx').
Proof.
  intros lx tk lx' H Hn. unfold next_token in H. unfold V1.next_token.
  destruct (skip_blanks (S (remaining lx)) lx) as [[[t|] l1]|]; [exact H| |exact H].
  apply next_token_at_compat; assumption.
Qed.

Lemma second_lexer_extends_first_witness :
  V1.next_token (lexer_init "While x <= 3")
  = Some (make_token T_WHILE None, {| src := "While x <= 3"; pos := 5; line := 1 |}).
Proof.
  apply (second_lexer_extends_first (lexer_init "While x <= 3")); reflexivity.
Defined.

(** ** Line breaks *)

Lemma blank_facts (lx : Lexer) :
  Ascii.eqb (peekc lx) " " || Ascii.eqb (peekc lx) TAB = true ->
  peekc lx <> NUL /\ Ascii.eqb (peekc lx) NUL = false /\ Ascii.eqb (peekc lx) LF = false.
Proof.
  intros H. apply orb_true_iff in H.
  destruct H as [H|H]; apply Ascii.eqb_eq in H; rewrite H;
    (split; [discriminate | split; reflexivity]).
Qed.

Lemma next_token_skips_blank (lx : Lexer) :
  Ascii.eqb (peekc lx) " " || Ascii.eqb (peekc lx) TAB = true ->
  next_token lx = next_token (snd (getc_l lx)) /\
  src (snd (getc_l lx)) = src lx /\ pos (snd (getc_l lx)) = S (pos lx) /\
  line (snd (getc_l lx)) = line lx.
Proof.
  intros H. destruct (blank_facts lx H) as (Hn & H0 & Hl).
  pose proof (getc_l_remaining lx Hn) as Hr. split; [|split; [|split]].
  - unfold next_token. cbn [skip_blanks]. rewrite H0, H.
    rewrite (skip_blanks_fuel (remaining lx) (S (remaining (snd (getc_l lx))))) by lia.
    reflexivity.
  - apply getc_l_src.
  - apply getc_l_pos; exact Hn.
  - unfold getc_l. cbn [snd line]. rewrite Hl. reflexivity.
Qed.

Lemma next_token_skips (lx0 lx : Lexer) :
  skips_blanks lx0 lx ->
  next_token lx0 = next_token lx /\ src lx = src lx0 /\ line lx = line lx0.
Proof.
  induction 1 as [lx|lx0 lx Hb Hs IH]; [repeat split|].
  destruct (next_token_skips_blank lx0 Hb) as (E & S1 & _ & L1).
  destruct IH as (E' & S2 & L2). repeat split; congruence.
Qed.

Lemma next_token_on_line_break (lx : Lexer) :
  (peekc lx = LF ->
   next_token lx
   = Some (make_token T_NEWLINE None,
           {| src := src lx; pos := S (pos lx); line := (line lx + 1)%Z |})) /\
  (peekc lx = CR -> peekc (next_char lx) = LF ->
   next_token lx
   = Some (make_token T_NEWLINE None,
           {| src := src lx; pos := S (S (pos lx)); line := (line lx + 1)%Z |})) /\
  (peekc lx = CR -> peekc (next_char lx) <> LF ->
   next_token lx
   = Some (make_token T_NEWLINE None,
           {| src := src lx; pos := S (pos lx); line := line lx |})).
Proof.
  unfold next_token. cbn [skip_blanks].
  split; [|split].
  - intros Hc. rewrite (getc_l_at lx LF Hc) by discriminate. rewrite Hc. reflexivity.
  - intros Hc Hn. rewrite (getc_l_at lx CR Hc) by discriminate. rewrite Hc.
    change (if Ascii.eqb CR LF then (line lx + 1)%Z else line lx) with (line lx).
    fold (next_char lx). rewrite (getc_l_at (next_char lx) LF Hn) by discriminate.
    rewrite Hn. reflexivity.
  - intros Hc Hn. rewrite (getc_l_at lx CR Hc) by discriminate. rewrite Hc.
    change (if Ascii.eqb CR LF then (line lx + 1)%Z else line lx) with (line lx).
    fold (next_char lx).
    destruct (Ascii.eqb (peekc (next_char lx)) LF) eqn:E.
    + apply Ascii.eqb_eq in E. contradiction.
    + reflexivity.
Qed.

Lemma next_token_comment (a c rest : string) (l : Z) :
  one_line c = true ->
  next_token (lexer_at a (String "#" (c ++ String LF rest)) l)
  = next_token (lexer_at (a ++ String "#" (c ++ String LF EmptyString)) rest (l + 1)).
Proof.
  intros Hc.
  assert (Hb : skip_blanks (S (remaining (lexer_at a (String "#" (c ++ String LF rest)) l)))
                 (lexer_at a (String "#" (c ++ String LF rest)) l)
               = skip_blanks
                   (S (remaining (lexer_at (a ++ String "#" (c ++ String LF EmptyString))
                                           rest (l + 1))))
                   (lexer_at (a ++ String "#" (c ++ String LF EmptyString)) rest (l + 1))).
  { rewrite skip_blanks_hash by apply peekc_at. unfold skip_comment.
    rewrite (skip_comment_loop_line (String "#" c) a rest l);
      [|exact Hc|rewrite remaining_at; cbn; rewrite length_app; cbn; lia].
    cbn [append]. apply skip_blanks_fuel; rewrite !remaining_at; cbn;
      rewrite ?length_app; cbn; lia. }
  unfold next_token. rewrite Hb. reflexivity.
Qed.

(** C9, as the code has it (easylang_version2.0.c, [next_token] and
    [getc_l]).  When [next_token], after any run of spaces and tabs, meets
    a line feed, a carriage return followed by a line feed, or a carriage
    return followed by anything else, it returns exactly one [T_NEWLINE]
    token and consumes, after the blanks, one, two and one characters.  The
    line counter, a C [int] that is taken to be below [INT_MAX], advances by
    one for the line feed and for the pair; it is unchanged by the blanks
    and by a carriage return alone, because [getc_l] counts line feeds
    only.  Whatever token a call of [next_token] returns, the counter has
    advanced by the number of line feeds in the text that the call read.
    That includes line feeds for which no [T_NEWLINE] token is returned:
    a string literal is one [T_STRING] token and the counter advances by
    the line feeds inside it, and at a comment the call goes on after the
    line feed that ends it, one line further, and returns what it finds
    there. *)
Theorem newline_token_and_line_counter :
  forall lx0 lx : Lexer,
    skips_blanks lx0 lx ->
    (line lx < INT_MAX)%Z ->
    (peekc lx = LF ->
     next_token lx0
     = Some (make_token T_NEWLINE None,
             {| src := src lx; pos := S (pos lx); line := (line lx + 1)%Z |})) /\
    (peekc lx = CR -> peekc (next_char lx) = LF ->
     next_token lx0
     = Some (make_token T_NEWLINE None,
             {| src := src lx; pos := S (S (pos lx)); line := (line lx + 1)%Z |})) /\
    (peekc lx = CR -> peekc (next_char lx) <> LF ->
     next_token lx0
     = Some (make_token T_NEWLINE None,
             {| src := src lx; pos := S (pos lx); line := line lx |})) /\
    line lx = line lx0 /\
    (forall tk lx',
       next_token lx0 = Some (tk, lx') ->
       (line lx0 + count_lf (consumed lx0 lx') <= INT_MAX)%Z ->
       src lx' = src lx0 /\
       line lx' = (line lx0 + count_lf (consumed lx0 lx'))%Z) /\
    (forall (a s rest : string) (l : Z),
       plain s = true ->
       (l + count_lf s <= INT_MAX)%Z ->
       next_token (lexer_at a (String DQUOTE (s ++ String DQUOTE rest)) l)
       = Some (make_token T_STRING (Some s),
               lexer_at (a ++ String DQUOTE (s ++ String DQUOTE EmptyString)) rest
                        (l + count_lf s))) /\
    (forall (a c rest : string) (l : Z),
       one_line c = true ->
       (l < INT_MAX)%Z ->
       next_token (lexer_at a (String "#" (c ++ String LF rest)) l)
       = next_token (lexer_at (a ++ String "#" (c ++ String LF EmptyString)) rest (l + 1))).
Proof.
  intros lx0 lx Hs _. destruct (next_token_skips lx0 lx Hs) as (E & _ & L).
  destruct (next_token_on_line_break lx) as (H1 & H2 & H3). rewrite E.
  split; [exact H1|]. split; [exact H2|]. split; [exact H3|]. split; [exact L|].
  split; [|split].
  - intros tk lx' Ht _. rewrite <- E in Ht.
    destruct (next_token_moves counts_lines counts_lines_refl counts_lines_trans
                counts_lines_getc lx0 tk lx' Ht) as (S1 & _ & L1).
    split; [exact S1 | exact L1].
  - intros a s rest l Hp _. apply next_token_plain_string; exact Hp.
  - intros a c rest l Hc _. apply next_token_comment; exact Hc.
Qed.

Lemma newline_token_and_line_counter_witness :
  next_token (lexer_init blank_crlf_text)
  = Some (make_token T_NEWLINE None, {| src := blank_crlf_text; pos := 3; line := 2 |}).
Proof.
  assert (Hs : skips_blanks (lexer_init blank_crlf_text)
                 {| src := blank_crlf_text; pos := 1; line := 1 |}).
  { apply skips_one; [reflexivity|]. apply skips_none. }
  assert (Hb : (line {| src := blank_crlf_text; pos := 1; line := 1 |} < INT_MAX)%Z)
    by (vm_compute; reflexivity).
  exact (proj1 (proj2 (newline_token_and_line_counter _ _ Hs Hb)) eq_refl eq_refl).
Defined.

(** C9 as stated fails.  For a carriage return alone, one [T_NEWLINE] token
    is produced and the line counter is still 1.  For the line feed that
    ends a comment, and for a line feed inside a string literal, the line
    counter advances to 2 but no [T_NEWLINE] token is produced: the token
    returned is the one after the comment, or the string. *)
Lemma lone_cr_does_not_advance_line :
  (exists lx',
     next_token (lexer_init (String CR "x")) = Some (make_token T_NEWLINE None, lx') /\
     line lx' = line (lexer_init (String CR "x")) /\
     line lx' <> (line (lexer_init (String CR "x")) + 1)%Z) /\
  next_token (lexer_init ("#c" ++ nl ++ "x"))
  = Some (make_token T_IDENTIFIER (Some "x"),
          {| src := "#c" ++ nl ++ "x"; pos := 4; line := 2 |}) /\
  next_token (lexer_init (quoted ("a" ++ nl ++ "b")))
  = Some (make_token T_STRING (Some ("a" ++ nl ++ "b")),
          {| src := quoted ("a" ++ nl ++ "b"); pos := 5; line := 2 |}).
Proof.
  split; [|split; vm_compute; reflexivity].
  eexists. split; [reflexivity|]. split; [reflexivity|]. discriminate.
Qed.
